(** * The RAG support pipeline of the python-ai service

    A shallow embedding of [app/services/rag_service.py]: the PDF text
    sanitizer, the heading-aware chunker, the cross-encoder reranking
    adapter, the search orchestrator and the context assembler, together
    with the properties of them that the specification states.

    Python strings are sequences of Unicode code points; they are modelled
    as lists of code points.  The tables of the Unicode database that the
    interpreter consults ([str.isspace], [\w], [str.lower], ...), the
    sentence tokenizer of NLTK, the cross-encoder and binary64 arithmetic
    are not part of the repository: they are interfaces here (type classes
    and parameters), and every general theorem holds for all their
    implementations.  The samples run on small implementations of them. *)

From Stdlib Require Import ZArith QArith Lia.
From stdpp Require Import gmap list sorting pretty.

Local Open Scope Z_scope.

(** ** Strings *)

Definition char := N.
Definition str := list char.

(** A string literal of the development, read as code points. *)
Definition pystr (s : string) : str :=
  List.map Ascii.N_of_ascii (String.list_ascii_of_string s).

Definition NL : char := 10%N.
Definition SP : char := 32%N.

(** [len(s)] as a Python integer. *)
Definition len {A} (l : list A) : Z := Z.of_nat (length l).

(** Python truthiness of a sequence: [if s:]. *)
Definition truthy {A} (l : list A) : bool :=
  match l with [] => false | _ :: _ => true end.

(** [l[:k]] for any integer [k] (a negative bound counts from the end). *)
Definition slice_to {A} (k : Z) (l : list A) : list A :=
  if 0 <=? k then take (Z.to_nat k) l else take (Z.to_nat (len l + k)) l.

(** [l[-k:]] for [k > 0]: the last [k] items, the whole list when shorter. *)
Definition slice_last {A} (k : Z) (l : list A) : list A :=
  drop (Z.to_nat (len l - k)) l.

(** [p] occurs in [s] as a contiguous part. *)
Definition infix_of {A} (p s : list A) : Prop := exists a b, s = a ++ p ++ b.

(** The Unicode tables of the interpreter. *)
Class Unicode := {
  uni_isspace : char -> bool;   (* str.isspace on one character, regex \s *)
  uni_isword  : char -> bool;   (* regex \w *)
  uni_isdigit : char -> bool;   (* regex \d *)
  uni_isupper : char -> bool;   (* Py_UNICODE_ISUPPER *)
  uni_islower : char -> bool;   (* Py_UNICODE_ISLOWER *)
  uni_istitle : char -> bool;   (* Py_UNICODE_ISTITLE *)
  uni_lower   : str -> str      (* str.lower *)
}.

Section Strings.
Context `{Unicode}.

Fixpoint lstrip (s : str) : str :=
  match s with
  | c :: s' => if uni_isspace c then lstrip s' else s
  | [] => []
  end.

Definition rstrip (s : str) : str := rev (lstrip (rev s)).

(** [s.strip()] *)
Definition strip (s : str) : str := rstrip (lstrip s).

(** A string that does not begin with whitespace. *)
Definition clean_head (s : str) : Prop :=
  match s with
  | c :: _ => uni_isspace c = false
  | [] => True
  end.

(** [sep.join(parts)] *)
Fixpoint join (sep : str) (parts : list str) : str :=
  match parts with
  | [] => []
  | [p] => p
  | p :: ps => p ++ sep ++ join sep ps
  end.

(** [s.split('\n')]: the pieces between newlines, at least one piece. *)
Fixpoint split_lines (s : str) : list str :=
  match s with
  | [] => [[]]
  | c :: s' =>
      if (c =? NL)%N then [] :: split_lines s'
      else match split_lines s' with
           | l :: ls => (c :: l) :: ls
           | [] => [[c]]
           end
  end.

(** [s.startswith(p)] *)
Fixpoint startswith (p s : str) : bool :=
  match p, s with
  | [], _ => true
  | a :: p', b :: s' => (a =? b)%N && startswith p' s'
  | _ :: _, [] => false
  end.

(** [p in s] on strings: [p] occurs in [s] as a contiguous substring. *)
Fixpoint contains (s p : str) : bool :=
  startswith p s || match s with
                    | [] => false
                    | _ :: s' => contains s' p
                    end.

(** [len(s.split())]: the number of maximal runs of non-space characters. *)
Fixpoint count_words_aux (inword : bool) (s : str) : nat :=
  match s with
  | [] => 0
  | c :: s' =>
      if uni_isspace c then count_words_aux false s'
      else if inword then count_words_aux true s'
      else S (count_words_aux true s')
  end.
Definition count_words (s : str) : Z := Z.of_nat (count_words_aux false s).

(** [s.isupper()]: no lowercase or titlecase character and at least one
    uppercase one. *)
Fixpoint isupper_aux (cased : bool) (s : str) : bool :=
  match s with
  | [] => cased
  | c :: s' =>
      if uni_islower c || uni_istitle c then false
      else isupper_aux (cased || uni_isupper c) s'
  end.
Definition isupper (s : str) : bool := isupper_aux false s.

End Strings.

(** ** The sanitizer: [clean_pdf_artifacts] *)

Section Sanitizer.
Context `{Unicode}.

(** The class [[\x00-\x08\x0B\x0C\x0E-\x1F]] of the first substitution. *)
Definition is_ctrl_artifact (c : char) : bool :=
  ((c <=? 8) || (c =? 11) || (c =? 12) || ((14 <=? c) && (c <=? 31)))%N.

(** The punctuation listed in the second class: hyphen, full stop, comma,
    exclamation and question marks, colon, semicolon, parentheses,
    ampersand, apostrophe and double quote. *)
Definition is_kept_punct (c : char) : bool :=
  existsb (N.eqb c) [45; 46; 44; 33; 63; 58; 59; 40; 41; 38; 39; 34]%N.

(** The second substitution deletes what is outside the class of word
    characters, whitespace, that punctuation and the newline. *)
Definition is_allowed (c : char) : bool :=
  uni_isword c || uni_isspace c || is_kept_punct c || (c =? NL)%N.

(** The control characters (category Cc): U+0000..U+001F and
    U+007F..U+009F. *)
Definition is_control (c : char) : bool :=
  ((c <=? 31) || ((127 <=? c) && (c <=? 159)))%N.

(** [re.sub(r' +', ' ', s)]: every maximal run of spaces becomes one space;
    a space that another space follows is dropped. *)
Fixpoint squeeze_spaces (s : str) : str :=
  match s with
  | [] => []
  | c :: t =>
      if (c =? SP)%N
      then match t with
           | c' :: _ => if (c' =? SP)%N then squeeze_spaces t
                        else c :: squeeze_spaces t
           | [] => [c]
           end
      else c :: squeeze_spaces t
  end.

(** [re.sub(r'\n{3,}', '\n\n', s)]: every maximal run of three or more
    newlines becomes two; a newline that two more newlines follow is
    dropped. *)
Fixpoint squeeze_newlines (s : str) : str :=
  match s with
  | [] => []
  | c :: t =>
      if (c =? NL)%N
      then match t with
           | c1 :: c2 :: _ =>
               if (c1 =? NL)%N && (c2 =? NL)%N then squeeze_newlines t
               else c :: squeeze_newlines t
           | _ => c :: squeeze_newlines t
           end
      else c :: squeeze_newlines t
  end.

Definition clean_pdf_artifacts (text : str) : str :=
  let text := List.filter (fun c => negb (is_ctrl_artifact c)) text in
  let text := List.filter is_allowed text in
  let text := squeeze_spaces text in
  let text := squeeze_newlines text in
  strip text.

End Sanitizer.

(** The tables on U+0000..U+007F, as CPython has them there; every other
    code point is taken as an uncased symbol.  The sample inputs of this
    development are ASCII. *)
Definition ascii_isspace (c : char) : bool :=
  (((9 <=? c) && (c <=? 13)) || ((28 <=? c) && (c <=? 32)))%N.
Definition ascii_isdigit (c : char) : bool := ((48 <=? c) && (c <=? 57))%N.
Definition ascii_isupper (c : char) : bool := ((65 <=? c) && (c <=? 90))%N.
Definition ascii_islower (c : char) : bool := ((97 <=? c) && (c <=? 122))%N.
Definition ascii_isword (c : char) : bool :=
  ascii_isdigit c || ascii_isupper c || ascii_islower c || (c =? 95)%N.
Definition ascii_lower (s : str) : str :=
  List.map (fun c => if ascii_isupper c then (c + 32)%N else c) s.

#[export] Instance ascii_tables : Unicode := {|
  uni_isspace := ascii_isspace;
  uni_isword := ascii_isword;
  uni_isdigit := ascii_isdigit;
  uni_isupper := ascii_isupper;
  uni_islower := ascii_islower;
  uni_istitle := fun _ => false;
  uni_lower := ascii_lower
|}.


(** ** The chunker: [split_text_semantic] *)

Section Chunker.
Context `{Unicode}.

(** [nltk.sent_tokenize]; [None] when the call raises (the punkt data may
    be missing: its download at import time is allowed to fail). *)
Variable sent_tokenize : str -> option (list str).

Variables chunk_size overlap : Z.

(** What [[ivxlcdm]] matches under [re.IGNORECASE]: the fourteen ASCII
    letters, and U+0130 and U+0131, which the regex engine folds to i. *)
Definition is_roman_ci (c : char) : bool :=
  existsb (N.eqb c)
    [105; 73; 118; 86; 120; 88; 108; 76; 99; 67; 100; 68; 109; 77; 304; 305]%N.

(** The bullets of the pattern: U+2022, hyphen and asterisk. *)
Definition is_bullet (c : char) : bool :=
  existsb (N.eqb c) [8226; 45; 42]%N.

Fixpoint drop_run (p : char -> bool) (s : str) : str :=
  match s with
  | c :: s' => if p c then drop_run p s' else s
  | [] => []
  end.

(** A non-empty run of [p], then a full stop, then whitespace. *)
Definition run_dot_space (p : char -> bool) (s : str) : bool :=
  match s with
  | c :: s' =>
      p c && match drop_run p s' with
             | dot :: w :: _ => (dot =? 46)%N && uni_isspace w
             | _ => false
             end
  | [] => false
  end.

(** [re.match] of the numbered or bulleted prefix pattern: digits and a
    full stop, or roman numerals and a full stop, or one bullet; then at
    least one whitespace character. *)
Definition match_list_marker (s : str) : bool :=
  run_dot_space uni_isdigit s
  || run_dot_space is_roman_ci s
  || match s with
     | b :: w :: _ => is_bullet b && uni_isspace w
     | _ => false
     end.

Definition is_heading (line : str) : bool :=
  if len line >? 180 then false
  else if startswith [35%N] line then true
  else if isupper line && (count_words line <=? 8) then true
  else if match_list_marker (strip line) then len line <=? 160
  else match line with
       | c :: _ => isupper [c] && (count_words line <=? 6)
       | [] => false
       end.

(** The loop state of [split_text_semantic]. *)
Record chunker := Chunker {
  chunks : list str;
  current_chunk : list str;
  current_chunk_len : Z;
  last_header : str
}.

(** The text of the chunk being closed: the accumulated fragments joined
    by spaces, under the last header when it does not occur in them. *)
Definition chunk_text (st : chunker) : str :=
  let joined := join [SP] (current_chunk st) in
  if truthy (last_header st) && negb (contains joined (last_header st))
  then last_header st ++ [NL] ++ joined
  else joined.

(** [f"{last_header}: {sent}"] for a sentence of a body line under a
    header, the sentence itself otherwise. *)
Definition sent_with_context (heading : bool) (header sent : str) : str :=
  if negb heading && truthy header then header ++ pystr ": " ++ sent
  else sent.

(** One turn of the loop over the sentences of a line. *)
Definition add_sentence (heading : bool) (st : chunker) (sent : str)
  : chunker :=
  let sent := strip sent in
  if negb (truthy sent) || (len sent <? 3) then st
  else
    let swc := sent_with_context heading (last_header st) sent in
    let new_len := current_chunk_len st + len swc + 1 in
    let st :=
      if (new_len >? chunk_size) && truthy (current_chunk st)
      then
        let text := chunk_text st in
        let overlap_buf :=
          if (overlap >? 0) && negb heading
          then [slice_last overlap text] else [] in
        {| chunks := chunks st ++ [text];
           current_chunk := overlap_buf;
           current_chunk_len := fold_right (fun x n => len x + n) 0 overlap_buf;
           last_header := last_header st |}
      else st in
    {| chunks := chunks st;
       current_chunk := current_chunk st ++ [swc];
       current_chunk_len := new_len;
       last_header := last_header st |}.

(** The sentences of a line: a heading is one unit, a body line is cut by
    the tokenizer, and stays whole when the tokenizer fails. *)
Definition sentences_of (heading : bool) (line : str) : list str :=
  if heading then [line]
  else match sent_tokenize line with
       | Some sentences => sentences
       | None => [line]
       end.

(** One turn of the loop over the lines. *)
Definition add_line (st : chunker) (raw_line : str) : chunker :=
  let line := strip raw_line in
  if negb (truthy line) then st
  else
    let heading := is_heading line in
    let st :=
      if heading && truthy (current_chunk st)
      then {| chunks := chunks st ++ [chunk_text st];
              current_chunk := [];
              current_chunk_len := 0;
              last_header := last_header st |}
      else st in
    let st :=
      if heading
      then {| chunks := chunks st;
              current_chunk := current_chunk st;
              current_chunk_len := current_chunk_len st;
              last_header := line |}
      else st in
    fold_left (add_sentence heading) (sentences_of heading line) st.

Definition chunker_init : chunker :=
  {| chunks := []; current_chunk := []; current_chunk_len := 0;
     last_header := [] |}.

(** The chunks when the loop is over: the open chunk is closed. *)
Definition final_chunks (st : chunker) : list str :=
  if truthy (current_chunk st) then chunks st ++ [chunk_text st]
  else chunks st.

Definition split_text_semantic (text : str) : list str :=
  let text := clean_pdf_artifacts text in
  if negb (truthy text) || (len text <=? chunk_size)
  then (if truthy text then [text] else [])
  else
    let st := fold_left add_line (split_lines text) chunker_init in
    let chunks := final_chunks st in
    if truthy chunks then chunks else [text].

(** The sentence units of a text, in order: what the loop appends to its
    chunks, whatever the chunk boundaries.  [header] is the header in
    force before the lines. *)
Definition line_header (header raw_line : str) : str :=
  let line := strip raw_line in
  if truthy line && is_heading line then line else header.

Definition sentence_unit (heading : bool) (header sent : str) : list str :=
  let sent := strip sent in
  if negb (truthy sent) || (len sent <? 3) then []
  else [sent_with_context heading header sent].

Definition line_units (header raw_line : str) : list str :=
  let line := strip raw_line in
  if negb (truthy line) then []
  else
    let heading := is_heading line in
    let header := if heading then line else header in
    flat_map (sentence_unit heading header) (sentences_of heading line).

Fixpoint units_from (header : str) (lines : list str) : list str :=
  match lines with
  | [] => []
  | l :: ls => line_units header l ++ units_from (line_header header l) ls
  end.

Definition sentence_units (text : str) : list str :=
  units_from [] (split_lines (clean_pdf_artifacts text)).

(** The invariants of the loop.  [weight] is what [current_chunk_len]
    counts: every fragment and one separator each. *)
Definition weight (fragments : list str) : Z :=
  fold_right (fun x n => len x + 1 + n) 0 fragments.

(** A chunk within the bound, or made of one sentence unit, alone or
    behind an overlap tail of at most [overlap] characters. *)
Definition good_chunk (units : list str) (c : str) : Prop :=
  len c <= chunk_size
  \/ exists u, u ∈ units
       /\ (c = u
           \/ (0 < overlap
               /\ exists tail, len tail <= overlap /\ c = tail ++ [SP] ++ u)).

Definition size_inv (units : list str) (st : chunker) : Prop :=
  Forall (good_chunk units) (chunks st)
  /\ weight (current_chunk st) <= current_chunk_len st
  /\ (current_chunk st <> [] ->
      good_chunk units (join [SP] (current_chunk st)))
  /\ (current_chunk st <> [] ->
      last_header st = []
      \/ infix_of (last_header st) (join [SP] (current_chunk st))).

(** Every unit read so far is in a closed chunk or in the open one. *)
Definition cover_inv (units : list str) (st : chunker) : Prop :=
  forall u, u ∈ units ->
    (exists c, c ∈ chunks st /\ infix_of u c) \/ u ∈ current_chunk st.

End Chunker.

(** ** Documents *)

(** Binary64 numbers, as far as the service uses them. *)
Class Binary64 := {
  float : Type;
  f_zero : float;                    (* 0.0, and float(0) *)
  f_055 : float;                     (* the literal 0.55 *)
  f_lt : float -> float -> bool;     (* x < y *)
  f_eq : float -> float -> bool;     (* x == y *)
  f_mul : float -> float -> float    (* x * y *)
}.

(** The value under the key [id]: a string or an integer. *)
Inductive pyid :=
  | IdStr (s : str)
  | IdInt (n : Z).

(** [str(v)] *)
Definition str_of_id (v : pyid) : str :=
  match v with
  | IdStr s => s
  | IdInt n => pystr (pretty n)
  end.

Section Documents.
Context `{Binary64}.

(** A document is a dictionary; a key that is absent reads [None] here. *)
Record Document := Doc {
  doc_id : option pyid;
  doc_text : option str;
  doc_score : option float;
  doc_rerank_score : option float;
  doc_file_name : option str;
  doc_chunk_index : option Z
}.

Definition empty_doc : Document :=
  {| doc_id := None; doc_text := None; doc_score := None;
     doc_rerank_score := None; doc_file_name := None;
     doc_chunk_index := None |}.

#[export] Instance Document_inhabited : Inhabited Document :=
  populate empty_doc.

(** [doc.get('text', '')] *)
Definition get_text (doc : Document) : str := default [] (doc_text doc).

(** [str(doc.get('id', ''))] *)
Definition get_id_str (doc : Document) : str :=
  match doc_id doc with
  | Some v => str_of_id v
  | None => []
  end.

(** [float(doc.get('rerank_score', 0) or 0)] *)
Definition get_score (doc : Document) : float :=
  match doc_rerank_score doc with
  | Some x => if f_eq x f_zero then f_zero else x
  | None => f_zero
  end.

(** [doc.get('rerank_score', 0)], the sort key of the reranker. *)
Definition rerank_key (doc : Document) : float :=
  default f_zero (doc_rerank_score doc).

(** [doc['rerank_score'] = x] *)
Definition set_rerank_score (x : float) (doc : Document) : Document :=
  {| doc_id := doc_id doc; doc_text := doc_text doc;
     doc_score := doc_score doc; doc_rerank_score := Some x;
     doc_file_name := doc_file_name doc;
     doc_chunk_index := doc_chunk_index doc |}.

(** [==] on the values of a key. *)
Definition opt_eqb {A} (eqb : A -> A -> bool) (x y : option A) : bool :=
  match x, y with
  | Some a, Some b => eqb a b
  | None, None => true
  | _, _ => false
  end.

Definition str_eqb (s t : str) : bool := bool_decide (s = t).

Definition pyid_eqb (x y : pyid) : bool :=
  match x, y with
  | IdStr s, IdStr t => str_eqb s t
  | IdInt n, IdInt m => n =? m
  | _, _ => false
  end.

(** [d1 == d2] on dictionaries: the same keys with equal values. *)
Definition doc_eqb (d1 d2 : Document) : bool :=
  opt_eqb pyid_eqb (doc_id d1) (doc_id d2)
  && opt_eqb str_eqb (doc_text d1) (doc_text d2)
  && opt_eqb f_eq (doc_score d1) (doc_score d2)
  && opt_eqb f_eq (doc_rerank_score d1) (doc_rerank_score d2)
  && opt_eqb str_eqb (doc_file_name d1) (doc_file_name d2)
  && opt_eqb Z.eqb (doc_chunk_index d1) (doc_chunk_index d2).

(** The dictionaries live in the interpreter's heap and the lists hold
    references to them: the reranker writes [rerank_score] in place. *)
Definition deref (h : gmap nat Document) (l : nat) : Document := h !!! l.

End Documents.

Abbreviation loc := nat (only parsing).
Abbreviation heap := (gmap nat Document) (only parsing).

(** ** The reranker adapter: [rerank_documents] *)

Section Reranker.
Context `{Unicode} `{Binary64}.

(** A loaded cross-encoder: [predict] on a batch of pairs gives the scores,
    or raises ([None]). *)
Definition CrossEncoder := list (str * str) -> option (list float).

(** The constructor [CrossEncoder(model_name, max_length=512)]; it may
    raise ([None]). *)
Variable new_cross_encoder : str -> option CrossEncoder.

(** [str(doc)] *)
Variable dict_repr : Document -> str.

Record Settings := {
  use_reranker : bool;
  reranker_model_name : str
}.

(** The service object, as far as reranking uses it. *)
Record RAGService := { reranker_model : option CrossEncoder }.

Variable settings : Settings.

Definition default_reranker_name : str :=
  pystr "cross-encoder/ms-marco-MiniLM-L-6-v2".

Definition load_reranker_model (self : RAGService)
  : option CrossEncoder * RAGService :=
  match reranker_model self with
  | None =>
      if use_reranker settings
      then
        let model_name :=
          if truthy (reranker_model_name settings)
          then reranker_model_name settings else default_reranker_name in
        match new_cross_encoder model_name with
        | Some m => (Some m, {| reranker_model := Some m |})
        | None => (None, self)
        end
      else (None, self)
  | Some m => (Some m, self)
  end.

(** The pair sent to the scorer for one document. *)
Definition score_pair (query : str) (doc : Document) : str * str :=
  let doc_text := slice_to 2000 (get_text doc) in
  if truthy (strip doc_text) then (query, doc_text)
  else (query, dict_repr doc).

(** The loop [for i, doc in enumerate(documents)] from index [i] on. *)
Fixpoint assign_scores (scores : list float) (i : nat) (documents : list loc)
  (h : heap) : heap :=
  match documents with
  | [] => h
  | doc :: rest =>
      let x := match scores !! i with
               | Some x => x        (* i < len(scores) *)
               | None => f_zero
               end in
      assign_scores scores (S i) rest
        (<[doc := set_rerank_score x (deref h doc)]> h)
  end.

(** [sorted(l, key=key, reverse=True)] on keys that [<] orders: the stable
    sort, largest key first; an item moves behind the items before which
    its key is strictly smaller.  On keys with a NaN, which [<] does not
    order, the merge sort of the interpreter makes other comparisons and
    may give another permutation of the list: what is stated below about
    the order of the result carries the hypothesis [comparable]. *)
Fixpoint insert_desc {A} (key : A -> float) (x : A) (l : list A) : list A :=
  match l with
  | [] => [x]
  | y :: l' =>
      if f_lt (key x) (key y) then y :: insert_desc key x l'
      else x :: y :: l'
  end.

Definition sorted_desc {A} (key : A -> float) (l : list A) : list A :=
  fold_right (insert_desc key) [] l.

(** Descending by key: the second item does not have the larger key. *)
Definition desc {A} (key : A -> float) (a b : A) : Prop :=
  f_lt (key a) (key b) = false.

(** Scores that [<] orders as numbers: no two of them are each below the
    other, and one below another is below, or the other above, any third.
    It holds of every list of binary64 numbers without a NaN. *)
Definition comparable (S : list float) : Prop :=
  (forall x y, x ∈ S -> y ∈ S -> f_lt x y = true -> f_lt y x = false)
  /\ (forall x y z, x ∈ S -> y ∈ S -> z ∈ S ->
        f_lt x z = true -> f_lt x y = true \/ f_lt y z = true).

(** Descending by the [rerank_score] that the documents hold in the heap:
    the second document does not have the larger score. *)
Definition by_score (h : heap) (a b : loc) : Prop :=
  forall x y,
    doc_rerank_score (deref h a) = Some x ->
    doc_rerank_score (deref h b) = Some y ->
    f_lt x y = false.

Definition rerank_documents (self : RAGService) (query : str)
  (documents : list loc) (top_k : Z) (h : heap)
  : list loc * heap * RAGService :=
  if negb (truthy documents) then ([], h, self)
  else
    let '(reranker, self) := load_reranker_model self in
    match reranker with
    | None => (slice_to top_k documents, h, self)
    | Some predict =>
        let pairs := List.map (fun doc => score_pair query (deref h doc))
                              documents in
        if negb (truthy pairs) then (slice_to top_k documents, h, self)
        else
          match predict pairs with
          | None => (slice_to top_k documents, h, self)
          | Some scores =>
              let h := assign_scores scores 0 documents h in
              let reranked :=
                sorted_desc (fun d => rerank_key (deref h d)) documents in
              (slice_to top_k reranked, h, self)
          end
    end.

(** ** The search orchestrator: [advanced_search] *)

(** [all_candidates], a dictionary in insertion order. *)
Definition dict_has (k : str) (d : list (str * loc)) : bool :=
  existsb (fun e => str_eqb k (fst e)) d.

Definition dedup_step (h : heap) (all_candidates : list (str * loc))
  (doc : loc) : list (str * loc) :=
  let doc_id := get_id_str (deref h doc) in
  if truthy doc_id && negb (dict_has doc_id all_candidates)
  then all_candidates ++ [(doc_id, doc)]
  else all_candidates.

(** What the dictionary holds after the loop has read [vr]: the invariant
    of the deduplication loop. *)
Definition dedup_inv (h : heap) (vr : list loc) (acc : list (str * loc))
  : Prop :=
  Forall (fun e => fst e = get_id_str (deref h (snd e)) /\ fst e <> []) acc
  /\ NoDup (List.map fst acc)
  /\ sublist (List.map snd acc) vr
  /\ (forall d, d ∈ List.map snd acc ->
        exists pre post, vr = pre ++ d :: post
          /\ get_id_str (deref h d)
               ∉ List.map (fun l => get_id_str (deref h l)) pre)
  /\ (forall d, d ∈ vr -> get_id_str (deref h d) <> [] ->
        get_id_str (deref h d) ∈ List.map fst acc).

(** Deduplication by id, said without the loop: [candidates] are the
    documents of [vector_results] that have an id, each the first one with
    its id, in their order. *)
Definition first_of_each_id (h : heap) (vector_results candidates : list loc)
  : Prop :=
  sublist candidates vector_results
  /\ NoDup (List.map (fun d => get_id_str (deref h d)) candidates)
  /\ (forall d, d ∈ candidates ->
        get_id_str (deref h d) <> []
        /\ exists pre post, vector_results = pre ++ d :: post
             /\ get_id_str (deref h d)
                  ∉ List.map (fun l => get_id_str (deref h l)) pre)
  /\ (forall d, d ∈ vector_results -> get_id_str (deref h d) <> [] ->
        get_id_str (deref h d)
          ∈ List.map (fun l => get_id_str (deref h l)) candidates).

(** [list(all_candidates.values())] after the deduplication loop. *)
Definition dedup_candidates (h : heap) (vector_results : list loc)
  : list loc :=
  List.map snd (fold_left (dedup_step h) vector_results []).

Definition advanced_search (self : RAGService) (bot_id query : str)
  (vector_results : list loc) (top_k : Z) (h : heap)
  : list loc * heap * RAGService :=
  let candidates_list := dedup_candidates h vector_results in
  if negb (truthy candidates_list) then ([], h, self)
  else if use_reranker settings
  then
    let rerank_k := Z.min (top_k * 3) (len candidates_list) in
    let '(reranked, h, self) :=
      rerank_documents self query candidates_list rerank_k h in
    (slice_to top_k reranked, h, self)
  else (slice_to top_k candidates_list, h, self).

End Reranker.

(** ** The context assembler: [build_context]

    [build_context] only reads its documents, so it is stated on their
    values: the list of the dictionaries that the references denote. *)

Section Context_assembler.
Context `{Unicode} `{Binary64}.

(** The class of the keyword pattern: Latin and Cyrillic letters (with
    U+0401 and U+0451) and the apostrophe. *)
Definition is_keyword_char (c : char) : bool :=
  (((65 <=? c) && (c <=? 90)) || ((97 <=? c) && (c <=? 122))
   || ((1040 <=? c) && (c <=? 1071)) || ((1072 <=? c) && (c <=? 1103))
   || (c =? 1025) || (c =? 1105) || (c =? 39))%N.

(** [re.findall] of a one-or-more repetition of a character class: the
    maximal runs of the class. *)
Fixpoint findall_runs (p : char -> bool) (s : str) : list str :=
  match s with
  | [] => []
  | c :: s' =>
      if p c
      then match s' with
           | c' :: _ =>
               if p c'
               then match findall_runs p s' with
                    | r :: rs => (c :: r) :: rs
                    | [] => [[c]]
                    end
               else [c] :: findall_runs p s'
           | [] => [[c]]
           end
      else findall_runs p s'
  end.

Definition extract_keywords (text : str) : list str :=
  List.map uni_lower
    (List.filter (fun w => len w >=? 4) (findall_runs is_keyword_char text)).

(** [text.split('\n', 1)[0]] *)
Definition first_split (text : str) : str := hd [] (split_lines text).

(** The main header: the first line of the first document when it is
    non-empty and at most 60 characters long. *)
Definition main_header_of (documents : list Document) : option str :=
  match documents with
  | [] => None
  | first :: _ =>
      let first_line := strip (first_split (get_text first)) in
      if truthy first_line && (len first_line <=? 60) then Some first_line
      else None
  end.

Definition max_rerank_of (documents : list Document) : float :=
  fold_left (fun max_rerank doc =>
               let score := get_score doc in
               if f_lt max_rerank score then score else max_rerank)
            documents f_zero.

(** One turn of the filter loop. *)
Definition filter_step (query_keywords : list str) (main_header : option str)
  (max_rerank : float) (filtered_docs : list Document) (doc : Document)
  : list Document :=
  let lower_text := uni_lower (get_text doc) in
  let score := get_score doc in
  let keep := false in
  let keep :=
    if truthy query_keywords && existsb (contains lower_text) query_keywords
    then true else keep in
  let keep :=
    if negb keep
       && match main_header with
          | Some hdr => contains lower_text (uni_lower hdr)
          | None => false
          end
    then true else keep in
  let keep := if negb (truthy filtered_docs) then true else keep in
  let keep :=
    if keep && f_lt f_zero max_rerank && truthy filtered_docs
    then (if f_lt score (f_mul max_rerank f_055) then false else keep)
    else keep in
  if keep then filtered_docs ++ [doc] else filtered_docs.

Definition filter_pass (query : str) (documents : list Document)
  : list Document :=
  fold_left (filter_step (extract_keywords query) (main_header_of documents)
                         (max_rerank_of documents))
            documents [].

(** The recall loop: documents not yet kept are added, in order, until
    [min_docs] are kept.  [doc in filtered_docs] finds a dictionary that is
    the same object or compares equal; on the values of the dictionaries
    that is [doc_eqb], but for a dictionary that holds a NaN, which does
    not compare equal to itself here and is found by identity there. *)
Fixpoint recall_loop (min_docs : Z) (documents filtered_docs : list Document)
  : list Document :=
  match documents with
  | [] => filtered_docs
  | doc :: rest =>
      if existsb (doc_eqb doc) filtered_docs
      then recall_loop min_docs rest filtered_docs
      else
        let filtered_docs := filtered_docs ++ [doc] in
        if len filtered_docs >=? min_docs then filtered_docs
        else recall_loop min_docs rest filtered_docs
  end.

Definition recall_net (min_docs : Z) (documents filtered_docs : list Document)
  : list Document :=
  if len filtered_docs <? min_docs
  then recall_loop min_docs documents filtered_docs
  else filtered_docs.

(** The total fallback, taken when nothing was kept. *)
Definition total_fallback (min_docs : Z)
  (documents filtered_docs : list Document) : list Document :=
  if negb (truthy filtered_docs)
  then slice_to (Z.min min_docs (len documents)) documents
  else filtered_docs.

(** Removal of the documents whose stripped text was already seen. *)
Definition dedup_text_step (acc : list Document * gset str) (doc : Document)
  : list Document * gset str :=
  let '(deduped, seen_texts) := acc in
  let key := strip (get_text doc) in
  if bool_decide (key ∈ seen_texts) then acc
  else (deduped ++ [doc], {[key]} ∪ seen_texts).

Definition dedup_texts (filtered_docs : list Document) : list Document :=
  fst (fold_left dedup_text_step filtered_docs ([], ∅)).

Definition ellipsis : str := pystr "...".

(** The packing loop, from a state [(context_parts, total_chars)]. *)
Fixpoint pack (max_chars max_docs : Z) (docs : list Document)
  (context_parts : list str) (total_chars : Z) : list str :=
  match docs with
  | [] => context_parts
  | doc :: rest =>
      let text := strip (get_text doc) in
      if negb (truthy text)
      then pack max_chars max_docs rest context_parts total_chars
      else if (len text <? 120) && negb (contains text [46%N])
              && negb (contains text [NL]) && (len context_parts >? 0)
      then pack max_chars max_docs rest context_parts total_chars
      else if len context_parts >=? max_docs then context_parts
      else if total_chars + len text >? max_chars
      then
        let remaining := max_chars - total_chars in
        if remaining >? 500
        then context_parts ++ [slice_to remaining text ++ ellipsis]
        else context_parts
      else pack max_chars max_docs rest (context_parts ++ [text])
                (total_chars + len text)
  end.

(** The documents that reach the packing loop. *)
Definition select_docs (query : str) (documents : list Document)
  (min_docs : Z) : list Document :=
  let filtered_docs := filter_pass query documents in
  let filtered_docs := recall_net min_docs documents filtered_docs in
  let filtered_docs := total_fallback min_docs documents filtered_docs in
  dedup_texts filtered_docs.

Definition build_context (query : str) (documents : list Document)
  (max_chars max_docs min_docs : Z) : str :=
  if negb (truthy documents) then []
  else
    let filtered_docs := select_docs query documents min_docs in
    let context_parts := pack max_chars max_docs filtered_docs [] 0 in
    join [NL; NL] context_parts.

End Context_assembler.

(** ** More invariants of the chunker *)

(** No closed chunk is empty, and the open one would not be. *)
Definition nonblank_inv (st : chunker) : Prop :=
  Forall (fun c => c <> []) (chunks st)
  /\ (current_chunk st <> [] -> join [SP] (current_chunk st) <> []).

(** The heading [hd] has opened a chunk: a closed chunk begins with it, or
    the open chunk does, under [hd] as the header in force. *)
Definition opened (hd : str) (st : chunker) : Prop :=
  (exists c rest, c ∈ chunks st /\ c = hd ++ rest)
  \/ (exists rest, current_chunk st = hd :: rest /\ last_header st = hd).

(** A chunk as the loop builds it: the overlap tail it was seeded with,
    none or one, and the sentence units appended behind it. *)
Definition chunk_of (p : list str * list str) : str :=
  join [SP] (p.1 ++ p.2).

(** The overlap tail of a chunk is the last [overlap] characters of the
    chunk before it; the first chunk has none. *)
Definition tails_ok (overlap : Z) (cs : list str)
  (parts : list (list str * list str)) : Prop :=
  forall i p, parts !! i = Some p ->
    p.1 = []
    \/ (0 < overlap
        /\ exists j prev, i = S j /\ cs !! j = Some prev
             /\ p.1 = [slice_last overlap prev]).

(** The units read so far are the units of the closed chunks and of the
    open one, in order and once each. *)
Definition parts_inv (overlap : Z) (units : list str) (st : chunker)
  : Prop :=
  exists parts cur,
    chunks st = List.map chunk_of parts
    /\ current_chunk st = cur.1 ++ cur.2
    /\ concat (List.map snd parts) ++ cur.2 = units
    /\ Forall (fun p => p.2 <> []) parts
    /\ tails_ok overlap (chunks st) (parts ++ [cur])
    /\ (cur.2 = [] -> cur.1 = []).

(** The characters of a list of texts, separators apart. *)
Definition sum_len (texts : list str) : Z :=
  fold_right (fun t n => len t + n) 0 texts.

(** ** The embedding model: [load_embedding_model], [create_embeddings] *)

(** The exceptions that the service raises itself, and the failure of a
    call into a library. *)
Inductive exn :=
  | ValueError (msg : str)
  | ImportError (msg : str)
  | FileNotFoundError (model_path : str)
  | LibraryError.

(** Truthiness of a value that is [None] or a string. *)
Definition opt_truthy (o : option str) : bool :=
  match o with
  | Some s => truthy s
  | None => false
  end.

Section Embeddings.
Context `{Unicode} `{Binary64}.

(** A loaded sentence transformer: [encode] on a batch of texts gives one
    vector per text, or raises. *)
Definition Encoder := list str -> option (list (list float)).

(** The constructor [SentenceTransformer(name, cache_folder=folder)]. *)
Variable new_sentence_transformer : str -> str -> option Encoder.

Record EmbeddingSettings := {
  embedding_model_name : option str;
  embedding_cache_folder : option str
}.

Variable settings : EmbeddingSettings.

(** [load_embedding_model], on the field [_embedding_model] of the
    service. *)
Definition load_embedding_model (embedding_model : option Encoder)
  : (exn + Encoder) * option Encoder :=
  match embedding_model with
  | Some model => (inr model, embedding_model)
  | None =>
      if negb (opt_truthy (embedding_model_name settings))
      then (inl (ValueError (pystr "EMBEDDING_MODEL_NAME is not configured")),
            embedding_model)
      else if negb (opt_truthy (embedding_cache_folder settings))
      then (inl (ValueError (pystr "EMBEDDING_CACHE_FOLDER is not configured")),
            embedding_model)
      else
        match new_sentence_transformer
                (default [] (embedding_model_name settings))
                (default [] (embedding_cache_folder settings)) with
        | Some model => (inr model, Some model)
        | None => (inl LibraryError, embedding_model)
        end
  end.

End Embeddings.

(** ** The generator service: [model_service_gguf.py] *)

Section Generator.
Context `{Unicode}.

(** A message of the conversation, a dictionary with the keys [role] and
    [content]. *)
Record Message := {
  msg_role : option str;
  msg_content : option str
}.

(** The two prompts of the settings that [_format_messages] reads. *)
Record PromptSettings := {
  generation_system_base_prompt : str;
  generation_user_prompt : str
}.

Variable settings : PromptSettings.

Definition im_start : str := pystr "<|im_start|>".
Definition im_end : str := pystr "<|im_end|>".

Definition system_message (behavior_instruction system_prompt : option str)
  : str :=
  if opt_truthy system_prompt
  then default [] system_prompt ++ [NL; NL]
       ++ generation_system_base_prompt settings
  else
    let system_message :=
      generation_user_prompt settings ++ [NL; NL]
      ++ generation_system_base_prompt settings in
    if opt_truthy behavior_instruction
    then default [] behavior_instruction ++ [NL] ++ system_message
    else system_message.

(** One turn of the loop over the messages: [prompt += ...]. *)
Definition add_message (prompt : str) (msg : Message) : str :=
  let role := default (pystr "user") (msg_role msg) in
  let content := default [] (msg_content msg) in
  prompt ++ (im_start ++ role ++ [NL] ++ content ++ im_end ++ [NL]).

Definition _format_messages (messages : list Message)
  (behavior_instruction system_prompt : option str) : str :=
  let prompt :=
    im_start ++ pystr "system" ++ [NL]
    ++ system_message behavior_instruction system_prompt ++ im_end ++ [NL] in
  let prompt := fold_left add_message messages prompt in
  prompt ++ (im_start ++ pystr "assistant" ++ [NL]).

(** [s.replace(old, '')] for a non-empty [old]: the occurrences of [old]
    are deleted from left to right, without overlap; [skip] counts the
    characters of an occurrence still to pass over. *)
Fixpoint delete_all_from (old : str) (skip : nat) (s : str) : str :=
  match s with
  | [] => []
  | c :: s' =>
      match skip with
      | S k => delete_all_from old k s'
      | O =>
          if startswith old s then delete_all_from old (length old - 1) s'
          else c :: delete_all_from old 0 s'
      end
  end.

Definition delete_all (old s : str) : str := delete_all_from old 0 s.

(** The tags that the stream loses. *)
Definition strip_tags (token : str) : str :=
  delete_all (pystr "</thought>")
    (delete_all (pystr "<thought>")
       (delete_all (pystr "</think>")
          (delete_all (pystr "<think>") token))).

(** [s.isspace()] *)
Definition isspace (s : str) : bool := truthy s && forallb uni_isspace s.

(** A token that the stream withholds before the answer has started. *)
Definition blank_token (token : str) : bool :=
  negb (truthy token) || isspace token.

(** The loop of [generate_response_stream] over the texts that the model
    puts out, from the flag [started] on: the tokens that are yielded. *)
Fixpoint stream_tokens (started : bool) (outputs : list str) : list str :=
  match outputs with
  | [] => []
  | text :: rest =>
      let token := strip_tags text in
      if negb started && blank_token token then stream_tokens false rest
      else token :: stream_tokens true rest
  end.

Definition generate_response_stream (outputs : list str) : list str :=
  stream_tokens false outputs.

End Generator.

(** ** Sample implementations of the interfaces *)

(** Exact rationals stand for the binary64 numbers of the samples. *)
#[export] Instance rational_scores : Binary64 := {|
  float := Q;
  f_zero := 0%Q;
  f_055 := (55 # 100)%Q;
  f_lt := fun x y => negb (Qle_bool y x);
  f_eq := Qeq_bool;
  f_mul := Qmult
|}.

(** Rationals and a NaN, which is below nothing, above nothing and equal
    to nothing. *)
Definition nan_scores : Binary64 := {|
  float := option Q;
  f_zero := Some 0%Q;
  f_055 := Some (55 # 100)%Q;
  f_lt := fun x y => match x, y with
                     | Some a, Some b => negb (Qle_bool b a)
                     | _, _ => false
                     end;
  f_eq := fun x y => match x, y with
                     | Some a, Some b => Qeq_bool a b
                     | _, _ => false
                     end;
  f_mul := fun x y => match x, y with
                      | Some a, Some b => Some (a * b)%Q
                      | _, _ => None
                      end
|}.

(** A tokenizer that always raises: the punkt data is missing. *)
Definition no_tokenizer : str -> option (list str) := fun _ => None.

(** The tokenizer on lines without a sentence break: the line is its one
    sentence. *)
Definition one_sentence : str -> option (list str) := fun line => Some [line].

(** Sample documents, a sample heap and sample collaborators. *)
Definition sample_doc (id : Z) (text : string) : Document :=
  {| doc_id := Some (IdInt id); doc_text := Some (pystr text);
     doc_score := None; doc_rerank_score := None; doc_file_name := None;
     doc_chunk_index := None |}.

Definition sample_heap : heap :=
  <[0%nat := sample_doc 1 "alpha"]>
    (<[1%nat := sample_doc 2 "beta"]>
       (<[2%nat := sample_doc 1 "gamma"]>
          (<[3%nat := sample_doc 3 "delta"]> ∅))).

(** A scorer that returns two scores, whatever the batch. *)
Definition sample_predict : CrossEncoder := fun _ => Some [1%Q; 3%Q].

(** A scorer whose [predict] raises. *)
Definition failing_predict : CrossEncoder := fun _ => None.

Definition sample_repr : Document -> str := fun _ => pystr "{}".

Definition sample_settings : Settings :=
  {| use_reranker := true; reranker_model_name := [] |}.

Definition fresh_service : RAGService := {| reranker_model := None |}.

(** Three documents, and a scorer whose second score is a NaN. *)
Definition nan_doc (id : Z) (text : string) : @Document nan_scores :=
  {| doc_id := Some (IdInt id); doc_text := Some (pystr text);
     doc_score := None; doc_rerank_score := None; doc_file_name := None;
     doc_chunk_index := None |}.

Definition nan_heap : gmap nat (@Document nan_scores) :=
  <[0%nat := nan_doc 1 "alpha"]>
    (<[1%nat := nan_doc 2 "beta"]>
       (<[2%nat := nan_doc 3 "gamma"]> ∅)).

Definition nan_predict : @CrossEncoder nan_scores :=
  fun _ => Some [Some 1%Q; None; Some 2%Q].

Definition nan_service : @RAGService nan_scores :=
  {| reranker_model := None |}.

(** * Properties *)

(** ** Lists and strings *)

Lemma len_nonneg {A} (l : list A) : 0 <= len l.
Proof. unfold len. lia. Qed.

Lemma len_app {A} (l1 l2 : list A) : len (l1 ++ l2) = len l1 + len l2.
Proof. unfold len. rewrite length_app. lia. Qed.

Lemma len_cons {A} (x : A) (l : list A) : len (x :: l) = 1 + len l.
Proof. unfold len. simpl. lia. Qed.

Lemma truthy_false {A} (l : list A) : truthy l = false <-> l = [].
Proof. destruct l; simpl; split; congruence. Qed.

Lemma truthy_true {A} (l : list A) : truthy l = true <-> l <> [].
Proof. destruct l; simpl; split; congruence. Qed.

Lemma slice_to_nonneg {A} (k : Z) (l : list A) :
  0 <= k -> slice_to k l = take (Z.to_nat k) l.
Proof. intros Hk. unfold slice_to. destruct (Z.leb_spec 0 k); [done | lia]. Qed.

Lemma slice_last_suffix {A} (k : Z) (l : list A) :
  exists a, l = a ++ slice_last k l.
Proof.
  exists (take (Z.to_nat (len l - k)) l). unfold slice_last.
  by rewrite take_drop.
Qed.

Lemma slice_last_len {A} (k : Z) (l : list A) :
  0 <= k -> len (slice_last k l) <= k.
Proof.
  intros Hk. unfold slice_last, len. rewrite length_drop. unfold len. lia.
Qed.

Lemma infix_of_refl {A} (s : list A) : infix_of s s.
Proof. exists [], []. by rewrite app_nil_r. Qed.

Lemma infix_of_trans {A} (p q s : list A) :
  infix_of p q -> infix_of q s -> infix_of p s.
Proof.
  intros (a & b & ->) (a' & b' & ->). exists (a' ++ a), (b ++ b').
  by rewrite <- !app_assoc.
Qed.

Lemma infix_of_app_l {A} (p s t : list A) : infix_of p s -> infix_of p (s ++ t).
Proof.
  intros (a & b & ->). exists a, (b ++ t). by rewrite <- !app_assoc.
Qed.

Lemma infix_of_app_r {A} (p s t : list A) : infix_of p s -> infix_of p (t ++ s).
Proof.
  intros (a & b & ->). exists (t ++ a), b. by rewrite <- !app_assoc.
Qed.

Lemma infix_of_elem {A} (p s : list A) (x : A) :
  infix_of p s -> x ∈ p -> x ∈ s.
Proof. intros (a & b & ->) Hx. rewrite !elem_of_app. auto. Qed.

Lemma startswith_spec (p s : str) :
  startswith p s = true <-> exists b, s = p ++ b.
Proof.
  revert s. induction p as [|a p IH]; intros s; simpl.
  - split; [eauto | done].
  - destruct s as [|b s].
    + split; [done | intros (k & Hk); discriminate].
    + rewrite andb_true_iff, IH, N.eqb_eq. split.
      * intros (-> & k & ->). eauto.
      * intros (k & Hk). injection Hk as -> ->. eauto.
Qed.

Lemma contains_spec (s p : str) : contains s p = true <-> infix_of p s.
Proof.
  induction s as [|c s IH]; simpl.
  - rewrite orb_false_r, startswith_spec. split.
    + intros (b & Hb). exists [], b. done.
    + intros (a & b & Hab). destruct a; [|discriminate]. eauto.
  - rewrite orb_true_iff, IH, startswith_spec. split.
    + intros [(b & Hb) | (a & b & Hab)].
      * exists [], b. done.
      * exists (c :: a), b. by rewrite Hab.
    + intros (a & b & Hab). destruct a as [|c' a].
      * left. eauto.
      * right. injection Hab as -> ->. by exists a, b.
Qed.

Lemma contains_false_infix (s s' p : str) :
  contains s p = false -> infix_of s' s -> contains s' p = false.
Proof.
  intros Hs Hinf. destruct (contains s' p) eqn:E; [|done].
  apply contains_spec in E.
  assert (contains s p = true) as Hc
    by (apply contains_spec; eapply infix_of_trans; eauto).
  congruence.
Qed.

Lemma filter_all (p : char -> bool) (s : str) :
  Forall (fun c => p c = true) s -> List.filter p s = s.
Proof.
  induction 1 as [|c s Hc _ IH]; simpl; [done|]. by rewrite Hc, IH.
Qed.

Lemma filter_Forall (p : char -> bool) (s : str) :
  Forall (fun c => p c = true) (List.filter p s).
Proof.
  induction s as [|c s IH]; simpl; [constructor|].
  destruct (p c) eqn:E; [constructor|]; done.
Qed.

Lemma filter_keeps_Forall (P : char -> Prop) (p : char -> bool) (s : str) :
  Forall P s -> Forall P (List.filter p s).
Proof.
  induction 1 as [|c s Hc _ IH]; simpl; [constructor|].
  destruct (p c); [constructor|]; done.
Qed.

Section Strip_facts.
Context `{Unicode}.

Lemma lstrip_clean_head (s : str) : clean_head (lstrip s).
Proof.
  induction s as [|c s IH]; simpl; [done|].
  destruct (uni_isspace c) eqn:E; [done | simpl; done].
Qed.

Lemma lstrip_id (s : str) : clean_head s -> lstrip s = s.
Proof. destruct s as [|c s]; simpl; [done|]. by intros ->. Qed.

Lemma lstrip_suffix (s : str) : exists a, s = a ++ lstrip s.
Proof.
  induction s as [|c s (a & IH)]; simpl; [by exists []|].
  destruct (uni_isspace c); [|by exists []].
  exists (c :: a). simpl. by rewrite <- IH.
Qed.

Lemma lstrip_snoc (s : str) (c : char) :
  uni_isspace c = false -> lstrip (s ++ [c]) = lstrip s ++ [c].
Proof.
  intros Hc. induction s as [|d s IH]; simpl; [by rewrite Hc|].
  by destruct (uni_isspace d).
Qed.

Lemma rstrip_prefix (s : str) : exists b, s = rstrip s ++ b.
Proof.
  unfold rstrip. destruct (lstrip_suffix (rev s)) as (a & Ha).
  exists (rev a). rewrite <- rev_app_distr, <- Ha. by rewrite rev_involutive.
Qed.

Lemma rstrip_clean_head (s : str) : clean_head s -> clean_head (rstrip s).
Proof.
  destruct s as [|c s]; [done|]. simpl. intros Hc. unfold rstrip. simpl.
  rewrite lstrip_snoc by done. rewrite rev_app_distr. simpl. done.
Qed.

Lemma strip_infix (s : str) : infix_of (strip s) s.
Proof.
  unfold strip. destruct (lstrip_suffix s) as (a & Ha).
  destruct (rstrip_prefix (lstrip s)) as (b & Hb).
  exists a, b. by rewrite <- Hb.
Qed.

Lemma strip_clean_head (s : str) : clean_head (strip s).
Proof. apply rstrip_clean_head, lstrip_clean_head. Qed.

Lemma strip_clean_last (s : str) : clean_head (rev (strip s)).
Proof.
  unfold strip, rstrip. rewrite rev_involutive. apply lstrip_clean_head.
Qed.

Lemma strip_idempotent (s : str) : strip (strip s) = strip s.
Proof.
  unfold strip at 1. rewrite (lstrip_id (strip s)) by apply strip_clean_head.
  unfold rstrip. rewrite (lstrip_id (rev (strip s))) by apply strip_clean_last.
  apply rev_involutive.
Qed.

Lemma strip_Forall (P : char -> Prop) (s : str) :
  Forall P s -> Forall P (strip s).
Proof.
  rewrite !Forall_forall. intros Hs c Hc.
  apply Hs. eapply infix_of_elem; [apply strip_infix | done].
Qed.

End Strip_facts.

(** ** The sanitizer *)

Section Sanitizer_facts.
Context `{Unicode}.

Lemma squeeze_spaces_Forall (P : char -> Prop) (s : str) :
  Forall P s -> Forall P (squeeze_spaces s).
Proof.
  induction 1 as [|c t Hc Ht IH]; simpl; [constructor|].
  destruct (c =? SP)%N; [|by constructor].
  destruct t as [|c' t']; [by constructor|].
  destruct (c' =? SP)%N; [done | by constructor].
Qed.

Lemma squeeze_newlines_Forall (P : char -> Prop) (s : str) :
  Forall P s -> Forall P (squeeze_newlines s).
Proof.
  induction 1 as [|c t Hc Ht IH]; simpl; [constructor|].
  destruct (c =? NL)%N; [|by constructor].
  destruct t as [|c1 [|c2 t']]; try by constructor.
  destruct ((c1 =? NL)%N && (c2 =? NL)%N); [done | by constructor].
Qed.

Lemma contains_cons (c : char) (s p : str) :
  contains (c :: s) p = startswith p (c :: s) || contains s p.
Proof. done. Qed.

Lemma startswith_cons (a c : char) (p s : str) :
  startswith (a :: p) (c :: s) = (a =? c)%N && startswith p s.
Proof. done. Qed.

Lemma squeeze_spaces_other (c : char) (t : str) :
  (c =? SP)%N = false -> squeeze_spaces (c :: t) = c :: squeeze_spaces t.
Proof. intros E. simpl. by rewrite E. Qed.

(** The first substitution leaves no double space behind. *)
Lemma squeeze_spaces_no_pair (s : str) :
  contains (squeeze_spaces s) [SP; SP] = false.
Proof.
  induction s as [|c t IH]; [done|].
  destruct (c =? SP)%N eqn:Ec.
  - destruct t as [|c' t'].
    + replace (squeeze_spaces [c]) with [c] by (simpl; by rewrite Ec).
      rewrite contains_cons, startswith_cons. simpl.
      by rewrite andb_false_r.
    + destruct (c' =? SP)%N eqn:Ec'.
      * replace (squeeze_spaces (c :: c' :: t'))
          with (squeeze_spaces (c' :: t')); [exact IH|].
        simpl. by rewrite Ec, Ec'.
      * replace (squeeze_spaces (c :: c' :: t'))
          with (c :: squeeze_spaces (c' :: t'))
          by (simpl; by rewrite Ec, Ec').
        rewrite contains_cons, IH, orb_false_r.
        rewrite squeeze_spaces_other by done.
        rewrite !startswith_cons, (N.eqb_sym SP c'), Ec'.
        by rewrite andb_false_r.
  - rewrite squeeze_spaces_other by done.
    rewrite contains_cons, IH, orb_false_r, startswith_cons.
    by rewrite (N.eqb_sym SP c), Ec.
Qed.

Lemma squeeze_spaces_id (s : str) :
  contains s [SP; SP] = false -> squeeze_spaces s = s.
Proof.
  induction s as [|c t IH]; [done|].
  rewrite contains_cons. intros Hc.
  apply orb_false_iff in Hc as [Hst Hc]. specialize (IH Hc).
  destruct (c =? SP)%N eqn:Ec.
  - destruct t as [|c' t']; [simpl; by rewrite Ec|].
    rewrite !startswith_cons, (N.eqb_sym SP c), Ec in Hst.
    rewrite (N.eqb_sym SP c') in Hst.
    change (startswith [] t') with true in Hst.
    rewrite andb_true_r, andb_true_l in Hst.
    transitivity (c :: squeeze_spaces (c' :: t')); [|by rewrite IH].
    simpl. by rewrite Ec, Hst.
  - rewrite squeeze_spaces_other by done. by rewrite IH.
Qed.

Lemma startswith_NL2 (t : str) :
  startswith [NL; NL] t = true -> exists t', t = NL :: NL :: t'.
Proof.
  intros (b & ->)%startswith_spec. by exists b.
Qed.

Lemma squeeze_newlines_other (c : char) (t : str) :
  (c =? NL)%N = false -> squeeze_newlines (c :: t) = c :: squeeze_newlines t.
Proof. intros E. simpl. by rewrite E. Qed.

Lemma squeeze_newlines_drop (t : str) :
  squeeze_newlines (NL :: NL :: NL :: t) = squeeze_newlines (NL :: NL :: t).
Proof. done. Qed.

Lemma squeeze_newlines_keep (t : str) :
  startswith [NL; NL] t = false ->
  squeeze_newlines (NL :: t) = NL :: squeeze_newlines t.
Proof.
  intros Hst. destruct t as [|c1 [|c2 t']]; try done.
  rewrite !startswith_cons in Hst.
  change (startswith [] t') with true in Hst. rewrite andb_true_r in Hst.
  rewrite (N.eqb_sym NL c1), (N.eqb_sym NL c2) in Hst.
  change (squeeze_newlines (NL :: c1 :: c2 :: t'))
    with (if (c1 =? NL)%N && (c2 =? NL)%N
          then squeeze_newlines (c1 :: c2 :: t')
          else NL :: squeeze_newlines (c1 :: c2 :: t')).
  by rewrite Hst.
Qed.

(** The cases of the second substitution on a non-empty string. *)
Lemma squeeze_newlines_cases (c : char) (t : str) :
  (squeeze_newlines (c :: t) = c :: squeeze_newlines t
   /\ (c = NL -> startswith [NL; NL] t = false))
  \/ (c = NL /\ startswith [NL; NL] t = true
      /\ squeeze_newlines (c :: t) = squeeze_newlines t).
Proof.
  destruct (c =? NL)%N eqn:Ec.
  - apply N.eqb_eq in Ec as ->.
    destruct (startswith [NL; NL] t) eqn:Hst.
    + right. destruct (startswith_NL2 _ Hst) as (t' & ->). done.
    + left. split; [by apply squeeze_newlines_keep | done].
  - left. split; [by apply squeeze_newlines_other|].
    intros ->. done.
Qed.

(** The second substitution keeps the first character, and begins with two
    newlines only where its argument does. *)
Lemma squeeze_newlines_head (s : str) :
  hd_error (squeeze_newlines s) = hd_error s.
Proof.
  induction s as [|c t IH]; [done|].
  destruct (squeeze_newlines_cases c t) as [[-> _] | (-> & Hst & ->)];
    [done|].
  rewrite IH. by destruct (startswith_NL2 _ Hst) as (t' & ->).
Qed.

Lemma startswith_head (p s s' : str) (c : char) :
  hd_error s = hd_error s' -> startswith [c] s = startswith [c] s'.
Proof. destruct s, s'; simpl; congruence. Qed.

Lemma squeeze_newlines_head2 (s : str) :
  startswith [NL; NL] (squeeze_newlines s) = true ->
  startswith [NL; NL] s = true.
Proof.
  induction s as [|c t IH]; [done|].
  destruct (squeeze_newlines_cases c t) as [[-> _] | (-> & Hst & ->)].
  - rewrite !startswith_cons.
    by rewrite (startswith_head [] _ t NL (squeeze_newlines_head t)).
  - intros _. by destruct (startswith_NL2 _ Hst) as (t' & ->).
Qed.

Lemma squeeze_newlines_no_triple (s : str) :
  contains (squeeze_newlines s) [NL; NL; NL] = false.
Proof.
  induction s as [|c t IH]; [done|].
  destruct (squeeze_newlines_cases c t) as [[-> Hc] | (-> & Hst & ->)];
    [|done].
  rewrite contains_cons, IH, orb_false_r, startswith_cons.
  destruct (NL =? c)%N eqn:Ec; [|done].
  apply N.eqb_eq in Ec. symmetry in Ec. specialize (Hc Ec).
  destruct (startswith [NL; NL] (squeeze_newlines t)) eqn:E; [|done].
  apply squeeze_newlines_head2 in E. congruence.
Qed.

Lemma squeeze_newlines_id (s : str) :
  contains s [NL; NL; NL] = false -> squeeze_newlines s = s.
Proof.
  induction s as [|c t IH]; [done|].
  rewrite contains_cons, startswith_cons. intros Hc.
  apply orb_false_iff in Hc as [Hst Hc]. specialize (IH Hc).
  destruct (squeeze_newlines_cases c t) as [[-> _] | (-> & Hst' & _)].
  - by rewrite IH.
  - rewrite Hst' in Hst. done.
Qed.

(** The second substitution brings no two spaces together. *)
Lemma squeeze_newlines_no_pair (s : str) :
  contains s [SP; SP] = false ->
  contains (squeeze_newlines s) [SP; SP] = false.
Proof.
  induction s as [|c t IH]; [done|].
  rewrite contains_cons, startswith_cons. intros Hc.
  apply orb_false_iff in Hc as [Hst Hc]. specialize (IH Hc).
  destruct (squeeze_newlines_cases c t) as [[-> _] | (-> & _ & ->)];
    [|done].
  rewrite contains_cons, IH, orb_false_r, startswith_cons.
  by rewrite (startswith_head [] _ t SP (squeeze_newlines_head t)).
Qed.

(** The controls of U+0000..U+001F outside the deleted class. *)
Lemma ctrl_artifact_complement (c : char) :
  is_ctrl_artifact c = false -> (c < 32)%N ->
  c = 9%N \/ c = 10%N \/ c = 13%N.
Proof.
  unfold is_ctrl_artifact. intros Hc Hlt.
  repeat (apply orb_false_iff in Hc as [Hc ?]).
  apply N.leb_gt in Hc.
  repeat match goal with
         | H : (_ =? _)%N = false |- _ => apply N.eqb_neq in H
         | H : _ && _ = false |- _ => apply andb_false_iff in H as [H|H]
         | H : (_ <=? _)%N = false |- _ => apply N.leb_gt in H
         end; lia.
Qed.

Lemma clean_Forall (P : char -> Prop) (x : str) :
  Forall P x -> Forall P (clean_pdf_artifacts x).
Proof.
  intros Hx. unfold clean_pdf_artifacts.
  by apply strip_Forall, squeeze_newlines_Forall, squeeze_spaces_Forall,
    filter_keeps_Forall, filter_keeps_Forall.
Qed.

Lemma clean_no_ctrl_artifact (x : str) :
  Forall (fun c => negb (is_ctrl_artifact c) = true) (clean_pdf_artifacts x).
Proof.
  unfold clean_pdf_artifacts.
  apply strip_Forall, squeeze_newlines_Forall, squeeze_spaces_Forall,
    filter_keeps_Forall, filter_Forall.
Qed.

Lemma clean_allowed (x : str) :
  Forall (fun c => is_allowed c = true) (clean_pdf_artifacts x).
Proof.
  unfold clean_pdf_artifacts.
  apply strip_Forall, squeeze_newlines_Forall, squeeze_spaces_Forall,
    filter_Forall.
Qed.

Lemma clean_no_space_pair (x : str) :
  contains (clean_pdf_artifacts x) [SP; SP] = false.
Proof.
  unfold clean_pdf_artifacts.
  eapply contains_false_infix; [|apply strip_infix].
  apply squeeze_newlines_no_pair, squeeze_spaces_no_pair.
Qed.

Lemma clean_no_newline_triple (x : str) :
  contains (clean_pdf_artifacts x) [NL; NL; NL] = false.
Proof.
  unfold clean_pdf_artifacts.
  eapply contains_false_infix; [|apply strip_infix].
  apply squeeze_newlines_no_triple.
Qed.

(** C9. The sanitizer is idempotent: cleaning a cleaned string changes
    nothing. *)
Theorem clean_pdf_artifacts_idempotent (x : str) :
  clean_pdf_artifacts (clean_pdf_artifacts x) = clean_pdf_artifacts x.
Proof.
  set (y := clean_pdf_artifacts x).
  unfold clean_pdf_artifacts at 1.
  rewrite (filter_all _ y) by apply clean_no_ctrl_artifact.
  rewrite (filter_all _ y) by apply clean_allowed.
  rewrite (squeeze_spaces_id y) by apply clean_no_space_pair.
  rewrite (squeeze_newlines_id y) by apply clean_no_newline_triple.
  apply strip_idempotent.
Qed.

(** C8, as amended. The output of the sanitizer holds no character of
    U+0000..U+001F other than tab, newline and carriage return, no three
    newlines in a row and no two spaces in a row. *)
Theorem clean_pdf_artifacts_shape (x : str) :
  (forall c, c ∈ clean_pdf_artifacts x -> (c < 32)%N ->
             c = 9%N \/ c = 10%N \/ c = 13%N)
  /\ ~ infix_of [NL; NL; NL] (clean_pdf_artifacts x)
  /\ ~ infix_of [SP; SP] (clean_pdf_artifacts x).
Proof.
  split; [|split].
  - intros c Hc Hlt. apply ctrl_artifact_complement; [|done].
    pose proof (clean_no_ctrl_artifact x) as Hall.
    rewrite Forall_forall in Hall. specialize (Hall c Hc).
    by apply negb_true_iff in Hall.
  - intros Hinf%contains_spec. by rewrite clean_no_newline_triple in Hinf.
  - intros Hinf%contains_spec. by rewrite clean_no_space_pair in Hinf.
Qed.

End Sanitizer_facts.

(** C8, as stated, fails: a tab inside the text is a control character
    other than the newline, and the sanitizer keeps it. *)
Lemma clean_pdf_artifacts_keeps_tab :
  9%N ∈ clean_pdf_artifacts (pystr "a" ++ [9%N] ++ pystr "b")
  /\ is_control 9%N = true /\ 9%N <> NL.
Proof.
  split; [|split]; [|done|done].
  vm_compute. apply list_elem_of_In. simpl. auto.
Qed.

Example clean_sample :
  clean_pdf_artifacts (pystr "  a@   b" ++ [NL; NL; NL; NL] ++ pystr "c ")
  = pystr "a b" ++ [NL; NL] ++ pystr "c".
Proof. reflexivity. Qed.


(** ** The deduplication of candidates *)

Section Dedup_facts.
Context `{Binary64}.
Implicit Types (h : heap) (vr : list loc) (acc : list (str * loc)).

Lemma dict_has_spec (k : str) acc :
  dict_has k acc = true <-> k ∈ List.map fst acc.
Proof.
  unfold dict_has. rewrite existsb_exists, list_elem_of_In, in_map_iff.
  unfold str_eqb. split.
  - intros (e & He & Hk). apply bool_decide_eq_true in Hk. eauto.
  - intros (e & Hk & He). exists e. split; [done|].
    by apply bool_decide_eq_true.
Qed.

Lemma dedup_inv_step h vr acc (doc : loc) :
  dedup_inv h vr acc -> dedup_inv h (vr ++ [doc]) (dedup_step h acc doc).
Proof.
  intros (Hkeys & Hnd & Hsub & Hfirst & Hcov).
  assert (forall d, d ∈ List.map snd acc ->
            exists pre post, vr ++ [doc] = pre ++ d :: post
              /\ get_id_str (deref h d)
                   ∉ List.map (fun l => get_id_str (deref h l)) pre)
    as Hfirst'.
  { intros d Hd. destruct (Hfirst d Hd) as (pre & post & -> & Hpre).
    exists pre, (post ++ [doc]). split; [|done].
    by rewrite <- app_assoc. }
  unfold dedup_step.
  destruct (truthy (get_id_str (deref h doc))) eqn:Hid; simpl.
  - apply truthy_true in Hid.
    destruct (dict_has (get_id_str (deref h doc)) acc) eqn:Hhas; simpl.
    + apply dict_has_spec in Hhas.
      repeat split; try done.
      * by apply sublist_inserts_r.
      * intros d [Hd | ->%list_elem_of_singleton]%elem_of_app; auto.
    + assert (get_id_str (deref h doc) ∉ List.map fst acc) as Hnew.
      { intros Hin%dict_has_spec. congruence. }
      repeat split.
      * apply Forall_app. split; [done|]. by repeat constructor.
      * rewrite List.map_app. simpl. apply NoDup_app. repeat split; try done.
        -- intros k Hk ->%list_elem_of_singleton. done.
        -- apply NoDup_singleton.
      * rewrite List.map_app. simpl. by apply sublist_app.
      * rewrite List.map_app. simpl.
        intros d [Hd | ->%list_elem_of_singleton]%elem_of_app; [auto|].
        exists vr, []. split; [done|].
        intros Hin. apply list_elem_of_In, in_map_iff in Hin
          as (l & Hl & Hlin). apply list_elem_of_In in Hlin.
        apply Hnew. rewrite <- Hl. apply Hcov; [done|]. by rewrite Hl.
      * rewrite List.map_app. simpl.
        intros d [Hd | ->%list_elem_of_singleton]%elem_of_app Hne;
          apply elem_of_app; [left; auto | right; by constructor].
  - apply truthy_false in Hid.
    repeat split; try done.
    + by apply sublist_inserts_r.
    + intros d [Hd | ->%list_elem_of_singleton]%elem_of_app; auto. done.
Qed.

Lemma dedup_inv_fold h vr : dedup_inv h vr (fold_left (dedup_step h) vr []).
Proof.
  induction vr as [|doc vr IH] using rev_ind.
  - repeat split; simpl; try constructor.
    + intros d Hd. by apply elem_of_nil in Hd.
    + intros d Hd. by apply elem_of_nil in Hd.
  - rewrite fold_left_app. simpl. by apply dedup_inv_step.
Qed.

Lemma dedup_ids h vr :
  List.map (fun l => get_id_str (deref h l)) (dedup_candidates h vr)
  = List.map fst (fold_left (dedup_step h) vr []).
Proof.
  unfold dedup_candidates.
  destruct (dedup_inv_fold h vr) as (Hkeys & _).
  induction Hkeys as [|e acc [He _] _ IH]; simpl; [done|].
  by rewrite He, IH.
Qed.

(** The deduplicated candidates are distinct references. *)
Lemma dedup_candidates_NoDup h vr : NoDup (dedup_candidates h vr).
Proof.
  destruct (dedup_inv_fold h vr) as (_ & Hnd & _).
  rewrite <- dedup_ids in Hnd.
  revert Hnd. generalize (dedup_candidates h vr). intros l.
  induction l as [|a l IH]; simpl; [constructor|].
  intros [Ha Hl]%NoDup_cons. constructor; [|auto].
  intros Hin. apply Ha. apply list_elem_of_In, in_map_iff.
  exists a. split; [done|]. by apply list_elem_of_In.
Qed.

(** The deduplicated candidates are candidates, in their order of
    arrival. *)
Lemma dedup_candidates_sublist h vr : sublist (dedup_candidates h vr) vr.
Proof. by destruct (dedup_inv_fold h vr) as (_ & _ & Hsub & _). Qed.

(** The deduplication loop keeps the first document of each id. *)
Lemma dedup_candidates_first h vr :
  first_of_each_id h vr (dedup_candidates h vr).
Proof.
  pose proof (dedup_ids h vr) as Hids.
  destruct (dedup_inv_fold h vr) as (Hkeys & Hnd & Hsub & Hfirst & Hcov).
  fold (dedup_candidates h vr) in Hsub, Hfirst.
  split; [done|]. split; [by rewrite Hids|]. split.
  - intros d Hd. split; [|by apply Hfirst].
    unfold dedup_candidates in Hd.
    apply list_elem_of_In, in_map_iff in Hd as (e & <- & He).
    rewrite Forall_forall in Hkeys.
    apply list_elem_of_In in He. destruct (Hkeys e He) as [<- Hne]. done.
  - by rewrite Hids.
Qed.

(** C4. The deduplication of [advanced_search] keeps at most one document
    per stringified id, never one whose id is missing or stringifies to
    the empty string; it keeps the documents in their order of arrival;
    the document kept for an id is the first of the input with that id;
    every non-empty id of the input is kept; and the output is no longer
    than the input. *)
Theorem dedup_candidates_correct h vr :
  NoDup (List.map (fun l => get_id_str (deref h l)) (dedup_candidates h vr))
  /\ (forall d, d ∈ dedup_candidates h vr -> get_id_str (deref h d) <> [])
  /\ sublist (dedup_candidates h vr) vr
  /\ (forall d, d ∈ dedup_candidates h vr ->
        exists pre post, vr = pre ++ d :: post
          /\ get_id_str (deref h d)
               ∉ List.map (fun l => get_id_str (deref h l)) pre)
  /\ (forall d, d ∈ vr -> get_id_str (deref h d) <> [] ->
        get_id_str (deref h d)
          ∈ List.map (fun l => get_id_str (deref h l)) (dedup_candidates h vr))
  /\ (length (dedup_candidates h vr) <= length vr)%nat.
Proof.
  pose proof (dedup_ids h vr) as Hids.
  destruct (dedup_inv_fold h vr) as (Hkeys & Hnd & Hsub & Hfirst & Hcov).
  fold (dedup_candidates h vr) in Hsub, Hfirst.
  repeat split.
  - by rewrite Hids.
  - intros d Hd. unfold dedup_candidates in Hd.
    apply list_elem_of_In, in_map_iff in Hd as (e & <- & He).
    rewrite Forall_forall in Hkeys.
    apply list_elem_of_In in He. destruct (Hkeys e He) as [<- Hne]. done.
  - done.
  - done.
  - rewrite Hids. done.
  - by apply sublist_length.
Qed.

End Dedup_facts.

(** ** The reranker adapter *)

Section Reranker_facts.
Context `{Unicode} `{Binary64}.
Implicit Types (h : heap) (documents : list loc).

Lemma deref_insert h (l : loc) (d : Document) : deref (<[l := d]> h) l = d.
Proof. unfold deref. apply lookup_total_insert_eq. Qed.

Lemma deref_insert_ne h (l l' : loc) (d : Document) :
  l <> l' -> deref (<[l := d]> h) l' = deref h l'.
Proof. intros Hne. unfold deref. by apply lookup_total_insert_ne. Qed.

(** The scoring loop leaves the documents outside the list alone. *)
Lemma assign_scores_other (scores : list float) (k : nat) documents h (l : loc) :
  l ∉ documents -> deref (assign_scores scores k documents h) l = deref h l.
Proof.
  revert k h. induction documents as [|doc rest IH]; intros k h Hl; [done|].
  apply not_elem_of_cons in Hl as [Hne Hl]. simpl.
  rewrite IH by done. by apply deref_insert_ne.
Qed.

Lemma set_rerank_score_twice (x y : float) (d : Document) :
  set_rerank_score y (set_rerank_score x d) = set_rerank_score y d.
Proof. done. Qed.

(** The document at index [i] ends with the score at index [i], or [0.0]
    when there is none, unless the list holds the same dictionary again
    further on: the last write wins. *)
Lemma assign_scores_last (scores : list float) (k : nat) documents h
  (i : nat) (l : loc) :
  documents !! i = Some l ->
  (forall j, (i < j)%nat -> documents !! j <> Some l) ->
  deref (assign_scores scores k documents h) l
  = set_rerank_score (default f_zero (scores !! (k + i)%nat)) (deref h l).
Proof.
  revert k h i. induction documents as [|doc rest IH]; intros k h i Hi Hlast;
    [done|].
  simpl. destruct i as [|i]; simpl in Hi.
  - injection Hi as ->. rewrite assign_scores_other.
    + rewrite deref_insert, Nat.add_0_r. by destruct (scores !! k).
    + intros (j & Hj)%list_elem_of_lookup.
      by apply (Hlast (S j) ltac:(lia)).
  - rewrite (IH _ _ i); [|done|].
    + replace (S k + i)%nat with (k + S i)%nat by lia.
      destruct (decide (doc = l)) as [-> | Hne].
      * by rewrite deref_insert, set_rerank_score_twice.
      * by rewrite deref_insert_ne.
    + intros j Hj. apply (Hlast (S j)). lia.
Qed.

Lemma assign_scores_at (scores : list float) (k : nat) documents h
  (i : nat) (l : loc) :
  NoDup documents -> documents !! i = Some l ->
  deref (assign_scores scores k documents h) l
  = set_rerank_score (default f_zero (scores !! (k + i)%nat)) (deref h l).
Proof.
  intros Hnd Hi. apply assign_scores_last; [done|].
  intros j Hj Hl. pose proof (NoDup_lookup _ _ _ _ Hnd Hi Hl). lia.
Qed.

Lemma last_occurrence (documents : list loc) (l : loc) :
  l ∈ documents ->
  exists i, documents !! i = Some l
            /\ forall j, (i < j)%nat -> documents !! j <> Some l.
Proof.
  induction documents as [|doc rest IH]; intros Hl;
    [by apply elem_of_nil in Hl|].
  destruct (decide (l ∈ rest)) as [Hin | Hout].
  - destruct (IH Hin) as (i & Hi & Hlast). exists (S i). split; [done|].
    intros [|j] Hj; [lia|]. simpl. apply Hlast. lia.
  - apply elem_of_cons in Hl as [-> | Hl]; [|done].
    exists 0%nat. split; [done|].
    intros [|j] Hj; [lia|]. simpl. intros Hl. apply Hout.
    by eapply list_elem_of_lookup_2.
Qed.

Section Sorting.
Context {A : Type} (key : A -> float).

Lemma insert_desc_Permutation (x : A) (l : list A) :
  Permutation (insert_desc key x l) (x :: l).
Proof.
  induction l as [|y l IH]; simpl; [done|].
  destruct (f_lt (key x) (key y)); [|done].
  rewrite IH. apply perm_swap.
Qed.

Lemma sorted_desc_Permutation (l : list A) : Permutation (sorted_desc key l) l.
Proof.
  induction l as [|x l IH]; simpl; [done|].
  rewrite insert_desc_Permutation. by constructor.
Qed.

Lemma insert_desc_sublist (x : A) (l : list A) :
  sublist l (insert_desc key x l).
Proof.
  induction l as [|y l IH]; simpl; [apply sublist_nil_l|].
  destruct (f_lt (key x) (key y)).
  - by apply sublist_skip.
  - by apply sublist_cons.
Qed.

(** The inserted item comes before every item its key is not below. *)
Lemma insert_desc_before (x b : A) (l : list A) :
  b ∈ l -> f_lt (key x) (key b) = false ->
  sublist [x; b] (insert_desc key x l).
Proof.
  induction l as [|y l IH]; intros Hb Hxb; [by apply elem_of_nil in Hb|].
  simpl. destruct (f_lt (key x) (key y)) eqn:Hxy.
  - apply elem_of_cons in Hb as [-> | Hb]; [congruence|].
    apply sublist_cons. auto.
  - apply sublist_skip. by apply singleton_sublist_l.
Qed.

(** Stability: two items of which the first does not have the smaller
    key keep their order. *)
Lemma sorted_desc_stable (a b : A) (l : list A) :
  sublist [a; b] l -> f_lt (key a) (key b) = false ->
  sublist [a; b] (sorted_desc key l).
Proof.
  induction l as [|x l IH]; intros Hab Hkey.
  - by apply sublist_nil_r in Hab.
  - simpl. apply sublist_cons_r in Hab as [Hab | (l' & Heq & Hb)].
    + etrans; [by apply IH | apply insert_desc_sublist].
    + injection Heq as <- <-. apply insert_desc_before; [|done].
      apply singleton_sublist_l in Hb.
      by rewrite sorted_desc_Permutation.
  Qed.

Lemma insert_desc_sorted (S : list float) (x : A) (l : list A) :
  comparable S -> key x ∈ S -> Forall (fun y => key y ∈ S) l ->
  StronglySorted (desc key) l -> StronglySorted (desc key) (insert_desc key x l).
Proof.
  intros [Hasym Hneg] Hx Hl Hs.
  induction Hs as [|y l Hs IH Hy]; simpl.
  - by repeat constructor.
  - apply Forall_cons in Hl as [Hyin Hl].
    destruct (f_lt (key x) (key y)) eqn:Hxy.
    + constructor; [by apply IH|].
      rewrite (insert_desc_Permutation x l). constructor; [|done].
      unfold desc. by apply Hasym.
    + constructor; [by constructor|].
      constructor; [done|].
      rewrite Forall_forall in Hy, Hl |- *. intros z Hz.
      unfold desc. destruct (f_lt (key x) (key z)) eqn:Hxz; [|done].
      destruct (Hneg (key x) (key y) (key z)) as [Hc | Hc]; auto.
      * congruence.
      * specialize (Hy z Hz). unfold desc in Hy. congruence.
Qed.

Lemma sorted_desc_sorted (S : list float) (l : list A) :
  comparable S -> Forall (fun y => key y ∈ S) l ->
  StronglySorted (desc key) (sorted_desc key l).
Proof.
  intros Hcmp Hl. induction Hl as [|x l Hx Hl IH]; simpl; [constructor|].
  eapply insert_desc_sorted; eauto.
  by rewrite sorted_desc_Permutation.
Qed.

End Sorting.

Variable new_cross_encoder : str -> option CrossEncoder.
Variable dict_repr : Document -> str.
Variable settings : Settings.

Lemma assign_scores_keys (scores : list float) documents h :
  Forall (fun d => rerank_key (deref (assign_scores scores 0 documents h) d)
                     ∈ f_zero :: scores) documents.
Proof.
  apply Forall_forall. intros d Hd.
  apply last_occurrence in Hd as (i & Hi & Hlast).
  rewrite (assign_scores_last _ _ _ _ i) by done. unfold rerank_key. simpl.
  destruct (scores !! i) as [x|] eqn:Hx; simpl.
  - right. by eapply list_elem_of_lookup_2.
  - by left.
Qed.

Lemma assign_scores_written (scores : list float) documents h (d : loc) :
  d ∈ documents ->
  exists x,
    doc_rerank_score (deref (assign_scores scores 0 documents h) d) = Some x.
Proof.
  intros (i & Hi & Hlast)%last_occurrence.
  rewrite (assign_scores_last _ _ _ _ i) by done. by eexists.
Qed.

Lemma StronglySorted_weaken {A} (R R' : A -> A -> Prop) (l : list A) :
  (forall a b, R a b -> R' a b) -> StronglySorted R l -> StronglySorted R' l.
Proof.
  intros HR. induction 1 as [|x l Hs IH Hx]; constructor; [done|].
  eapply Forall_impl; [exact Hx|]. intros b. apply HR.
Qed.

(** The list that the sort of [rerank_documents] returns, for scores that
    [<] orders: a permutation of the documents, descending by the scores
    written, two documents of which the first has not the smaller score in
    their order of input. *)
Lemma sorted_by_score (scores : list float) documents h :
  comparable (f_zero :: scores) ->
  StronglySorted (by_score (assign_scores scores 0 documents h))
    (sorted_desc
       (fun d => rerank_key (deref (assign_scores scores 0 documents h) d))
       documents)
  /\ (forall a b, sublist [a; b] documents ->
        by_score (assign_scores scores 0 documents h) a b ->
        sublist [a; b]
          (sorted_desc
             (fun d => rerank_key
                         (deref (assign_scores scores 0 documents h) d))
             documents)).
Proof.
  intros Hcmp. split.
  - eapply StronglySorted_weaken;
      [|eapply sorted_desc_sorted; [exact Hcmp | apply assign_scores_keys]].
    intros a b Hab x y Ha Hb. unfold desc, rerank_key in Hab.
    by rewrite Ha, Hb in Hab.
  - intros a b Hsub Hab.
    apply (sorted_desc_stable
             (fun d => rerank_key
                         (deref (assign_scores scores 0 documents h) d)));
      [done|].
    assert (a ∈ documents) as Ha.
    { eapply elem_of_sublist; [|exact Hsub]. by left. }
    assert (b ∈ documents) as Hb.
    { eapply elem_of_sublist; [|exact Hsub]. right. by left. }
    destruct (assign_scores_written scores documents h a Ha) as (x & Hx).
    destruct (assign_scores_written scores documents h b Hb) as (y & Hy).
    unfold rerank_key. rewrite Hx, Hy. simpl. by apply Hab.
Qed.

(** C5, as amended. When the cross-encoder is loaded and returns a list of
    scores, [rerank_documents] writes into the document at each index the
    score at that index, or [0.0] when the list of scores is too short;
    the write stands unless the same dictionary comes again further on in
    the list, so it stands for every document of a list of distinct ones.
    It returns the first [top_k] of a permutation of the documents; when
    [<] orders the scores and [0.0], that is when none is a NaN, the
    permutation is descending by the scores written, and two documents of
    which the first has not the smaller score are in their order of
    input. *)
Theorem rerank_documents_scored (self : RAGService) (query : str) documents
  (top_k : Z) h (predict : CrossEncoder) (scores : list float) :
  documents <> [] ->
  (load_reranker_model new_cross_encoder settings self).1 = Some predict ->
  predict (List.map (fun doc => score_pair dict_repr query (deref h doc))
                    documents) = Some scores ->
  exists (h' : heap) (reranked : list loc),
    rerank_documents new_cross_encoder dict_repr settings self query
                     documents top_k h
    = (slice_to top_k reranked, h',
       (load_reranker_model new_cross_encoder settings self).2)
    /\ (forall i d, documents !! i = Some d ->
          (forall j, (i < j)%nat -> documents !! j <> Some d) ->
          doc_rerank_score (deref h' d) = Some (default f_zero (scores !! i)))
    /\ (NoDup documents ->
        forall i d, documents !! i = Some d ->
          doc_rerank_score (deref h' d) = Some (default f_zero (scores !! i)))
    /\ Permutation reranked documents
    /\ (comparable (f_zero :: scores) ->
        StronglySorted (by_score h') reranked
        /\ (forall a b, sublist [a; b] documents -> by_score h' a b ->
              sublist [a; b] reranked))
    /\ (0 <= top_k -> slice_to top_k reranked = take (Z.to_nat top_k) reranked).
Proof.
  intros Hne Hload Hpredict.
  exists (assign_scores scores 0 documents h).
  exists (sorted_desc
            (fun d => rerank_key (deref (assign_scores scores 0 documents h) d))
            documents).
  split; [|split; [|split; [|split; [|split]]]].
  - unfold rerank_documents.
    destruct documents as [|d0 rest]; [done|].
    destruct (load_reranker_model new_cross_encoder settings self)
      as [reranker self'] eqn:Hl.
    simpl in Hload. subst reranker.
    cbn [truthy negb List.map]. cbn [List.map] in Hpredict.
    by rewrite Hpredict.
  - intros i d Hi Hlast. by rewrite (assign_scores_last _ _ _ _ i).
  - intros Hnd i d Hi. by rewrite (assign_scores_at _ _ _ _ i).
  - apply sorted_desc_Permutation.
  - apply sorted_by_score.
  - apply slice_to_nonneg.
Qed.

(** C6. When no cross-encoder can be had, or its [predict] raises,
    [rerank_documents] returns the documents up to [top_k] in their order
    of input, and has changed none of them. *)
Theorem rerank_documents_pass_through (self : RAGService) (query : str)
  documents (top_k : Z) h :
  documents <> [] ->
  ((load_reranker_model new_cross_encoder settings self).1 = None
   \/ exists predict,
        (load_reranker_model new_cross_encoder settings self).1 = Some predict
        /\ predict (List.map (fun doc => score_pair dict_repr query
                                           (deref h doc)) documents) = None) ->
  rerank_documents new_cross_encoder dict_repr settings self query
                   documents top_k h
  = (slice_to top_k documents, h,
     (load_reranker_model new_cross_encoder settings self).2)
  /\ (0 <= top_k -> slice_to top_k documents = take (Z.to_nat top_k) documents).
Proof.
  intros Hne Hcase. split; [|apply slice_to_nonneg].
  unfold rerank_documents.
  destruct documents as [|d0 rest]; [done|].
  destruct (load_reranker_model new_cross_encoder settings self)
    as [reranker self'] eqn:Hl.
  cbn [truthy negb List.map]. simpl in Hcase.
  destruct Hcase as [-> | (predict & -> & Hp)]; [done|].
  cbn [List.map] in Hp. by rewrite Hp.
Qed.

(** C7. [advanced_search] first deduplicates by id: its candidates are
    the documents of [vector_results] that have an id, each the first one
    with its id, in their order of arrival.  It returns nothing when no
    candidate is left; with the reranker enabled it reranks the candidates
    with [rerank_k = min(top_k * 3, their number)] and returns the
    reranked list up to [top_k]; with the reranker disabled it returns the
    candidates up to [top_k], in their order of arrival and unchanged. *)
Theorem advanced_search_spec (self : RAGService) (bot_id query : str)
  (vector_results : list loc) (top_k : Z) h :
  exists candidates : list loc,
    first_of_each_id h vector_results candidates
    /\ (candidates = [] ->
        advanced_search new_cross_encoder dict_repr settings self bot_id
                        query vector_results top_k h = ([], h, self))
    /\ (candidates <> [] ->
        use_reranker settings = true ->
        exists reranked h' self',
          rerank_documents new_cross_encoder dict_repr settings self query
            candidates (Z.min (top_k * 3) (len candidates)) h
          = (reranked, h', self')
          /\ advanced_search new_cross_encoder dict_repr settings self bot_id
               query vector_results top_k h
             = (slice_to top_k reranked, h', self')
          /\ (0 <= top_k ->
              slice_to top_k reranked = take (Z.to_nat top_k) reranked))
    /\ (candidates <> [] ->
        use_reranker settings = false ->
        advanced_search new_cross_encoder dict_repr settings self bot_id
                        query vector_results top_k h
        = (slice_to top_k candidates, h, self)
        /\ (0 <= top_k ->
            slice_to top_k candidates = take (Z.to_nat top_k) candidates)).
Proof.
  exists (dedup_candidates h vector_results).
  split; [apply dedup_candidates_first|].
  unfold advanced_search. split; [|split].
  - by intros ->.
  - intros Hne%truthy_true Huse. rewrite Hne, Huse. simpl.
    destruct (rerank_documents _ _ _ _ _ _ _ _) as [[reranked h'] self'].
    exists reranked, h', self'. repeat split. apply slice_to_nonneg.
  - intros Hne%truthy_true Huse. rewrite Hne, Huse. simpl.
    split; [done | apply slice_to_nonneg].
Qed.

End Reranker_facts.

(** ** The adapter and the orchestrator on samples *)

Lemma rational_comparable (S : list Q) : comparable S.
Proof.
  assert (forall x y : Q, f_lt x y = true <-> (x < y)%Q) as Hlt.
  { intros x y. simpl. rewrite negb_true_iff. split.
    - intros Hle. apply Qnot_le_lt. intros Hyx.
      apply Qle_bool_iff in Hyx. congruence.
    - intros Hxy. destruct (Qle_bool y x) eqn:E; [|done].
      apply Qle_bool_iff in E. by apply Qlt_not_le in Hxy. }
  split.
  - intros x y _ _ Hxy%Hlt. destruct (f_lt y x) eqn:E; [|done].
    apply Hlt in E. exfalso. eapply Qlt_irrefl, Qlt_trans; eauto.
  - intros x y z _ _ _ Hxz%Hlt. destruct (Qlt_le_dec x y) as [Hxy | Hyx].
    + left. by apply Hlt.
    + right. apply Hlt. eapply Qle_lt_trans; eauto.
Qed.

Example rerank_sample :
  (rerank_documents (fun _ => Some sample_predict) sample_repr
     sample_settings fresh_service (pystr "q") [0; 1; 3]%nat 2 sample_heap).1.1
  = [1; 0]%nat.
Proof. vm_compute. reflexivity. Qed.

Lemma rerank_documents_scored_witness :
  exists (h' : heap) (reranked : list loc),
    rerank_documents (fun _ => Some sample_predict) sample_repr
      sample_settings fresh_service (pystr "q") [0; 1; 3]%nat 2 sample_heap
    = (slice_to 2 reranked, h',
       (load_reranker_model (fun _ => Some sample_predict) sample_settings
                            fresh_service).2)
    /\ (forall i d, [0; 1; 3]%nat !! i = Some d ->
          (forall j, (i < j)%nat -> [0; 1; 3]%nat !! j <> Some d) ->
          doc_rerank_score (deref h' d)
          = Some (default f_zero ([1%Q; 3%Q] !! i)))
    /\ (NoDup [0; 1; 3]%nat ->
        forall i d, [0; 1; 3]%nat !! i = Some d ->
          doc_rerank_score (deref h' d)
          = Some (default f_zero ([1%Q; 3%Q] !! i)))
    /\ Permutation reranked [0; 1; 3]%nat
    /\ (comparable (f_zero :: [1%Q; 3%Q]) ->
        StronglySorted (by_score h') reranked
        /\ (forall a b, sublist [a; b] [0; 1; 3]%nat -> by_score h' a b ->
              sublist [a; b] reranked))
    /\ (0 <= 2 -> slice_to 2 reranked = take (Z.to_nat 2) reranked).
Proof.
  apply (rerank_documents_scored (fun _ => Some sample_predict) sample_repr
           sample_settings fresh_service (pystr "q") [0; 1; 3]%nat 2
           sample_heap sample_predict [1%Q; 3%Q]).
  - discriminate.
  - reflexivity.
  - reflexivity.
Defined.

(** C5, as stated, fails. The scorer returns the scores 1, NaN and 2 for
    three documents: the documents come back in their order of input, the
    one with the score 1 before the one with the score 2.  No comparison
    with the NaN is true, so the sort finds nothing to move. *)
Lemma rerank_documents_unsorted_on_nan :
  (rerank_documents (H0 := nan_scores) (fun _ => Some nan_predict)
     (fun _ => pystr "{}") sample_settings nan_service (pystr "q")
     [0; 1; 2]%nat 3 nan_heap).1.1
  = [0; 1; 2]%nat
  /\ List.map
       (fun d =>
          doc_rerank_score
            (deref (rerank_documents (H0 := nan_scores)
                      (fun _ => Some nan_predict) (fun _ => pystr "{}")
                      sample_settings nan_service (pystr "q")
                      [0; 1; 2]%nat 3 nan_heap).1.2 d))
       [0; 1; 2]%nat
     = [Some (Some 1%Q); Some None; Some (Some 2%Q)]
  /\ f_lt (Binary64 := nan_scores) (Some 1%Q) (Some 2%Q) = true.
Proof. repeat split; vm_compute; reflexivity. Qed.

(** A list that holds one dictionary twice: the second score overwrites
    the first. *)
Example rerank_aliased_sample :
  doc_rerank_score
    (deref (rerank_documents (fun _ => Some sample_predict) sample_repr
              sample_settings fresh_service (pystr "q") [0; 0]%nat 2
              sample_heap).1.2 0%nat)
  = Some 3%Q.
Proof. vm_compute. reflexivity. Qed.

Lemma rerank_documents_pass_through_witness :
  rerank_documents (fun _ => Some failing_predict) sample_repr
    sample_settings fresh_service (pystr "q") [0; 1; 3]%nat 2 sample_heap
  = (slice_to 2 [0; 1; 3]%nat, sample_heap,
     (load_reranker_model (fun _ => Some failing_predict) sample_settings
                          fresh_service).2)
  /\ (0 <= 2 -> slice_to 2 [0; 1; 3]%nat = take (Z.to_nat 2) [0; 1; 3]%nat).
Proof.
  apply (rerank_documents_pass_through (fun _ => Some failing_predict)
           sample_repr sample_settings fresh_service (pystr "q")
           [0; 1; 3]%nat 2 sample_heap).
  - discriminate.
  - right. exists failing_predict. split; reflexivity.
Defined.

(** Scenario C of the specification: with the reranker disabled and
    [top_k = 1], the first of two candidates is returned. *)
Example advanced_search_scenario_c :
  (advanced_search (fun _ => None) sample_repr
     {| use_reranker := false; reranker_model_name := [] |} fresh_service
     (pystr "bot") (pystr "q") [0; 1]%nat 1 sample_heap).1.1
  = [0%nat].
Proof. vm_compute. reflexivity. Qed.

(** Scenario B of the specification: of two candidates with one id, the
    first is returned. *)
Example advanced_search_scenario_b :
  (advanced_search (fun _ => None) sample_repr
     {| use_reranker := false; reranker_model_name := [] |} fresh_service
     (pystr "bot") (pystr "q") [0; 2]%nat 30 sample_heap).1.1
  = [0%nat].
Proof. vm_compute. reflexivity. Qed.

(** ** The context assembler *)

Section Context_facts.
Context `{Unicode} `{Binary64}.

(** The first document that the filter loop meets is kept, whatever its
    text and its score. *)
Lemma filter_step_first (query_keywords : list str) (main_header : option str)
  (max_rerank : float) (doc : Document) :
  filter_step query_keywords main_header max_rerank [] doc = [doc].
Proof.
  unfold filter_step. cbn [truthy negb]. by rewrite andb_false_r.
Qed.

(** The filter loop only appends. *)
Lemma filter_step_extends (query_keywords : list str)
  (main_header : option str) (max_rerank : float)
  (filtered_docs : list Document) (doc : Document) :
  exists tl,
    filter_step query_keywords main_header max_rerank filtered_docs doc
    = filtered_docs ++ tl.
Proof.
  unfold filter_step.
  match goal with |- context [if ?b then filtered_docs ++ [doc] else _] =>
    destruct b end.
  - by exists [doc].
  - exists []. by rewrite app_nil_r.
Qed.

Lemma filter_loop_extends (query_keywords : list str)
  (main_header : option str) (max_rerank : float)
  (documents filtered_docs : list Document) :
  exists tl,
    fold_left (filter_step query_keywords main_header max_rerank)
              documents filtered_docs
    = filtered_docs ++ tl.
Proof.
  revert filtered_docs.
  induction documents as [|doc rest IH]; intros filtered_docs; simpl.
  - exists []. by rewrite app_nil_r.
  - destruct (filter_step_extends query_keywords main_header max_rerank
                filtered_docs doc) as (tl & ->).
    destruct (IH (filtered_docs ++ tl)) as (tl' & ->).
    exists (tl ++ tl'). by rewrite app_assoc.
Qed.

Lemma recall_loop_extends (min_docs : Z)
  (documents filtered_docs : list Document) :
  exists tl, recall_loop min_docs documents filtered_docs = filtered_docs ++ tl.
Proof.
  revert filtered_docs.
  induction documents as [|doc rest IH]; intros filtered_docs; simpl.
  - exists []. by rewrite app_nil_r.
  - destruct (existsb (doc_eqb doc) filtered_docs); [apply IH|].
    destruct (len (filtered_docs ++ [doc]) >=? min_docs); [by exists [doc]|].
    destruct (IH (filtered_docs ++ [doc])) as (tl & ->).
    exists ([doc] ++ tl). by rewrite app_assoc.
Qed.

Lemma recall_net_extends (min_docs : Z)
  (documents filtered_docs : list Document) :
  exists tl, recall_net min_docs documents filtered_docs = filtered_docs ++ tl.
Proof.
  unfold recall_net. destruct (len filtered_docs <? min_docs).
  - apply recall_loop_extends.
  - exists []. by rewrite app_nil_r.
Qed.

(** C10. On a non-empty list of documents the filter pass keeps the first
    document, whatever the keywords, the main header and the scores; so
    what it keeps is not empty, what the recall step makes of it is not
    empty either, and the total fallback leaves it as it is: its branch is
    never taken. *)
Theorem filter_pass_keeps_first (query : str) (first : Document)
  (rest : list Document) (min_docs : Z) :
  (forall query_keywords main_header max_rerank,
     filter_step query_keywords main_header max_rerank [] first = [first])
  /\ (exists tl, filter_pass query (first :: rest) = first :: tl)
  /\ filter_pass query (first :: rest) <> []
  /\ recall_net min_docs (first :: rest) (filter_pass query (first :: rest))
     <> []
  /\ total_fallback min_docs (first :: rest)
       (recall_net min_docs (first :: rest)
                   (filter_pass query (first :: rest)))
     = recall_net min_docs (first :: rest) (filter_pass query (first :: rest)).
Proof.
  assert (exists tl, filter_pass query (first :: rest) = first :: tl)
    as (tl & Hf).
  { unfold filter_pass. cbn [fold_left]. rewrite filter_step_first.
    apply (filter_loop_extends _ _ _ rest [first]). }
  destruct (recall_net_extends min_docs (first :: rest)
              (filter_pass query (first :: rest))) as (tl' & Hr).
  rewrite Hf in Hr.
  split; [intros; apply filter_step_first|].
  split; [by exists tl|].
  split; [by rewrite Hf|].
  split; [by rewrite Hf, Hr|].
  unfold total_fallback. by rewrite Hf, Hr.
Qed.

End Context_facts.

Section Pack_facts.
Context `{Unicode} `{Binary64}.

Lemma join_last (sep : str) (l : list str) (x : str) :
  exists pre, join sep (l ++ [x]) = pre ++ x.
Proof.
  induction l as [|y l (pre & IH)]; [by exists []|].
  destruct l as [|z l].
  - exists (y ++ sep). simpl. by rewrite <- app_assoc.
  - exists (y ++ sep ++ pre).
    change (join sep ((y :: z :: l) ++ [x]))
      with (y ++ sep ++ join sep ((z :: l) ++ [x])).
    rewrite IH. by rewrite <- !app_assoc.
Qed.

(** What the packing loop adds: whole stripped texts of documents, and
    then at most one text cut to the remaining budget, with the marker. *)
Lemma pack_parts (max_chars max_docs : Z) (docs : list Document)
  (context_parts : list str) (total_chars : Z) :
  exists whole cut,
    pack max_chars max_docs docs context_parts total_chars
    = context_parts ++ whole ++ cut
    /\ Forall (fun t => exists d, d ∈ docs /\ t = strip (get_text d)) whole
    /\ (cut = []
        \/ exists d, d ∈ docs
             /\ cut = [slice_to (max_chars - total_chars
                                 - fold_right (fun t n => len t + n) 0 whole)
                                (strip (get_text d)) ++ ellipsis]).
Proof.
  revert context_parts total_chars.
  induction docs as [|doc rest IH]; intros context_parts total_chars.
  - exists [], []. rewrite !app_nil_r. split; [done|]. split; [constructor|].
    by left.
  - assert (forall parts total,
              exists whole cut,
                pack max_chars max_docs rest parts total
                = parts ++ whole ++ cut
                /\ Forall (fun t => exists d, d ∈ doc :: rest
                                      /\ t = strip (get_text d)) whole
                /\ (cut = []
                    \/ exists d, d ∈ doc :: rest
                         /\ cut = [slice_to
                                     (max_chars - total
                                      - fold_right (fun t n => len t + n) 0 whole)
                                     (strip (get_text d)) ++ ellipsis]))
      as IH'.
    { intros parts total.
      destruct (IH parts total) as (whole & cut & Heq & Hw & Hc).
      exists whole, cut. split; [done|]. split.
      - eapply Forall_impl; [done|]. intros t (d & Hd & Ht).
        exists d. split; [by right | done].
      - destruct Hc as [Hc | (d & Hd & Hc)]; [by left|]. right.
        exists d. split; [by right | done]. }
    assert (exists whole cut,
              context_parts = context_parts ++ whole ++ cut
              /\ Forall (fun t => exists d, d ∈ doc :: rest
                                    /\ t = strip (get_text d)) whole
              /\ (cut = []
                  \/ exists d, d ∈ doc :: rest
                       /\ cut = [slice_to
                                   (max_chars - total_chars
                                    - fold_right (fun t n => len t + n) 0 whole)
                                   (strip (get_text d)) ++ ellipsis]))
      as Hstop.
    { exists [], []. rewrite !app_nil_r. split; [done|].
      split; [constructor | by left]. }
    simpl.
    destruct (negb (truthy (strip (get_text doc)))); [apply IH'|].
    destruct (_ && _); [apply IH'|].
    destruct (len context_parts >=? max_docs); [exact Hstop|].
    destruct (total_chars + len (strip (get_text doc)) >? max_chars).
    + destruct (max_chars - total_chars >? 500); [|exact Hstop].
      exists [], [slice_to (max_chars - total_chars) (strip (get_text doc))
                  ++ ellipsis].
      split; [done|]. split; [constructor|]. right.
      exists doc. split; [by left|]. simpl. by rewrite Z.sub_0_r.
    + destruct (IH' (context_parts ++ [strip (get_text doc)])
                    (total_chars + len (strip (get_text doc))))
        as (whole & cut & Heq & Hw & Hc).
      exists (strip (get_text doc) :: whole), cut.
      split; [by rewrite Heq, <- app_assoc|]. split.
      * constructor; [|done]. exists doc. split; [by left | done].
      * destruct Hc as [Hc | (d & Hd & Hc)]; [by left|]. right.
        exists d. split; [done|]. rewrite Hc. simpl.
        do 3 f_equal. lia.
Qed.

(** A context is the join of whole texts and at most one cut text, which
    comes last: a context in which a text was cut ends with the marker. *)
Lemma build_context_marker (query : str) (documents : list Document)
  (max_chars max_docs min_docs : Z) :
  documents <> [] ->
  exists whole cut,
    build_context query documents max_chars max_docs min_docs
    = join [NL; NL] (whole ++ cut)
    /\ Forall (fun t => exists d, d ∈ select_docs query documents min_docs
                          /\ t = strip (get_text d)) whole
    /\ (cut = []
        \/ exists pre,
             build_context query documents max_chars max_docs min_docs
             = pre ++ ellipsis).
Proof.
  intros Hne%truthy_true. unfold build_context. rewrite Hne.
  cbn [negb].
  destruct (pack_parts max_chars max_docs
              (select_docs query documents min_docs) [] 0)
    as (whole & cut & Heq & Hw & Hc).
  rewrite Heq, app_nil_l.
  exists whole, cut. split; [done|]. split; [done|].
  destruct Hc as [Hc | (d & _ & ->)]; [by left|]. right.
  match goal with |- context [whole ++ [?x ++ ellipsis]] =>
    destruct (join_last [NL; NL] whole (x ++ ellipsis)) as (pre & Hpre);
    exists (pre ++ x)
  end.
  etrans; [exact Hpre|]. by rewrite <- app_assoc.
Qed.

End Pack_facts.

(** C1, on a sample. Two documents of five characters each fit a budget of
    ten characters one by one, and the context that joins them with a blank
    line has twelve. *)
Theorem build_context_over_budget :
  build_context (pystr "zzzz") [sample_doc 1 "aaaa."; sample_doc 2 "bbbb."]
                10 30 8
  = pystr "aaaa." ++ [NL; NL] ++ pystr "bbbb."
  /\ len (build_context (pystr "zzzz")
                        [sample_doc 1 "aaaa."; sample_doc 2 "bbbb."]
                        10 30 8) = 12.
Proof. split; vm_compute; reflexivity. Qed.

(** A document of 700 characters under a budget of 600 is cut to 600
    characters and the marker comes on top: 603 characters. *)
Example build_context_truncation_over_budget :
  build_context []
    [{| doc_id := None; doc_text := Some (repeat 97%N 700);
        doc_score := None; doc_rerank_score := None; doc_file_name := None;
        doc_chunk_index := None |}] 600 30 8
  = repeat 97%N 600 ++ ellipsis.
Proof. vm_compute. reflexivity. Qed.

(** Scenario D of the specification: a budget of ten characters and one
    document of twenty give the empty context. *)
Example build_context_scenario_d :
  build_context [] [sample_doc 1 "aaaaaaaaaaaaaaaaaaa."] 10 30 8 = [].
Proof. vm_compute. reflexivity. Qed.

(** ** The chunker *)

Section Chunker_facts.
Context `{Unicode}.
Variable sent_tokenize : str -> option (list str).
Variables chunk_size overlap : Z.

Lemma join_snoc (sep : str) (l : list str) (u : str) :
  l <> [] -> join sep (l ++ [u]) = join sep l ++ sep ++ u.
Proof.
  induction l as [|x l IH]; [done|]. intros _.
  destruct l as [|y l]; [done|].
  change (join sep ((x :: y :: l) ++ [u]))
    with (x ++ sep ++ join sep ((y :: l) ++ [u])).
  rewrite IH by done.
  change (join sep (x :: y :: l)) with (x ++ sep ++ join sep (y :: l)).
  by rewrite <- !app_assoc.
Qed.

Lemma join_infix (sep : str) (l : list str) (x : str) :
  x ∈ l -> infix_of x (join sep l).
Proof.
  induction l as [|y l IH]; intros Hx; [by apply elem_of_nil in Hx|].
  destruct l as [|z l].
  - apply list_elem_of_singleton in Hx as ->. apply infix_of_refl.
  - change (join sep (y :: z :: l)) with (y ++ sep ++ join sep (z :: l)).
    apply elem_of_cons in Hx as [-> | Hx].
    + apply infix_of_app_l, infix_of_refl.
    + apply infix_of_app_r, infix_of_app_r. auto.
Qed.

Lemma weight_snoc (l : list str) (u : str) :
  weight (l ++ [u]) = weight l + len u + 1.
Proof. induction l as [|x l IH]; simpl; lia. Qed.

Lemma weight_nonneg (l : list str) : 0 <= weight l.
Proof.
  induction l as [|x l IH]; simpl; [lia|]. pose proof (len_nonneg x). lia.
Qed.

Lemma weight_join (l : list str) :
  l <> [] -> len (join [SP] l) + 1 = weight l.
Proof.
  induction l as [|x l IH]; [done|]. intros _.
  destruct l as [|y l]; [simpl; lia|].
  change (join [SP] (x :: y :: l)) with (x ++ [SP] ++ join [SP] (y :: l)).
  rewrite !len_app.
  change (weight (x :: y :: l)) with (len x + 1 + weight (y :: l)).
  rewrite <- IH by done. change (len [SP]) with 1. lia.
Qed.

Lemma chunk_text_infix (st : chunker) (x : str) :
  x ∈ current_chunk st -> infix_of x (chunk_text st).
Proof.
  intros Hx. unfold chunk_text.
  destruct (_ && _); [apply infix_of_app_r, infix_of_app_r|];
    by apply join_infix.
Qed.

(** The branch that puts the header on top of a chunk is never taken: the
    header is always in the open chunk. *)
Lemma chunk_text_join (st : chunker) :
  last_header st = []
  \/ infix_of (last_header st) (join [SP] (current_chunk st)) ->
  chunk_text st = join [SP] (current_chunk st).
Proof.
  intros Hh. unfold chunk_text.
  destruct (truthy (last_header st)) eqn:Ht; [|done].
  destruct Hh as [Hh | Hh]; [by rewrite Hh in Ht|].
  apply contains_spec in Hh. by rewrite Hh.
Qed.

Lemma sent_with_context_infix (heading : bool) (header sent : str) :
  (heading = true -> header = sent) ->
  header = [] \/ infix_of header (sent_with_context heading header sent).
Proof.
  intros Hh. unfold sent_with_context. destruct heading; simpl.
  - right. rewrite Hh by done. apply infix_of_refl.
  - destruct header as [|c header]; [by left|]. right. simpl.
    apply (infix_of_app_l _ (c :: header)), infix_of_refl.
Qed.

Lemma sent_with_context_suffix (heading : bool) (header sent : str) :
  exists pre, sent_with_context heading header sent = pre ++ sent.
Proof.
  unfold sent_with_context. destruct (_ && _).
  - exists (header ++ pystr ": "). by rewrite <- app_assoc.
  - by exists [].
Qed.

Lemma good_chunk_mono (U U' : list str) (c : str) :
  (forall u, u ∈ U -> u ∈ U') ->
  good_chunk chunk_size overlap U c -> good_chunk chunk_size overlap U' c.
Proof.
  intros Hsub [Hc | (u & Hu & Hc)]; [by left|]. right. exists u. auto.
Qed.

Lemma size_inv_mono (U U' : list str) (st : chunker) :
  (forall u, u ∈ U -> u ∈ U') ->
  size_inv chunk_size overlap U st -> size_inv chunk_size overlap U' st.
Proof.
  intros Hsub (Hch & Hw & Hcur & Hhdr). repeat split; try done.
  - eapply Forall_impl; [done|]. intros c. by apply good_chunk_mono.
  - intros Hne. eapply good_chunk_mono; eauto.
Qed.

Lemma add_sentence_header (heading : bool) (st : chunker) (sent : str) :
  last_header (add_sentence chunk_size overlap heading st sent)
  = last_header st.
Proof.
  unfold add_sentence. destruct (_ || _); [done|]. simpl.
  by destruct (_ && _).
Qed.

Lemma add_sentence_size (U : list str) (heading : bool) (st : chunker)
  (sent : str) :
  (heading = true -> last_header st = strip sent) ->
  size_inv chunk_size overlap U st ->
  size_inv chunk_size overlap
    (U ++ sentence_unit heading (last_header st) sent)
    (add_sentence chunk_size overlap heading st sent).
Proof.
  intros Hhead Hinv. unfold add_sentence, sentence_unit.
  destruct (negb (truthy (strip sent)) || (len (strip sent) <? 3)) eqn:Eskip;
    [by rewrite app_nil_r|].
  set (swc := sent_with_context heading (last_header st) (strip sent)).
  assert (last_header st = [] \/ infix_of (last_header st) swc) as Hswc
    by (by apply sent_with_context_infix).
  apply (size_inv_mono U (U ++ [swc])) in Hinv;
    [|intros u Hu; apply elem_of_app; by left].
  assert (swc ∈ U ++ [swc]) as Hin
    by (apply elem_of_app; right; by constructor).
  revert Hinv Hin. generalize (U ++ [swc]). clear U. intros U Hinv Hin.
  destruct Hinv as (Hch & Hw & Hcur & Hhdr).
  set (new_len := current_chunk_len st + len swc + 1).
  pose proof (len_nonneg swc) as Hswc0.
  destruct ((new_len >? chunk_size) && truthy (current_chunk st)) eqn:Eflush.
  - apply andb_true_iff in Eflush as [Hover Hne]. apply truthy_true in Hne.
    rewrite (chunk_text_join st) by auto.
    assert (forall buf,
              (buf = []
               \/ (0 < overlap
                   /\ exists tail, buf = [tail] /\ len tail <= overlap
                        /\ len tail + 1 <= weight (current_chunk st))) ->
              size_inv chunk_size overlap U
                {| chunks := chunks st ++ [join [SP] (current_chunk st)];
                   current_chunk := buf ++ [swc];
                   current_chunk_len := new_len;
                   last_header := last_header st |}) as Hbuf.
    { intros buf Hb. repeat split; cbn [chunks current_chunk
        current_chunk_len last_header].
      - apply Forall_app. split; [done|]. constructor; [auto | constructor].
      - rewrite weight_snoc. unfold new_len.
        pose proof (weight_nonneg (current_chunk st)).
        destruct Hb as [-> | (_ & tail & -> & _ & Ht)]; simpl in *; lia.
      - intros _. right. exists swc. split; [done|].
        destruct Hb as [-> | (Hov & tail & -> & Ht & _)]; [by left|].
        right. split; [done|]. by exists tail.
      - intros _. destruct Hswc as [Hs | Hs]; [by left|]. right.
        eapply infix_of_trans; [exact Hs|].
        apply join_infix, elem_of_app. right. by constructor. }
    destruct ((overlap >? 0) && negb heading) eqn:Eov.
    + apply Hbuf. right. apply andb_true_iff in Eov as [Hov _].
      apply Z.gtb_lt in Hov. split; [done|].
      exists (slice_last overlap (join [SP] (current_chunk st))).
      split; [done|]. split; [apply slice_last_len; lia|].
      rewrite <- weight_join by done.
      destruct (slice_last_suffix overlap (join [SP] (current_chunk st)))
        as (a & Ha).
      rewrite Ha at 2. rewrite len_app. pose proof (len_nonneg a). lia.
    + apply Hbuf. by left.
  - repeat split; cbn [chunks current_chunk current_chunk_len last_header].
    + done.
    + rewrite weight_snoc. unfold new_len. lia.
    + intros _. destruct (current_chunk st) as [|x l] eqn:Ecur.
      * right. exists swc. split; [done|]. by left.
      * left. rewrite andb_true_r in Eflush.
        rewrite Z.gtb_ltb in Eflush. apply Z.ltb_ge in Eflush.
        pose proof (weight_join ((x :: l) ++ [swc])) as Hj.
        rewrite weight_snoc in Hj. unfold new_len in Eflush.
        specialize (Hj ltac:(done)). lia.
    + intros _. destruct Hswc as [Hs | Hs]; [by left|]. right.
      eapply infix_of_trans; [exact Hs|].
      apply join_infix, elem_of_app. right. by constructor.
Qed.

Lemma add_sentence_cover (U : list str) (heading : bool) (st : chunker)
  (sent : str) :
  cover_inv U st ->
  cover_inv (U ++ sentence_unit heading (last_header st) sent)
            (add_sentence chunk_size overlap heading st sent).
Proof.
  intros Hinv. unfold add_sentence, sentence_unit.
  destruct (negb (truthy (strip sent)) || (len (strip sent) <? 3));
    [by rewrite app_nil_r|].
  set (swc := sent_with_context heading (last_header st) (strip sent)).
  intros u [Hu | ->%list_elem_of_singleton]%elem_of_app.
  - destruct (Hinv u Hu) as [(c & Hc & Huc) | Hcur].
    + left. exists c. split; [|done].
      destruct (_ && _); cbn [chunks]; [|done].
      apply elem_of_app. by left.
    + destruct (_ && _); cbn [chunks current_chunk].
      * left. exists (chunk_text st). split.
        -- apply elem_of_app. right. by constructor.
        -- by apply chunk_text_infix.
      * right. apply elem_of_app. by left.
  - right. cbn [current_chunk]. apply elem_of_app. right. by constructor.
Qed.

Lemma add_sentences_header (heading : bool) (sents : list str)
  (st : chunker) :
  last_header (fold_left (add_sentence chunk_size overlap heading) sents st)
  = last_header st.
Proof.
  revert st. induction sents as [|s sents IH]; intros st; simpl; [done|].
  by rewrite IH, add_sentence_header.
Qed.

Lemma add_sentences_size (heading : bool) (sents : list str) (U : list str)
  (st : chunker) :
  (heading = true -> Forall (fun s => last_header st = strip s) sents) ->
  size_inv chunk_size overlap U st ->
  size_inv chunk_size overlap
    (U ++ flat_map (sentence_unit heading (last_header st)) sents)
    (fold_left (add_sentence chunk_size overlap heading) sents st).
Proof.
  revert U st. induction sents as [|s sents IH]; intros U st Hhead Hinv.
  - simpl. by rewrite app_nil_r.
  - simpl. rewrite app_assoc.
    rewrite <- (add_sentence_header heading st s) at 2.
    apply IH.
    + intros Hh. specialize (Hhead Hh). apply Forall_cons in Hhead as [_ Hs].
      by rewrite add_sentence_header.
    + apply add_sentence_size; [|done].
      intros Hh. specialize (Hhead Hh). by apply Forall_cons in Hhead as [? _].
Qed.

Lemma add_sentences_cover (heading : bool) (sents : list str) (U : list str)
  (st : chunker) :
  cover_inv U st ->
  cover_inv (U ++ flat_map (sentence_unit heading (last_header st)) sents)
            (fold_left (add_sentence chunk_size overlap heading) sents st).
Proof.
  revert U st. induction sents as [|s sents IH]; intros U st Hinv.
  - simpl. by rewrite app_nil_r.
  - simpl. rewrite app_assoc.
    rewrite <- (add_sentence_header heading st s) at 2.
    by apply IH, add_sentence_cover.
Qed.

Lemma add_line_header (st : chunker) (raw_line : str) :
  last_header (add_line sent_tokenize chunk_size overlap st raw_line)
  = line_header (last_header st) raw_line.
Proof.
  unfold add_line, line_header.
  destruct (truthy (strip raw_line)); [|done]. simpl.
  rewrite add_sentences_header.
  destruct (is_heading (strip raw_line)); [done|]. simpl.
  by destruct (truthy (current_chunk st)).
Qed.

Lemma add_line_size (U : list str) (st : chunker) (raw_line : str) :
  size_inv chunk_size overlap U st ->
  size_inv chunk_size overlap
    (U ++ line_units sent_tokenize (last_header st) raw_line)
    (add_line sent_tokenize chunk_size overlap st raw_line).
Proof.
  intros Hinv. unfold add_line, line_units.
  destruct (truthy (strip raw_line)); simpl; [|by rewrite app_nil_r].
  set (line := strip raw_line).
  destruct (is_heading line) eqn:Ehead; cbn [andb].
  - set (st1 := if truthy (current_chunk st) then _ else st).
    assert (size_inv chunk_size overlap U st1 /\ current_chunk st1 = []
            /\ last_header st1 = last_header st) as (Hinv1 & Hcur1 & _).
    { subst st1. destruct (truthy (current_chunk st)) eqn:Hne.
      - apply truthy_true in Hne. split; [|done].
        destruct Hinv as (Hch & Hw & Hcur & Hhdr).
        repeat split; cbn [chunks current_chunk current_chunk_len]; try done.
        apply Forall_app. split; [done|].
        constructor; [|constructor].
        rewrite chunk_text_join by auto. auto.
      - apply truthy_false in Hne. done. }
    match goal with |- size_inv _ _ _ (fold_left _ _ ?s) => set (st2 := s) end.
    change line with (last_header st2) at 1.
    apply add_sentences_size.
    + intros _. constructor; [|constructor]. simpl. subst line.
      by rewrite strip_idempotent.
    + destruct Hinv1 as (Hch & Hw & _ & _).
      subst st2. repeat split;
        cbn [chunks current_chunk current_chunk_len last_header]; try done;
        by rewrite Hcur1.
  - by apply add_sentences_size.
Qed.

Lemma add_line_cover (U : list str) (st : chunker) (raw_line : str) :
  cover_inv U st ->
  cover_inv (U ++ line_units sent_tokenize (last_header st) raw_line)
            (add_line sent_tokenize chunk_size overlap st raw_line).
Proof.
  intros Hinv. unfold add_line, line_units.
  destruct (truthy (strip raw_line)); simpl; [|by rewrite app_nil_r].
  set (line := strip raw_line).
  destruct (is_heading line) eqn:Ehead; cbn [andb].
  - match goal with |- cover_inv _ (fold_left _ _ ?s) => set (st2 := s) end.
    change line with (last_header st2) at 1.
    apply add_sentences_cover. subst st2.
    intros u Hu. destruct (Hinv u Hu) as [(c & Hc & Huc) | Hcur].
    + left. exists c. split; [|done].
      destruct (truthy (current_chunk st)); cbn [chunks]; [|done].
      apply elem_of_app. by left.
    + destruct (truthy (current_chunk st)); cbn [chunks current_chunk].
      * left. exists (chunk_text st). split.
        -- apply elem_of_app. right. by constructor.
        -- by apply chunk_text_infix.
      * by right.
  - by apply add_sentences_cover.
Qed.

Lemma add_lines_size (lines : list str) (U : list str) (st : chunker) :
  size_inv chunk_size overlap U st ->
  size_inv chunk_size overlap
    (U ++ units_from sent_tokenize (last_header st) lines)
    (fold_left (add_line sent_tokenize chunk_size overlap) lines st).
Proof.
  revert U st. induction lines as [|l lines IH]; intros U st Hinv; simpl.
  - by rewrite app_nil_r.
  - rewrite app_assoc, <- add_line_header. by apply IH, add_line_size.
Qed.

Lemma add_lines_cover (lines : list str) (U : list str) (st : chunker) :
  cover_inv U st ->
  cover_inv (U ++ units_from sent_tokenize (last_header st) lines)
            (fold_left (add_line sent_tokenize chunk_size overlap) lines st).
Proof.
  revert U st. induction lines as [|l lines IH]; intros U st Hinv; simpl.
  - by rewrite app_nil_r.
  - rewrite app_assoc, <- add_line_header. by apply IH, add_line_cover.
Qed.

Lemma final_chunks_size (U : list str) (st : chunker) :
  size_inv chunk_size overlap U st ->
  Forall (good_chunk chunk_size overlap U) (final_chunks st).
Proof.
  intros (Hch & _ & Hcur & Hhdr). unfold final_chunks.
  destruct (truthy (current_chunk st)) eqn:Hne; [|done].
  apply truthy_true in Hne. apply Forall_app. split; [done|].
  constructor; [|constructor]. rewrite chunk_text_join by auto. auto.
Qed.

Lemma final_chunks_cover (U : list str) (st : chunker) (u : str) :
  cover_inv U st -> u ∈ U ->
  exists c, c ∈ final_chunks st /\ infix_of u c.
Proof.
  intros Hinv Hu. unfold final_chunks.
  destruct (Hinv u Hu) as [(c & Hc & Huc) | Hcur].
  - exists c. split; [|done].
    destruct (truthy (current_chunk st)); [|done]. apply elem_of_app. by left.
  - destruct (current_chunk st) as [|x l] eqn:Ecur;
      [by apply elem_of_nil in Hcur|].
    cbn [truthy]. exists (chunk_text st). split.
    + apply elem_of_app. right. by constructor.
    + apply chunk_text_infix. by rewrite Ecur.
Qed.

Lemma size_inv_init : size_inv chunk_size overlap [] chunker_init.
Proof. repeat split; simpl; try done. Qed.

Lemma cover_inv_init : cover_inv [] chunker_init.
Proof. intros u Hu. by apply elem_of_nil in Hu. Qed.

(** The chunks of a sanitized text longer than [chunk_size], before the
    fallback to the whole text. *)
Lemma loop_chunks_size (text : str) :
  Forall (good_chunk chunk_size overlap
            (units_from sent_tokenize [] (split_lines text)))
    (final_chunks (fold_left (add_line sent_tokenize chunk_size overlap)
                             (split_lines text) chunker_init)).
Proof.
  apply final_chunks_size.
  apply (add_lines_size (split_lines text) [] chunker_init), size_inv_init.
Qed.

Lemma loop_chunks_cover (text u : str) :
  u ∈ units_from sent_tokenize [] (split_lines text) ->
  exists c,
    c ∈ final_chunks (fold_left (add_line sent_tokenize chunk_size overlap)
                                (split_lines text) chunker_init)
    /\ infix_of u c.
Proof.
  apply final_chunks_cover.
  apply (add_lines_cover (split_lines text) [] chunker_init), cover_inv_init.
Qed.

(** Every sentence of three characters or more of a non-blank line gives
    a unit, which ends with the sentence. *)
Lemma units_from_sentence (lines : list str) (header raw_line sent : str) :
  raw_line ∈ lines -> strip raw_line <> [] ->
  sent ∈ sentences_of sent_tokenize (is_heading (strip raw_line))
                      (strip raw_line) ->
  3 <= len (strip sent) ->
  exists u pre, u ∈ units_from sent_tokenize header lines
                /\ u = pre ++ strip sent.
Proof.
  intros Hraw Hne Hsent Hlen. revert header.
  induction lines as [|l lines IH]; intros header;
    [by apply elem_of_nil in Hraw|].
  apply elem_of_cons in Hraw as [<- | Hraw].
  - set (heading := is_heading (strip raw_line)) in *.
    set (hdr := if heading then strip raw_line else header).
    destruct (sent_with_context_suffix heading hdr (strip sent)) as (pre & Hp).
    exists (sent_with_context heading hdr (strip sent)), pre.
    split; [|done]. simpl. apply elem_of_app. left.
    unfold line_units. apply truthy_true in Hne. rewrite Hne. simpl.
    apply list_elem_of_In, in_flat_map. exists sent.
    split; [by apply list_elem_of_In|].
    unfold sentence_unit.
    assert (truthy (strip sent) = true) as ->.
    { apply truthy_true. intros E. rewrite E in Hlen. simpl in Hlen.
      unfold len in Hlen. simpl in Hlen. lia. }
    apply Z.ltb_ge in Hlen. rewrite Hlen. simpl. by left.
  - destruct (IH Hraw (line_header header l)) as (u & pre & Hu & Hp).
    exists u, pre. split; [|done]. simpl. apply elem_of_app. by right.
Qed.

(** C2, as amended. Every chunk that [split_text_semantic] returns has at
    most [chunk_size] characters, or is one sentence unit (a heading, or a
    sentence of three characters or more behind its header and a colon),
    alone or behind an overlap tail of at most [overlap] characters and a
    space; or the text has no sentence unit at all and it is the whole
    sanitized text. *)
Theorem split_text_semantic_size (text : str) :
  Forall (fun c =>
            good_chunk chunk_size overlap (sentence_units sent_tokenize text) c
            \/ (sentence_units sent_tokenize text = []
                /\ c = clean_pdf_artifacts text))
         (split_text_semantic sent_tokenize chunk_size overlap text).
Proof.
  unfold split_text_semantic, sentence_units.
  set (t := clean_pdf_artifacts text).
  destruct (truthy t) eqn:Ht; simpl.
  - destruct (len t <=? chunk_size) eqn:Hlen.
    + constructor; [|constructor]. left. left. by apply Z.leb_le.
    + destruct (truthy (final_chunks _)) eqn:Hch.
      * eapply Forall_impl; [apply loop_chunks_size|]. intros c Hc. by left.
      * constructor; [|constructor]. right. split; [|done].
        apply truthy_false in Hch.
        destruct (units_from sent_tokenize [] (split_lines t)) as [|u us] eqn:E;
          [done|].
        destruct (loop_chunks_cover t u) as (c & Hc & _).
        { rewrite E. by left. }
        rewrite Hch in Hc. by apply elem_of_nil in Hc.
  - constructor.
Qed.

(** Every unit is a sentence of three characters or more of a non-blank
    line, alone or behind a header, a colon and a space. *)
Lemma units_from_origin (lines : list str) (header u : str) :
  u ∈ units_from sent_tokenize header lines ->
  exists raw_line sent pre,
    raw_line ∈ lines /\ strip raw_line <> []
    /\ sent ∈ sentences_of sent_tokenize (is_heading (strip raw_line))
                           (strip raw_line)
    /\ 3 <= len (strip sent)
    /\ (pre = [] \/ exists hdr, hdr <> [] /\ pre = hdr ++ pystr ": ")
    /\ u = pre ++ strip sent.
Proof.
  revert header. induction lines as [|l lines IH]; intros header Hu;
    [by apply elem_of_nil in Hu|].
  simpl in Hu. apply elem_of_app in Hu as [Hu | Hu].
  - unfold line_units in Hu.
    destruct (truthy (strip l)) eqn:Hl; simpl in Hu;
      [|by apply elem_of_nil in Hu].
    apply list_elem_of_In, in_flat_map in Hu as (sent & Hsent & Hu).
    unfold sentence_unit in Hu.
    destruct (negb (truthy (strip sent)) || (len (strip sent) <? 3))
      eqn:Eskip; [done|].
    destruct Hu as [<- | []].
    apply orb_false_iff in Eskip as [_ Hlen]. apply Z.ltb_ge in Hlen.
    set (hdr := if is_heading (strip l) then strip l else header).
    assert (exists pre,
              (pre = [] \/ exists h, h <> [] /\ pre = h ++ pystr ": ")
              /\ sent_with_context (is_heading (strip l)) hdr (strip sent)
                 = pre ++ strip sent) as (pre & Hpre & Hu).
    { unfold sent_with_context.
      destruct (negb (is_heading (strip l)) && truthy hdr) eqn:E.
      - exists (hdr ++ pystr ": "). split; [|by rewrite <- app_assoc].
        right. exists hdr. split; [|done].
        apply andb_true_iff in E as [_ E]. by apply truthy_true.
      - exists []. split; [by left | done]. }
    exists l, sent, pre. split; [by left|].
    split; [by apply truthy_true|]. split; [by apply list_elem_of_In|].
    done.
  - destruct (IH _ Hu) as (raw_line & sent & pre & Hraw & Hrest).
    exists raw_line, sent, pre. split; [by right | done].
Qed.

Lemma parts_length (parts : list (list str * list str)) (cs : list str) :
  cs = List.map chunk_of parts -> length cs = length parts.
Proof. intros ->. apply length_map. Qed.

Lemma tails_ok_grow (cs : list str) (c : str)
  (parts : list (list str * list str)) :
  tails_ok overlap cs parts -> tails_ok overlap (cs ++ [c]) parts.
Proof.
  intros Ht i p Hi.
  destruct (Ht i p Hi) as [Hp | (Hov & j & prev & -> & Hprev & Hp)];
    [by left|].
  right. split; [done|]. exists j, prev. split; [done|]. split; [|done].
  by apply lookup_app_l_Some.
Qed.

Lemma tails_ok_init (cs : list str) (parts : list (list str * list str))
  (cur : list str * list str) :
  tails_ok overlap cs (parts ++ [cur]) -> tails_ok overlap cs parts.
Proof. intros Ht i p Hi. apply Ht. by apply lookup_app_l_Some. Qed.

(** A chunk that is opened behind the chunks [cs ++ [c]]: without a tail,
    or with the tail of [c]. *)
Lemma tails_ok_open (cs : list str) (c : str)
  (parts : list (list str * list str)) (cur next : list str * list str) :
  length cs = length parts ->
  tails_ok overlap cs (parts ++ [cur]) ->
  next.1 = [] \/ (0 < overlap /\ next.1 = [slice_last overlap c]) ->
  tails_ok overlap (cs ++ [c]) ((parts ++ [cur]) ++ [next]).
Proof.
  intros Hlen Ht Hnext i p Hi.
  apply lookup_app_Some in Hi as [Hi | [Hi1 Hi2]].
  - by apply (tails_ok_grow cs c (parts ++ [cur])).
  - apply list_lookup_singleton_Some in Hi2 as [Hi2 Hp]. subst p.
    destruct Hnext as [Hn | [Hov Hn]]; [by left|]. right. split; [done|].
    exists (length parts), c. rewrite length_app in Hi1, Hi2. simpl in *.
    split; [lia|]. split; [|done].
    rewrite <- Hlen. by rewrite list_lookup_middle.
Qed.

(** The open chunk with one unit more. *)
Lemma tails_ok_extend (cs : list str) (parts : list (list str * list str))
  (cur next : list str * list str) :
  next.1 = cur.1 ->
  tails_ok overlap cs (parts ++ [cur]) ->
  tails_ok overlap cs (parts ++ [next]).
Proof.
  intros Hn Ht i p Hi.
  apply lookup_app_Some in Hi as [Hi | [Hi1 Hi2]].
  - apply Ht. by apply lookup_app_l_Some.
  - apply list_lookup_singleton_Some in Hi2 as [Hi2 Hp]. subst p.
    destruct (Ht i cur) as [E | (Hov & j & prev & Hi & Hprev & E)];
      unfold str in *.
    + rewrite lookup_app_r by done. by apply list_lookup_singleton_Some.
    + left. congruence.
    + right. split; [done|]. exists j, prev. split; [done|].
      split; [done | congruence].
Qed.

(** Closing the open chunk keeps the invariant. *)
Lemma parts_inv_close (U : list str) (st st' : chunker) (buf : list str) :
  size_inv chunk_size overlap U st ->
  parts_inv overlap U st ->
  current_chunk st <> [] ->
  chunks st' = chunks st ++ [chunk_text st] ->
  current_chunk st' = buf ->
  buf = [] \/ (0 < overlap /\ buf = [slice_last overlap (chunk_text st)]) ->
  exists parts,
    chunks st' = List.map chunk_of parts
    /\ concat (List.map snd parts) = U
    /\ Forall (fun p => p.2 <> []) parts
    /\ tails_ok overlap (chunks st') (parts ++ [(buf, [])]).
Proof.
  intros (_ & _ & _ & Hhdr) (parts & cur & Hch & Hcur & HU & Hne & Ht & Hc)
    Hopen Hch' Hcur' Hbuf.
  assert (chunk_text st = chunk_of cur) as Htext.
  { rewrite chunk_text_join by auto. unfold chunk_of. by rewrite Hcur. }
  assert (cur.2 <> []) as Hcur2.
  { intros E. apply Hopen. rewrite Hcur, E, (Hc E). done. }
  exists (parts ++ [cur]). split; [|split; [|split]].
  - rewrite Hch', Hch, Htext, map_app. done.
  - rewrite map_app, concat_app. simpl. by rewrite app_nil_r.
  - apply Forall_app. split; [done|]. by constructor.
  - rewrite Hch'. apply tails_ok_open; [by apply parts_length | done | done].
Qed.

Lemma add_sentence_parts (U : list str) (heading : bool) (st : chunker)
  (sent : str) :
  size_inv chunk_size overlap U st ->
  parts_inv overlap U st ->
  parts_inv overlap (U ++ sentence_unit heading (last_header st) sent)
            (add_sentence chunk_size overlap heading st sent).
Proof.
  intros Hsize Hparts. unfold add_sentence, sentence_unit.
  destruct (negb (truthy (strip sent)) || (len (strip sent) <? 3));
    [by rewrite app_nil_r|].
  set (swc := sent_with_context heading (last_header st) (strip sent)).
  destruct ((current_chunk_len st + len swc + 1 >? chunk_size)
            && truthy (current_chunk st)) eqn:Eflush.
  - apply andb_true_iff in Eflush as [_ Hopen%truthy_true].
    set (buf := if (overlap >? 0) && negb heading
                then [slice_last overlap (chunk_text st)] else []).
    destruct (parts_inv_close U st
                {| chunks := chunks st ++ [chunk_text st];
                   current_chunk := buf;
                   current_chunk_len :=
                     fold_right (fun x n => len x + n) 0 buf;
                   last_header := last_header st |} buf)
      as (parts & Hch & HU & Hne & Ht); try done.
    { subst buf. destruct (overlap >? 0) eqn:Hov; simpl; [|by left].
      destruct heading; simpl; [by left|]. right.
      split; [by apply Z.gtb_lt | done]. }
    cbn [chunks current_chunk] in *.
    exists parts, (buf, [swc]). cbn [chunks current_chunk fst snd].
    split; [done|]. split; [done|]. split; [by rewrite HU|].
    split; [done|]. split; [|done].
    by apply (tails_ok_extend _ parts (buf, [])).
  - destruct Hparts as (parts & cur & Hch & Hcur & HU & Hne & Ht & Hc).
    exists parts, (cur.1, cur.2 ++ [swc]). cbn [chunks current_chunk fst snd].
    split; [done|]. split; [by rewrite Hcur, app_assoc|].
    split; [by rewrite app_assoc, HU|]. split; [done|]. split.
    + by apply (tails_ok_extend _ parts cur).
    + intros E. by apply app_eq_nil in E as [_ ?].
Qed.

Lemma add_sentences_parts (heading : bool) (sents : list str) (U : list str)
  (st : chunker) :
  (heading = true -> Forall (fun s => last_header st = strip s) sents) ->
  size_inv chunk_size overlap U st ->
  parts_inv overlap U st ->
  parts_inv overlap
    (U ++ flat_map (sentence_unit heading (last_header st)) sents)
    (fold_left (add_sentence chunk_size overlap heading) sents st).
Proof.
  revert U st. induction sents as [|s sents IH]; intros U st Hhead Hsize Hp.
  - simpl. by rewrite app_nil_r.
  - simpl. rewrite app_assoc.
    rewrite <- (add_sentence_header heading st s) at 2.
    apply IH.
    + intros Hh. specialize (Hhead Hh). apply Forall_cons in Hhead as [_ Hs].
      by rewrite add_sentence_header.
    + apply add_sentence_size; [|done].
      intros Hh. specialize (Hhead Hh). by apply Forall_cons in Hhead as [? _].
    + by apply add_sentence_parts.
Qed.

Lemma add_line_parts (U : list str) (st : chunker) (raw_line : str) :
  size_inv chunk_size overlap U st ->
  parts_inv overlap U st ->
  parts_inv overlap
    (U ++ line_units sent_tokenize (last_header st) raw_line)
    (add_line sent_tokenize chunk_size overlap st raw_line).
Proof.
  intros Hsize Hparts. unfold add_line, line_units.
  destruct (truthy (strip raw_line)); simpl; [|by rewrite app_nil_r].
  set (line := strip raw_line).
  destruct (is_heading line) eqn:Ehead; cbn [andb];
    [|by apply add_sentences_parts].
  match goal with |- parts_inv _ _ (fold_left _ _ ?s) => set (st2 := s) end.
  change line with (last_header st2) at 1.
  assert (size_inv chunk_size overlap U st2 /\ parts_inv overlap U st2)
    as [Hsize2 Hparts2].
  { subst st2. destruct (truthy (current_chunk st)) eqn:Hopen.
    - apply truthy_true in Hopen.
      destruct (parts_inv_close U st
                  {| chunks := chunks st ++ [chunk_text st];
                     current_chunk := [];
                     current_chunk_len := 0;
                     last_header := line |} [])
        as (parts & Hch & HU & Hne & Ht); try done; [by left|].
      split.
      + destruct Hsize as (Hchunks & Hw & Hcur & Hhdr).
        repeat split; cbn [chunks current_chunk current_chunk_len];
          try done.
        apply Forall_app. split; [done|]. constructor; [|constructor].
        rewrite chunk_text_join by auto. auto.
      + exists parts, ([], []). cbn [chunks current_chunk fst snd] in *.
        split; [done|]. split; [done|]. split; [by rewrite app_nil_r|].
        done.
    - apply truthy_false in Hopen. split.
      + destruct Hsize as (Hchunks & Hw & _ & _).
        repeat split; cbn [chunks current_chunk current_chunk_len];
          try done; by rewrite Hopen.
      + destruct Hparts as (parts & cur & Hparts).
        exists parts, cur. exact Hparts. }
  apply add_sentences_parts; [|done|done].
  intros _. constructor; [|constructor]. simpl. subst line.
  by rewrite strip_idempotent.
Qed.

Lemma add_lines_parts (lines : list str) (U : list str) (st : chunker) :
  size_inv chunk_size overlap U st ->
  parts_inv overlap U st ->
  parts_inv overlap
    (U ++ units_from sent_tokenize (last_header st) lines)
    (fold_left (add_line sent_tokenize chunk_size overlap) lines st).
Proof.
  revert U st. induction lines as [|l lines IH]; intros U st Hsize Hp; simpl.
  - by rewrite app_nil_r.
  - rewrite app_assoc, <- add_line_header.
    apply IH; [by apply add_line_size | by apply add_line_parts].
Qed.

Lemma parts_inv_init : parts_inv overlap [] chunker_init.
Proof.
  exists [], ([], []). repeat split; simpl; try done.
  intros i p Hi. apply list_lookup_singleton_Some in Hi as [_ <-]. by left.
Qed.

(** The chunks of the loop are the units of the text, cut into chunks. *)
Lemma loop_chunks_parts (text : str) :
  exists parts,
    final_chunks (fold_left (add_line sent_tokenize chunk_size overlap)
                            (split_lines text) chunker_init)
    = List.map chunk_of parts
    /\ concat (List.map snd parts)
       = units_from sent_tokenize [] (split_lines text)
    /\ Forall (fun p => p.2 <> []) parts
    /\ tails_ok overlap
         (final_chunks (fold_left (add_line sent_tokenize chunk_size overlap)
                                  (split_lines text) chunker_init))
         parts.
Proof.
  pose proof (add_lines_size (split_lines text) [] chunker_init size_inv_init)
    as Hsize.
  pose proof (add_lines_parts (split_lines text) [] chunker_init
                size_inv_init parts_inv_init) as Hparts.
  simpl in Hsize, Hparts.
  set (st := fold_left _ _ _) in *.
  set (U := units_from _ _ _) in *.
  unfold final_chunks. destruct (truthy (current_chunk st)) eqn:Hopen.
  - apply truthy_true in Hopen.
    destruct (parts_inv_close U st
                {| chunks := chunks st ++ [chunk_text st];
                   current_chunk := [];
                   current_chunk_len := 0;
                   last_header := last_header st |} [])
      as (parts & Hch & HU & Hne & Ht); try done; [by left|].
    cbn [chunks] in *. exists parts. split; [done|]. split; [done|].
    split; [done|]. by apply tails_ok_init in Ht.
  - apply truthy_false in Hopen.
    destruct Hparts as (parts & cur & Hch & Hcur & HU & Hne & Ht & Hc).
    rewrite Hopen in Hcur. symmetry in Hcur.
    apply app_eq_nil in Hcur as [_ Hcur2].
    rewrite Hcur2, app_nil_r in HU.
    exists parts. split; [done|]. split; [done|]. split; [done|].
    by apply tails_ok_init in Ht.
Qed.

(** C3, as amended. An empty sanitized text gives no chunk; one that is
    not empty and has at most [chunk_size] characters is its own single
    chunk.  Of a longer one, the sentence units are the sentences of three
    characters or more of the non-blank lines (the line itself when it is
    a heading or the tokenizer fails), stripped, alone or behind the
    header in force.  Without any unit the text comes back whole, as one
    chunk.  With units, every chunk is an overlap tail, none or the last
    [overlap] characters of the chunk before it, and one unit or more
    behind it, joined by spaces; and the units of the chunks, one chunk
    after the other, are the units of the text, in their order and once
    each: the tails are the only duplication, and no unit is lost.  So
    every sentence of three characters or more of a non-blank line stands
    in some chunk. *)
Theorem split_text_semantic_keeps_sentences (text : str) :
  (clean_pdf_artifacts text = [] ->
   split_text_semantic sent_tokenize chunk_size overlap text = [])
  /\ (clean_pdf_artifacts text <> [] ->
      len (clean_pdf_artifacts text) <= chunk_size ->
      split_text_semantic sent_tokenize chunk_size overlap text
      = [clean_pdf_artifacts text])
  /\ (clean_pdf_artifacts text <> [] ->
      chunk_size < len (clean_pdf_artifacts text) ->
      sentence_units sent_tokenize text = [] ->
      split_text_semantic sent_tokenize chunk_size overlap text
      = [clean_pdf_artifacts text])
  /\ (chunk_size < len (clean_pdf_artifacts text) ->
      sentence_units sent_tokenize text <> [] ->
      exists parts,
        split_text_semantic sent_tokenize chunk_size overlap text
        = List.map chunk_of parts
        /\ concat (List.map snd parts) = sentence_units sent_tokenize text
        /\ Forall (fun p => p.2 <> []) parts
        /\ tails_ok overlap
             (split_text_semantic sent_tokenize chunk_size overlap text)
             parts)
  /\ (forall raw_line sent,
        raw_line ∈ split_lines (clean_pdf_artifacts text) ->
        strip raw_line <> [] ->
        sent ∈ sentences_of sent_tokenize (is_heading (strip raw_line))
                            (strip raw_line) ->
        3 <= len (strip sent) ->
        exists u pre,
          u ∈ sentence_units sent_tokenize text
          /\ u = pre ++ strip sent
          /\ (chunk_size < len (clean_pdf_artifacts text) ->
              exists c,
                c ∈ split_text_semantic sent_tokenize chunk_size overlap text
                /\ infix_of u c))
  /\ (forall u, u ∈ sentence_units sent_tokenize text ->
        exists raw_line sent pre,
          raw_line ∈ split_lines (clean_pdf_artifacts text)
          /\ strip raw_line <> []
          /\ sent ∈ sentences_of sent_tokenize (is_heading (strip raw_line))
                                 (strip raw_line)
          /\ 3 <= len (strip sent)
          /\ (pre = [] \/ exists hdr, hdr <> [] /\ pre = hdr ++ pystr ": ")
          /\ u = pre ++ strip sent).
Proof.
  unfold split_text_semantic, sentence_units.
  set (t := clean_pdf_artifacts text).
  destruct (loop_chunks_parts t) as (parts & Hch & HU & Hne & Ht).
  split; [|split; [|split; [|split; [|split]]]].
  - by intros ->.
  - intros Hopen%truthy_true Hshort%Z.leb_le. by rewrite Hopen, Hshort.
  - intros Hopen%truthy_true Hlong%Z.leb_gt HnoU. rewrite Hopen, Hlong.
    simpl. rewrite HnoU in HU.
    destruct parts as [|p parts]; [by rewrite Hch|].
    apply Forall_cons in Hne as [Hp _]. simpl in HU.
    by apply app_eq_nil in HU as [? _].
  - intros Hlong%Z.leb_gt HU'.
    assert (truthy t = true) as ->.
    { apply truthy_true. intros E. apply HU'. by rewrite E. }
    rewrite Hlong. simpl.
    assert (truthy (final_chunks
              (fold_left (add_line sent_tokenize chunk_size overlap)
                         (split_lines t) chunker_init)) = true) as ->.
    { apply truthy_true. rewrite Hch. intros E.
      apply map_eq_nil in E. subst parts. by apply HU'. }
    by exists parts.
  - intros raw_line sent Hraw Hline Hsent Hlen.
    destruct (units_from_sentence (split_lines t) [] raw_line sent)
      as (u & pre & Hu & Hpre); try done.
    exists u, pre. split; [done|]. split; [done|].
    intros Hlong%Z.leb_gt.
    assert (truthy t = true) as ->.
    { apply truthy_true. intros E. rewrite E in Hraw. simpl in Hraw.
      apply list_elem_of_singleton in Hraw as ->. by apply Hline. }
    rewrite Hlong. simpl.
    destruct (loop_chunks_cover t u Hu) as (c & Hc & Huc).
    assert (truthy (final_chunks
              (fold_left (add_line sent_tokenize chunk_size overlap)
                         (split_lines t) chunker_init)) = true) as ->.
    { apply truthy_true. intros E. rewrite E in Hc.
      by apply elem_of_nil in Hc. }
    by exists c.
  - intros u Hu. by apply units_from_origin in Hu.
Qed.

End Chunker_facts.

(** ** The chunker on samples *)

(** C2, as stated, fails. With [chunk_size = 10] and [overlap = 8], three
    lines of six characters give a second chunk of thirteen characters,
    the overlap tail of the first chunk and then the second line, though
    no sentence of the text has more than six. *)
Lemma split_text_semantic_exceeds_chunk_size :
  split_text_semantic one_sentence 10 8
    (pystr "aaaaaa" ++ [NL] ++ pystr "bbbbbb" ++ [NL] ++ pystr "cccccc")
  = [pystr "aaaaaa"; pystr "aaaaaa bbbbbb"; pystr "a bbbbbb cccccc"]
  /\ len (pystr "aaaaaa bbbbbb") = 13
  /\ sentence_units one_sentence
       (pystr "aaaaaa" ++ [NL] ++ pystr "bbbbbb" ++ [NL] ++ pystr "cccccc")
     = [pystr "aaaaaa"; pystr "bbbbbb"; pystr "cccccc"].
Proof. repeat split; vm_compute; reflexivity. Qed.

(** C3, as stated, fails. The first line of the text has two characters:
    it is a non-blank line of the sanitized text, and it is in no chunk. *)
Lemma split_text_semantic_drops_short_line :
  pystr "ab" ∈ split_lines
                 (clean_pdf_artifacts (pystr "ab" ++ [NL] ++ pystr "cdefgh"))
  /\ strip (pystr "ab") <> []
  /\ split_text_semantic one_sentence 5 0
       (pystr "ab" ++ [NL] ++ pystr "cdefgh")
     = [pystr "cdefgh"]
  /\ contains (pystr "cdefgh") (pystr "ab") = false.
Proof.
  split; [|split; [|split]].
  - vm_compute. by left.
  - vm_compute. discriminate.
  - vm_compute. reflexivity.
  - vm_compute. reflexivity.
Qed.

(** Scenario A of the specification: one line of 120 characters without
    sentence breaks, [chunk_size = 50], gives the line as the one chunk. *)
Example split_text_semantic_scenario_a :
  split_text_semantic one_sentence 50 0 (repeat 97%N 120) = [repeat 97%N 120].
Proof. vm_compute. reflexivity. Qed.

(** The parts of the chunks of three lines of six characters, with
    [chunk_size = 10] and [overlap = 8]: the second and the
    third chunk begin with the last eight characters of the chunk before
    them, and each of the three units stands in one chunk. *)
Example split_text_semantic_parts :
  split_text_semantic one_sentence 10 8
    (pystr "aaaaaa" ++ [NL] ++ pystr "bbbbbb" ++ [NL] ++ pystr "cccccc")
  = List.map chunk_of
      [([], [pystr "aaaaaa"]);
       ([pystr "aaaaaa"], [pystr "bbbbbb"]);
       ([pystr "a bbbbbb"], [pystr "cccccc"])].
Proof. vm_compute. reflexivity. Qed.

(** A heading closes the open chunk, and the sentences under it carry it
    as a prefix.  The sanitizer has deleted the hash sign before the
    heading test sees the line. *)
Example split_text_semantic_heading :
  split_text_semantic one_sentence 12 0
    (pystr "intro words" ++ [NL] ++ pystr "# Title" ++ [NL] ++ pystr "body")
  = [pystr "intro words"; pystr "Title"; pystr "Title: body"].
Proof. vm_compute. reflexivity. Qed.

(** The header prefix counts: a sentence of eight characters under the
    header Title makes a unit, and a chunk, of fifteen characters. *)
Example split_text_semantic_header_prefix :
  split_text_semantic one_sentence 10 0
    (pystr "Title" ++ [NL] ++ pystr "abcdefgh")
  = [pystr "Title"; pystr "Title: abcdefgh"].
Proof. vm_compute. reflexivity. Qed.

(** A text whose sentences all have fewer than three characters comes
    back whole, as one chunk, whatever its length. *)
Example split_text_semantic_no_unit :
  split_text_semantic one_sentence 5 0
    (pystr "ab" ++ [NL] ++ pystr "cd" ++ [NL] ++ pystr "ef")
  = [pystr "ab" ++ [NL] ++ pystr "cd" ++ [NL] ++ pystr "ef"].
Proof. vm_compute. reflexivity. Qed.

(** With the punkt data missing the tokenizer raises and every line is its
    one sentence again. *)
Example split_text_semantic_tokenizer_fails :
  split_text_semantic no_tokenizer 10 8
    (pystr "aaaaaa" ++ [NL] ++ pystr "bbbbbb" ++ [NL] ++ pystr "cccccc")
  = [pystr "aaaaaa"; pystr "aaaaaa bbbbbb"; pystr "a bbbbbb cccccc"].
Proof. vm_compute. reflexivity. Qed.

(** * Further properties *)

(** ** The sanitizer only deletes *)

Section Sanitizer_more.
Context `{Unicode}.

Lemma filter_sublist (p : char -> bool) (s : str) : sublist (List.filter p s) s.
Proof.
  induction s as [|c s IH]; simpl; [constructor|].
  destruct (p c); by constructor.
Qed.

Lemma squeeze_spaces_sublist (s : str) : sublist (squeeze_spaces s) s.
Proof.
  induction s as [|c t IH]; [constructor|].
  simpl. destruct (c =? SP)%N; [|by constructor].
  destruct t as [|c' t']; [by constructor|].
  destruct (c' =? SP)%N; by constructor.
Qed.

Lemma squeeze_newlines_sublist (s : str) : sublist (squeeze_newlines s) s.
Proof.
  induction s as [|c t IH]; [constructor|].
  destruct (squeeze_newlines_cases c t) as [[-> _] | (_ & _ & ->)];
    by constructor.
Qed.

Lemma infix_of_sublist {A} (p s : list A) : infix_of p s -> sublist p s.
Proof.
  intros (a & b & ->). apply sublist_inserts_l, sublist_inserts_r. done.
Qed.

(** X1. The sanitizer only deletes characters: its output is a
    subsequence of its input, and so is never longer. *)
Theorem clean_pdf_artifacts_deletes_only (x : str) :
  sublist (clean_pdf_artifacts x) x
  /\ len (clean_pdf_artifacts x) <= len x.
Proof.
  assert (sublist (clean_pdf_artifacts x) x) as Hsub.
  { unfold clean_pdf_artifacts.
    etrans; [apply infix_of_sublist, strip_infix|].
    etrans; [apply squeeze_newlines_sublist|].
    etrans; [apply squeeze_spaces_sublist|].
    etrans; apply filter_sublist. }
  split; [done|]. apply sublist_length in Hsub. unfold len. lia.
Qed.

Lemma clean_head_spec (s : str) :
  clean_head s <-> forall c rest, s = c :: rest -> uni_isspace c = false.
Proof.
  destruct s as [|c s]; simpl.
  - split; [intros _ ? ? [=] | done].
  - split; [by intros Hc ? ? [= <- <-] | eauto].
Qed.

Lemma clean_last_spec (s : str) :
  clean_head (rev s) <-> forall c pre, s = pre ++ [c] -> uni_isspace c = false.
Proof.
  rewrite clean_head_spec. split.
  - intros Hr c pre ->. apply (Hr c (rev pre)).
    by rewrite rev_app_distr.
  - intros Hs c rest Hrev. apply (Hs c (rev rest)).
    rewrite <- (rev_involutive s), Hrev. done.
Qed.

(** X2. The output of the sanitizer neither begins nor ends with
    whitespace, and each of its characters is a word character, whitespace
    or one of the listed punctuation marks. *)
Theorem clean_pdf_artifacts_trimmed (x : str) :
  (forall c rest, clean_pdf_artifacts x = c :: rest -> uni_isspace c = false)
  /\ (forall c pre, clean_pdf_artifacts x = pre ++ [c] ->
        uni_isspace c = false)
  /\ (forall c, c ∈ clean_pdf_artifacts x ->
        uni_isword c = true \/ uni_isspace c = true \/ is_kept_punct c = true
        \/ c = NL).
Proof.
  split; [|split].
  - apply clean_head_spec. unfold clean_pdf_artifacts. apply strip_clean_head.
  - apply clean_last_spec. unfold clean_pdf_artifacts. apply strip_clean_last.
  - intros c Hc. pose proof (clean_allowed x) as Hall.
    rewrite Forall_forall in Hall. specialize (Hall c Hc).
    unfold is_allowed in Hall.
    apply orb_true_iff in Hall as [Hall | Hnl];
      [|apply N.eqb_eq in Hnl; auto].
    apply orb_true_iff in Hall as [Hall | Hp]; [|auto].
    apply orb_true_iff in Hall as [Hw | Hs]; auto.
Qed.

Lemma strip_id (s : str) :
  clean_head s -> clean_head (rev s) -> strip s = s.
Proof.
  intros Hh Hl. unfold strip, rstrip.
  rewrite (lstrip_id s) by done. rewrite (lstrip_id (rev s)) by done.
  apply rev_involutive.
Qed.

(** X3. The texts that the sanitizer leaves as they are, are exactly those
    without a character of the deleted classes, without two spaces or
    three newlines in a row, and without whitespace at either end. *)
Theorem clean_pdf_artifacts_fixed_points (x : str) :
  clean_pdf_artifacts x = x
  <-> (Forall (fun c => is_ctrl_artifact c = false /\ is_allowed c = true) x
       /\ ~ infix_of [SP; SP] x
       /\ ~ infix_of [NL; NL; NL] x
       /\ clean_head x /\ clean_head (rev x)).
Proof.
  split.
  - intros Hx. rewrite <- Hx. repeat split.
    + apply Forall_forall. intros c Hc.
      pose proof (clean_no_ctrl_artifact x) as H1.
      pose proof (clean_allowed x) as H2.
      rewrite Forall_forall in H1, H2. split; [|auto].
      by apply negb_true_iff, H1.
    + intros Hi%contains_spec. by rewrite clean_no_space_pair in Hi.
    + intros Hi%contains_spec. by rewrite clean_no_newline_triple in Hi.
    + unfold clean_pdf_artifacts. apply strip_clean_head.
    + unfold clean_pdf_artifacts. apply strip_clean_last.
  - intros (Hall & Hsp & Hnl & Hh & Hl). unfold clean_pdf_artifacts.
    rewrite (filter_all _ x).
    2:{ eapply Forall_impl; [exact Hall|]. intros c [Hc _].
        by apply negb_true_iff. }
    rewrite (filter_all _ x).
    2:{ eapply Forall_impl; [exact Hall|]. by intros c [_ Hc]. }
    rewrite squeeze_spaces_id.
    2:{ destruct (contains x [SP; SP]) eqn:E; [|done].
        by apply contains_spec in E. }
    rewrite squeeze_newlines_id.
    2:{ destruct (contains x [NL; NL; NL]) eqn:E; [|done].
        by apply contains_spec in E. }
    by apply strip_id.
Qed.

End Sanitizer_more.

(** ** The chunker: empty chunks and headings *)

Section Chunker_more.
Context `{Unicode}.
Variable sent_tokenize : str -> option (list str).
Variables chunk_size overlap : Z.

Lemma not_skipped (sent : str) :
  negb (truthy sent) || (len sent <? 3) = false -> sent <> [] /\ 3 <= len sent.
Proof.
  intros [Ht Hl]%orb_false_iff. apply negb_false_iff, truthy_true in Ht.
  apply Z.ltb_ge in Hl. done.
Qed.

Lemma sent_with_context_nonempty (heading : bool) (header sent : str) :
  sent <> [] -> sent_with_context heading header sent <> [].
Proof.
  intros Hs. destruct (sent_with_context_suffix heading header sent)
    as (pre & ->).
  intros [_ E]%app_eq_nil. done.
Qed.

Lemma join_snoc_nonempty (l : list str) (u : str) :
  u <> [] -> join [SP] (l ++ [u]) <> [].
Proof.
  intros Hu. destruct (join_last [SP] l u) as (pre & ->).
  intros [_ E]%app_eq_nil. done.
Qed.

Lemma chunk_text_nonempty (st : chunker) :
  join [SP] (current_chunk st) <> [] -> chunk_text st <> [].
Proof.
  intros Hj. unfold chunk_text. destruct (_ && _); [|done].
  intros [_ [_ E]%app_eq_nil]%app_eq_nil. done.
Qed.

Lemma add_sentence_nonblank (heading : bool) (st : chunker) (sent : str) :
  nonblank_inv st ->
  nonblank_inv (add_sentence chunk_size overlap heading st sent).
Proof.
  intros [Hch Hcur]. unfold add_sentence.
  destruct (negb (truthy (strip sent)) || (len (strip sent) <? 3)) eqn:Eskip;
    [done|].
  apply not_skipped in Eskip as [Hne _].
  pose proof (sent_with_context_nonempty heading (last_header st) _ Hne)
    as Hswc.
  destruct (_ && truthy (current_chunk st)) eqn:Eflush;
    split; cbn [chunks current_chunk]; try done.
  - apply andb_true_iff in Eflush as [_ Hcne%truthy_true].
    apply Forall_app. split; [done|]. constructor; [|constructor].
    apply chunk_text_nonempty. auto.
  - intros _. by apply join_snoc_nonempty.
  - intros _. by apply join_snoc_nonempty.
Qed.

Lemma add_sentences_nonblank (heading : bool) (sents : list str)
  (st : chunker) :
  nonblank_inv st ->
  nonblank_inv (fold_left (add_sentence chunk_size overlap heading) sents st).
Proof.
  revert st. induction sents as [|s sents IH]; intros st Hinv; simpl; [done|].
  by apply IH, add_sentence_nonblank.
Qed.

Lemma add_line_nonblank (st : chunker) (raw_line : str) :
  nonblank_inv st ->
  nonblank_inv (add_line sent_tokenize chunk_size overlap st raw_line).
Proof.
  intros [Hch Hcur]. unfold add_line.
  destruct (truthy (strip raw_line)); simpl; [|done].
  apply add_sentences_nonblank.
  destruct (is_heading (strip raw_line)); cbn [andb]; [|done].
  destruct (truthy (current_chunk st)) eqn:Hne;
    split; cbn [chunks current_chunk]; try done.
  apply truthy_true in Hne. apply Forall_app. split; [done|].
  constructor; [|constructor]. apply chunk_text_nonempty. auto.
Qed.

Lemma loop_chunks_nonblank (lines : list str) (st : chunker) :
  nonblank_inv st ->
  Forall (fun c => c <> [])
    (final_chunks (fold_left (add_line sent_tokenize chunk_size overlap)
                             lines st)).
Proof.
  revert st. induction lines as [|l lines IH]; intros st Hinv; simpl.
  - destruct Hinv as [Hch Hcur]. unfold final_chunks.
    destruct (truthy (current_chunk st)) eqn:Hne; [|done].
    apply truthy_true in Hne. apply Forall_app. split; [done|].
    constructor; [|constructor]. apply chunk_text_nonempty. auto.
  - by apply IH, add_line_nonblank.
Qed.

(** X4. [split_text_semantic] returns no chunk exactly when the sanitized
    text is empty, and it never returns an empty chunk. *)
Theorem split_text_semantic_nonempty (text : str) :
  (split_text_semantic sent_tokenize chunk_size overlap text = []
   <-> clean_pdf_artifacts text = [])
  /\ Forall (fun c => c <> [])
            (split_text_semantic sent_tokenize chunk_size overlap text).
Proof.
  unfold split_text_semantic.
  destruct (clean_pdf_artifacts text) as [|c t] eqn:Et; simpl.
  - split; [done | constructor].
  - destruct (len (c :: t) <=? chunk_size).
    + split; [done|]. by repeat constructor.
    + destruct (truthy (final_chunks _)) eqn:Hch.
      * split; [by apply truthy_true in Hch|].
        apply loop_chunks_nonblank. split; simpl; [constructor | done].
      * split; [done|]. by repeat constructor.
Qed.

Lemma chunk_text_prefix (hd : str) (rest : list str) (st : chunker) :
  current_chunk st = hd :: rest -> last_header st = hd ->
  exists r, chunk_text st = hd ++ r.
Proof.
  intros Hcur Hhd. unfold chunk_text. rewrite Hcur, Hhd.
  destruct (_ && _); [by eexists|].
  destruct rest as [|x rest]; simpl.
  - exists []. by rewrite app_nil_r.
  - by eexists.
Qed.

Lemma add_sentence_opened (hd : str) (heading : bool) (st : chunker)
  (sent : str) :
  opened hd st -> opened hd (add_sentence chunk_size overlap heading st sent).
Proof.
  intros Hop. unfold add_sentence.
  destruct (negb (truthy (strip sent)) || (len (strip sent) <? 3)); [done|].
  destruct Hop as [(c & rest & Hc & ->) | (rest & Hcur & Hhd)].
  - left. exists (hd ++ rest), rest. split; [|done].
    destruct (_ && _); cbn [chunks]; [|done]. apply elem_of_app. by left.
  - destruct (_ && truthy (current_chunk st)); cbn [chunks current_chunk
      last_header].
    + left. destruct (chunk_text_prefix hd rest st Hcur Hhd) as (r & Hr).
      exists (chunk_text st), r. split; [|done].
      apply elem_of_app. right. by constructor.
    + right. exists (rest ++ [sent_with_context heading (last_header st)
                                                 (strip sent)]).
      by rewrite Hcur.
Qed.

Lemma add_sentences_opened (hd : str) (heading : bool) (sents : list str)
  (st : chunker) :
  opened hd st ->
  opened hd (fold_left (add_sentence chunk_size overlap heading) sents st).
Proof.
  revert st. induction sents as [|s sents IH]; intros st Hop; simpl; [done|].
  by apply IH, add_sentence_opened.
Qed.

Lemma add_line_opened (hd : str) (st : chunker) (raw_line : str) :
  opened hd st ->
  opened hd (add_line sent_tokenize chunk_size overlap st raw_line).
Proof.
  intros Hop. unfold add_line.
  destruct (truthy (strip raw_line)); simpl; [|done].
  apply add_sentences_opened.
  destruct (is_heading (strip raw_line)); cbn [andb]; [|done].
  left. destruct Hop as [(c & rest & Hc & ->) | (rest & Hcur & Hhd)].
  - exists (hd ++ rest), rest. split; [|done].
    destruct (truthy (current_chunk st)); cbn [chunks]; [|done].
    apply elem_of_app. by left.
  - rewrite Hcur. cbn [truthy chunks].
    destruct (chunk_text_prefix hd rest st Hcur Hhd) as (r & Hr).
    exists (chunk_text st), r. split; [|done].
    apply elem_of_app. right. by constructor.
Qed.

Lemma add_lines_opened (hd : str) (lines : list str) (st : chunker) :
  opened hd st ->
  opened hd (fold_left (add_line sent_tokenize chunk_size overlap) lines st).
Proof.
  revert st. induction lines as [|l lines IH]; intros st Hop; simpl; [done|].
  by apply IH, add_line_opened.
Qed.

Lemma add_sentence_opens (st : chunker) (line : str) :
  current_chunk st = [] -> last_header st = line -> strip line = line ->
  3 <= len line ->
  opened line (add_sentence chunk_size overlap true st line).
Proof.
  intros Hcur Hhd Hstrip Hlen. unfold add_sentence. rewrite Hstrip.
  assert (line <> []) as Hne.
  { intros E. rewrite E in Hlen. unfold len in Hlen. simpl in Hlen. lia. }
  apply truthy_true in Hne. apply Z.ltb_ge in Hlen.
  rewrite Hne, Hlen, Hcur. cbn [negb orb truthy]. rewrite andb_false_r.
  cbn [current_chunk last_header]. rewrite Hcur.
  right. exists []. split; [done|]. done.
Qed.

(** A heading line of three characters or more opens a chunk. *)
Lemma add_line_opens (st : chunker) (raw_line : str) :
  is_heading (strip raw_line) = true -> 3 <= len (strip raw_line) ->
  opened (strip raw_line)
         (add_line sent_tokenize chunk_size overlap st raw_line).
Proof.
  intros Hhead Hlen. unfold add_line.
  assert (strip raw_line <> []) as Hne.
  { intros E. rewrite E in Hlen. unfold len in Hlen. simpl in Hlen. lia. }
  apply truthy_true in Hne. rewrite Hne, Hhead.
  cbn [negb andb sentences_of fold_left].
  apply add_sentence_opens; [|done|apply strip_idempotent|done].
  cbn [current_chunk].
  destruct (truthy (current_chunk st)) eqn:E; [done|].
  by apply truthy_false in E.
Qed.

(** X5. In a text longer than [chunk_size], every heading line of three
    characters or more begins a chunk: the chunk that was open is closed
    before it, and no overlap tail is put in front of it. *)
Theorem split_text_semantic_heading_opens_chunk (text raw_line : str) :
  chunk_size < len (clean_pdf_artifacts text) ->
  raw_line ∈ split_lines (clean_pdf_artifacts text) ->
  is_heading (strip raw_line) = true ->
  3 <= len (strip raw_line) ->
  exists c rest,
    c ∈ split_text_semantic sent_tokenize chunk_size overlap text
    /\ c = strip raw_line ++ rest.
Proof.
  intros Hlong Hraw Hhead Hlen. unfold split_text_semantic.
  set (t := clean_pdf_artifacts text) in *.
  assert (truthy t = true) as ->.
  { apply truthy_true. intros E. rewrite E in Hlong.
    pose proof (len_nonneg (@nil char)). unfold len in *. simpl in *.
    assert (chunk_size < 0) by lia.
    rewrite E in Hraw. simpl in Hraw.
    apply list_elem_of_singleton in Hraw as ->.
    unfold len in Hlen. simpl in Hlen. lia. }
  apply Z.leb_gt in Hlong. rewrite Hlong. simpl.
  assert (opened (strip raw_line)
            (fold_left (add_line sent_tokenize chunk_size overlap)
                       (split_lines t) chunker_init)) as Hop.
  { generalize chunker_init. revert Hraw. generalize (split_lines t).
    intros lines. induction lines as [|l lines IH]; intros Hraw st;
      [by apply elem_of_nil in Hraw|].
    simpl. apply elem_of_cons in Hraw as [<- | Hraw]; [|by apply IH].
    by apply add_lines_opened, add_line_opens. }
  assert (exists c rest,
            c ∈ final_chunks
                  (fold_left (add_line sent_tokenize chunk_size overlap)
                             (split_lines t) chunker_init)
            /\ c = strip raw_line ++ rest) as (c & rest & Hc & Heq).
  { unfold final_chunks.
    destruct Hop as [(c & rest & Hc & ->) | (rest & Hcur & Hhd)].
    - exists (strip raw_line ++ rest), rest. split; [|done].
      destruct (truthy _); [|done]. apply elem_of_app. by left.
    - rewrite Hcur. cbn [truthy].
      destruct (chunk_text_prefix _ rest _ Hcur Hhd) as (r & Hr).
      eexists _, r. split; [|exact Hr].
      apply elem_of_app. right. by constructor. }
  exists c, rest. split; [|done].
  destruct (final_chunks _) as [|c0 cs]; [by apply elem_of_nil in Hc|].
  done.
Qed.

End Chunker_more.

Lemma split_text_semantic_heading_opens_chunk_witness :
  exists c rest,
    c ∈ split_text_semantic one_sentence 12 0
          (pystr "intro words" ++ [NL] ++ pystr "# Title" ++ [NL]
           ++ pystr "body")
    /\ c = strip (pystr " Title") ++ rest.
Proof.
  apply (split_text_semantic_heading_opens_chunk one_sentence 12 0
           (pystr "intro words" ++ [NL] ++ pystr "# Title" ++ [NL]
            ++ pystr "body") (pystr " Title")).
  - vm_compute. reflexivity.
  - vm_compute. right. by left.
  - vm_compute. reflexivity.
  - vm_compute. discriminate.
Defined.

(** ** The adapter and the orchestrator: what is returned and written *)

Section Reranker_more.
Context `{Unicode} `{Binary64}.
Implicit Types (h : heap) (documents : list loc).

Variable new_cross_encoder : str -> option CrossEncoder.
Variable dict_repr : Document -> str.
Variable settings : Settings.

Lemma slice_to_sublist {A} (k : Z) (l : list A) : sublist (slice_to k l) l.
Proof. unfold slice_to. destruct (0 <=? k); apply sublist_take. Qed.

Lemma slice_to_len {A} (k : Z) (l : list A) :
  0 <= k -> len (slice_to k l) <= k.
Proof.
  intros Hk. rewrite slice_to_nonneg by done. unfold len.
  rewrite length_take. lia.
Qed.

Lemma submseteq_NoDup {A} (l k : list A) : l ⊆+ k -> NoDup k -> NoDup l.
Proof.
  intros (k' & Hk)%submseteq_Permutation Hnd. rewrite Hk in Hnd.
  by apply NoDup_app in Hnd as [? _].
Qed.

Lemma map_submseteq {A B} (f : A -> B) (l k : list A) :
  l ⊆+ k -> List.map f l ⊆+ List.map f k.
Proof.
  induction 1; simpl; try by econstructor.
Qed.

(** The fields of a document other than [rerank_score]. *)
Lemma assign_scores_fields (scores : list float) (k : nat) documents h
  (l : loc) :
  doc_id (deref (assign_scores scores k documents h) l) = doc_id (deref h l)
  /\ doc_text (deref (assign_scores scores k documents h) l)
     = doc_text (deref h l)
  /\ doc_score (deref (assign_scores scores k documents h) l)
     = doc_score (deref h l)
  /\ doc_file_name (deref (assign_scores scores k documents h) l)
     = doc_file_name (deref h l)
  /\ doc_chunk_index (deref (assign_scores scores k documents h) l)
     = doc_chunk_index (deref h l).
Proof.
  revert k h. induction documents as [|doc rest IH]; intros k h; [done|].
  simpl. destruct (IH (S k) (<[doc := set_rerank_score
                                 (match scores !! k with
                                  | Some x => x
                                  | None => f_zero
                                  end) (deref h doc)]> h))
    as (-> & -> & -> & -> & ->).
  destruct (decide (doc = l)) as [-> | Hne].
  - by rewrite deref_insert.
  - by rewrite deref_insert_ne.
Qed.

(** The cases of [rerank_documents]: the heap is the one it was given, or
    the one after the scoring loop; the list is a cut of the documents, or
    of their sorted list. *)
Lemma rerank_documents_cases (self : RAGService) (query : str) documents
  (top_k : Z) h :
  ((rerank_documents new_cross_encoder dict_repr settings self query
                     documents top_k h).1.2 = h
   /\ sublist (rerank_documents new_cross_encoder dict_repr settings self
                                query documents top_k h).1.1 documents
   /\ (0 <= top_k ->
       len (rerank_documents new_cross_encoder dict_repr settings self
                             query documents top_k h).1.1 <= top_k))
  \/ exists scores,
       (rerank_documents new_cross_encoder dict_repr settings self query
                         documents top_k h).1.2
       = assign_scores scores 0 documents h
       /\ (rerank_documents new_cross_encoder dict_repr settings self query
                            documents top_k h).1.1
          = slice_to top_k
              (sorted_desc
                 (fun d => rerank_key
                             (deref (assign_scores scores 0 documents h) d))
                 documents).
Proof.
  unfold rerank_documents.
  destruct (truthy documents) eqn:Hd; simpl.
  2:{ left. apply truthy_false in Hd as ->. repeat split; simpl; [done|].
      intros. unfold len. simpl. lia. }
  destruct (load_reranker_model new_cross_encoder settings self)
    as [[predict|] self'].
  2:{ left. simpl. repeat split;
        [apply slice_to_sublist | apply slice_to_len]. }
  destruct (truthy (List.map _ documents)); simpl.
  2:{ left. repeat split; [apply slice_to_sublist | apply slice_to_len]. }
  destruct (predict _) as [scores|]; simpl.
  - right. by exists scores.
  - left. repeat split; [apply slice_to_sublist | apply slice_to_len].
Qed.

Lemma rerank_documents_submseteq (self : RAGService) (query : str) documents
  (top_k : Z) h :
  (rerank_documents new_cross_encoder dict_repr settings self query
                    documents top_k h).1.1 ⊆+ documents.
Proof.
  destruct (rerank_documents_cases self query documents top_k h)
    as [(_ & Hsub & _) | (scores & _ & ->)].
  - by apply sublist_submseteq.
  - etrans; [apply sublist_submseteq, slice_to_sublist|].
    apply Permutation_submseteq, sorted_desc_Permutation.
Qed.

Lemma rerank_documents_len (self : RAGService) (query : str) documents
  (top_k : Z) h :
  0 <= top_k ->
  len (rerank_documents new_cross_encoder dict_repr settings self query
                        documents top_k h).1.1 <= top_k.
Proof.
  intros Hk.
  destruct (rerank_documents_cases self query documents top_k h)
    as [(_ & _ & Hlen) | (scores & _ & ->)]; [auto|].
  by apply slice_to_len.
Qed.

Lemma rerank_documents_ids (self : RAGService) (query : str) documents
  (top_k : Z) h (l : loc) :
  get_id_str
    (deref (rerank_documents new_cross_encoder dict_repr settings self query
                             documents top_k h).1.2 l)
  = get_id_str (deref h l).
Proof.
  destruct (rerank_documents_cases self query documents top_k h)
    as [(-> & _) | (scores & -> & _)]; [done|].
  unfold get_id_str.
  by destruct (assign_scores_fields scores 0 documents h l) as (-> & _).
Qed.

(** X6. [rerank_documents] writes nothing but [rerank_score]: in the heap
    it leaves, every document has the id, the text, the score, the file
    name and the chunk index it had, and a document outside the list is as
    it was. *)
Theorem rerank_documents_writes_score_only (self : RAGService) (query : str)
  documents (top_k : Z) h (l : loc) :
  doc_id (deref (rerank_documents new_cross_encoder dict_repr settings self
                                  query documents top_k h).1.2 l)
  = doc_id (deref h l)
  /\ doc_text (deref (rerank_documents new_cross_encoder dict_repr settings
                                        self query documents top_k h).1.2 l)
     = doc_text (deref h l)
  /\ doc_score (deref (rerank_documents new_cross_encoder dict_repr settings
                                         self query documents top_k h).1.2 l)
     = doc_score (deref h l)
  /\ doc_file_name
       (deref (rerank_documents new_cross_encoder dict_repr settings self
                                query documents top_k h).1.2 l)
     = doc_file_name (deref h l)
  /\ doc_chunk_index
       (deref (rerank_documents new_cross_encoder dict_repr settings self
                                query documents top_k h).1.2 l)
     = doc_chunk_index (deref h l)
  /\ (l ∉ documents ->
      deref (rerank_documents new_cross_encoder dict_repr settings self
                              query documents top_k h).1.2 l
      = deref h l).
Proof.
  destruct (rerank_documents_cases self query documents top_k h)
    as [(-> & _) | (scores & -> & _)]; [done|].
  destruct (assign_scores_fields scores 0 documents h l)
    as (-> & -> & -> & -> & ->).
  repeat split. apply assign_scores_other.
Qed.

(** X7. Whatever the scorer does, [rerank_documents] returns documents of
    its input, none more often than the input holds it, and at most
    [top_k] of them when [top_k] is not negative. *)
Theorem rerank_documents_returns_input (self : RAGService) (query : str)
  documents (top_k : Z) h :
  (rerank_documents new_cross_encoder dict_repr settings self query
                    documents top_k h).1.1 ⊆+ documents
  /\ (NoDup documents ->
      NoDup (rerank_documents new_cross_encoder dict_repr settings self
                              query documents top_k h).1.1)
  /\ (0 <= top_k ->
      len (rerank_documents new_cross_encoder dict_repr settings self query
                            documents top_k h).1.1 <= top_k).
Proof.
  split; [apply rerank_documents_submseteq|]. split.
  - apply submseteq_NoDup, rerank_documents_submseteq.
  - apply rerank_documents_len.
Qed.

(** X8. The cross-encoder is loaded once: after a call that returns a
    model, every later call returns that model, whatever the settings and
    the constructor then are; and a call that returns none leaves the
    service as it was, so that the next call tries again. *)
Theorem load_reranker_model_once (self : RAGService) :
  (forall model,
     (load_reranker_model new_cross_encoder settings self).1 = Some model ->
     forall new_cross_encoder' settings',
       load_reranker_model new_cross_encoder' settings'
         (load_reranker_model new_cross_encoder settings self).2
       = (Some model, (load_reranker_model new_cross_encoder settings self).2))
  /\ ((load_reranker_model new_cross_encoder settings self).1 = None ->
      (load_reranker_model new_cross_encoder settings self).2 = self).
Proof.
  unfold load_reranker_model.
  destruct self as [[m|]]; simpl.
  - split; [|done]. by intros model [= ->] ? ?.
  - destruct (use_reranker settings); [|done].
    destruct (new_cross_encoder _) as [m|]; simpl; [|done].
    split; [|done]. by intros model [= ->] ? ?.
Qed.

(** X9. [advanced_search] never returns two documents with one id, nor a
    document without an id, nor one that is not a candidate; it returns at
    most [top_k] documents when [top_k] is not negative; and the ids are
    those the candidates came with. *)
Theorem advanced_search_distinct_ids (self : RAGService) (bot_id query : str)
  (vector_results : list loc) (top_k : Z) h :
  NoDup (List.map
           (fun l => get_id_str
                       (deref (advanced_search new_cross_encoder dict_repr
                                 settings self bot_id query vector_results
                                 top_k h).1.2 l))
           (advanced_search new_cross_encoder dict_repr settings self bot_id
                            query vector_results top_k h).1.1)
  /\ (forall l,
        l ∈ (advanced_search new_cross_encoder dict_repr settings self
               bot_id query vector_results top_k h).1.1 ->
        l ∈ vector_results /\ get_id_str (deref h l) <> [])
  /\ (forall l,
        get_id_str (deref (advanced_search new_cross_encoder dict_repr
                             settings self bot_id query vector_results
                             top_k h).1.2 l)
        = get_id_str (deref h l))
  /\ (0 <= top_k ->
      len (advanced_search new_cross_encoder dict_repr settings self bot_id
                           query vector_results top_k h).1.1 <= top_k).
Proof.
  pose proof (dedup_inv_fold h vector_results) as (_ & Hnd & _).
  rewrite <- dedup_ids in Hnd.
  assert (forall l, l ∈ dedup_candidates h vector_results ->
            l ∈ vector_results /\ get_id_str (deref h l) <> []) as Hin.
  { intros l Hl. split.
    - eapply elem_of_sublist; [done | apply dedup_candidates_sublist].
    - destruct (dedup_inv_fold h vector_results) as (Hkeys & _).
      unfold dedup_candidates in Hl.
      apply list_elem_of_In, in_map_iff in Hl as (e & <- & He).
      rewrite Forall_forall in Hkeys. apply list_elem_of_In in He.
      destruct (Hkeys e He) as [<- Hne]. done. }
  assert (forall (res : list loc) (h' : heap),
            res ⊆+ dedup_candidates h vector_results ->
            (forall l, get_id_str (deref h' l) = get_id_str (deref h l)) ->
            NoDup (List.map (fun l => get_id_str (deref h' l)) res)
            /\ (forall l, l ∈ res ->
                  l ∈ vector_results /\ get_id_str (deref h l) <> [])
            /\ (forall l, get_id_str (deref h' l) = get_id_str (deref h l)))
    as Hgen.
  { intros res h' Hsub Hids. split; [|split; [|done]].
    - eapply submseteq_NoDup; [|exact Hnd].
      erewrite map_ext; [by apply map_submseteq|]. intros l. apply Hids.
    - intros l Hl. apply Hin. by eapply elem_of_submseteq. }
  unfold advanced_search.
  destruct (truthy (dedup_candidates h vector_results)); simpl.
  2:{ split; [constructor|]. split; [|split; [done|]].
      - intros l Hl. by apply elem_of_nil in Hl.
      - intros. unfold len. simpl. lia. }
  destruct (use_reranker settings).
  - pose proof (rerank_documents_submseteq self query
                  (dedup_candidates h vector_results)
                  (Z.min (top_k * 3)
                     (len (dedup_candidates h vector_results))) h) as Hsub.
    pose proof (rerank_documents_ids self query
                  (dedup_candidates h vector_results)
                  (Z.min (top_k * 3)
                     (len (dedup_candidates h vector_results))) h) as Hids.
    destruct (rerank_documents _ _ _ _ _ _ _ _) as [[reranked h'] self'].
    simpl in *.
    destruct (Hgen (slice_to top_k reranked) h') as (H1 & H2 & H3).
    { etrans; [apply sublist_submseteq, slice_to_sublist | done]. }
    { done. }
    split; [done|]. split; [done|]. split; [done|]. apply slice_to_len.
  - simpl.
    destruct (Hgen (slice_to top_k (dedup_candidates h vector_results)) h)
      as (H1 & H2 & H3).
    { apply sublist_submseteq, slice_to_sublist. }
    { done. }
    split; [done|]. split; [done|]. split; [done|]. apply slice_to_len.
Qed.

Lemma rerank_documents_run (self : RAGService) (query : str) documents
  (top_k : Z) h (predict : CrossEncoder) (scores : list float) :
  documents <> [] ->
  (load_reranker_model new_cross_encoder settings self).1 = Some predict ->
  predict (List.map (fun doc => score_pair dict_repr query (deref h doc))
                    documents) = Some scores ->
  rerank_documents new_cross_encoder dict_repr settings self query
                   documents top_k h
  = (slice_to top_k
       (sorted_desc
          (fun d => rerank_key (deref (assign_scores scores 0 documents h) d))
          documents),
     assign_scores scores 0 documents h,
     (load_reranker_model new_cross_encoder settings self).2).
Proof.
  intros Hne Hload Hpredict. unfold rerank_documents.
  destruct documents as [|d0 rest]; [done|].
  destruct (load_reranker_model new_cross_encoder settings self)
    as [reranker self'] eqn:Hl.
  simpl in Hload. subst reranker.
  cbn [truthy negb List.map]. cbn [List.map] in Hpredict.
  by rewrite Hpredict.
Qed.

(** Cutting to three times [top_k] first does not change the first
    [top_k]. *)
Lemma slice_to_overfetch {A} (k : Z) (l : list A) :
  0 <= k ->
  slice_to k (slice_to (Z.min (k * 3) (len l)) l) = take (Z.to_nat k) l.
Proof.
  intros Hk. pose proof (len_nonneg l) as Hl.
  rewrite !slice_to_nonneg by lia. rewrite take_take.
  destruct (decide (Z.to_nat k <= length l)%nat) as [Hle | Hgt].
  - f_equal. unfold len in *. lia.
  - rewrite (take_ge l (Z.to_nat k)) by lia.
    apply take_ge. unfold len in *. lia.
Qed.

(** X10. With the reranker enabled and a scorer that answers with scores
    that [<] orders (none is a NaN), and [top_k] not negative,
    [advanced_search] returns the first [top_k] documents of the ranking
    of all the deduplicated candidates: every candidate holds the score at
    its index, or [0.0] when there is none; the ranking is a permutation
    of all the candidates, descending by these scores, two candidates of
    which the first has not the smaller score in their order of arrival;
    and cutting the ranking to three times [top_k] before cutting it to
    [top_k] loses nothing. *)
Theorem advanced_search_full_ranking (self : RAGService) (bot_id query : str)
  (vector_results : list loc) (top_k : Z) h (predict : CrossEncoder)
  (scores : list float) :
  use_reranker settings = true ->
  dedup_candidates h vector_results <> [] ->
  (load_reranker_model new_cross_encoder settings self).1 = Some predict ->
  predict (List.map (fun doc => score_pair dict_repr query (deref h doc))
                    (dedup_candidates h vector_results)) = Some scores ->
  comparable (f_zero :: scores) ->
  0 <= top_k ->
  exists (h' : heap) (ranking : list loc),
    advanced_search new_cross_encoder dict_repr settings self bot_id query
                    vector_results top_k h
    = (take (Z.to_nat top_k) ranking, h',
       (load_reranker_model new_cross_encoder settings self).2)
    /\ first_of_each_id h vector_results (dedup_candidates h vector_results)
    /\ Permutation ranking (dedup_candidates h vector_results)
    /\ (forall i d, dedup_candidates h vector_results !! i = Some d ->
          doc_rerank_score (deref h' d) = Some (default f_zero (scores !! i)))
    /\ StronglySorted (by_score h') ranking
    /\ (forall a b, sublist [a; b] (dedup_candidates h vector_results) ->
          by_score h' a b -> sublist [a; b] ranking).
Proof.
  intros Huse Hne Hload Hpredict Hcmp Hk.
  exists (assign_scores scores 0 (dedup_candidates h vector_results) h).
  exists (sorted_desc
            (fun d => rerank_key
                        (deref (assign_scores scores 0
                                  (dedup_candidates h vector_results) h) d))
            (dedup_candidates h vector_results)).
  split; [|split; [|split; [|split]]].
  - unfold advanced_search.
    apply truthy_true in Hne as Ht. rewrite Ht, Huse. simpl.
    rewrite (rerank_documents_run _ _ _ _ _ predict scores) by done.
    f_equal. f_equal.
    rewrite <- (slice_to_overfetch top_k) by done.
    f_equal. f_equal. f_equal. unfold len.
    by rewrite (Permutation_length (sorted_desc_Permutation _ _)).
  - apply dedup_candidates_first.
  - apply sorted_desc_Permutation.
  - intros i d Hi. rewrite (assign_scores_at _ _ _ _ i); [done| |done].
    apply dedup_candidates_NoDup.
  - by apply sorted_by_score.
Qed.

End Reranker_more.

Lemma advanced_search_full_ranking_witness :
  exists (h' : heap) (ranking : list loc),
    advanced_search (fun _ => Some sample_predict) sample_repr
                    sample_settings fresh_service (pystr "bot") (pystr "q")
                    [0; 1; 2; 3]%nat 2 sample_heap
    = (take (Z.to_nat 2) ranking, h',
       (load_reranker_model (fun _ => Some sample_predict) sample_settings
                            fresh_service).2)
    /\ first_of_each_id sample_heap [0; 1; 2; 3]%nat
         (dedup_candidates sample_heap [0; 1; 2; 3]%nat)
    /\ Permutation ranking (dedup_candidates sample_heap [0; 1; 2; 3]%nat)
    /\ (forall i d,
          dedup_candidates sample_heap [0; 1; 2; 3]%nat !! i = Some d ->
          doc_rerank_score (deref h' d)
          = Some (default f_zero ([1%Q; 3%Q] !! i)))
    /\ StronglySorted (by_score h') ranking
    /\ (forall a b,
          sublist [a; b] (dedup_candidates sample_heap [0; 1; 2; 3]%nat) ->
          by_score h' a b -> sublist [a; b] ranking).
Proof.
  apply (advanced_search_full_ranking (fun _ => Some sample_predict)
           sample_repr sample_settings fresh_service (pystr "bot")
           (pystr "q") [0; 1; 2; 3]%nat 2 sample_heap sample_predict
           [1%Q; 3%Q]).
  - reflexivity.
  - vm_compute. discriminate.
  - reflexivity.
  - reflexivity.
  - apply rational_comparable.
  - lia.
Defined.

Example advanced_search_sample :
  (advanced_search (fun _ => Some sample_predict) sample_repr sample_settings
     fresh_service (pystr "bot") (pystr "q") [0; 1; 2; 3]%nat 2
     sample_heap).1.1
  = [1; 0]%nat.
Proof. vm_compute. reflexivity. Qed.

(** ** The context assembler: what is packed *)

Section Context_more.
Context `{Unicode} `{Binary64}.

Lemma sum_len_app (l k : list str) : sum_len (l ++ k) = sum_len l + sum_len k.
Proof. induction l as [|x l IH]; simpl; lia. Qed.

Lemma sum_len_nonneg (l : list str) : 0 <= sum_len l.
Proof.
  induction l as [|x l IH]; simpl; [lia|]. pose proof (len_nonneg x). lia.
Qed.

Lemma len_join (sep : str) (l : list str) :
  l <> [] -> len (join sep l) = sum_len l + len sep * (len l - 1).
Proof.
  induction l as [|x l IH]; [done|]. intros _.
  destruct l as [|y l]; [simpl; unfold len; simpl; lia|].
  change (join sep (x :: y :: l)) with (x ++ sep ++ join sep (y :: l)).
  rewrite !len_app, IH by done.
  change (sum_len (x :: y :: l)) with (len x + sum_len (y :: l)).
  rewrite !len_cons. lia.
Qed.

(** The shape of what the packing loop adds to [context_parts]. *)
Lemma pack_shape (max_chars max_docs : Z) (docs : list Document)
  (context_parts : list str) (total_chars : Z) :
  exists whole cut,
    pack max_chars max_docs docs context_parts total_chars
    = context_parts ++ whole ++ cut
    /\ sublist whole (List.map (fun d => strip (get_text d)) docs)
    /\ Forall (fun t => t <> []) whole
    /\ (whole <> [] -> total_chars + sum_len whole <= max_chars)
    /\ (cut = []
        \/ exists d,
             d ∈ docs
             /\ 500 < max_chars - total_chars - sum_len whole
             /\ max_chars - total_chars - sum_len whole
                < len (strip (get_text d))
             /\ cut = [take (Z.to_nat (max_chars - total_chars
                                       - sum_len whole))
                            (strip (get_text d)) ++ ellipsis])
    /\ (whole ++ cut <> [] ->
        len (context_parts ++ whole ++ cut) <= max_docs).
Proof.
  revert context_parts total_chars.
  induction docs as [|doc rest IH]; intros context_parts total_chars.
  { exists [], []. rewrite !app_nil_r.
    split; [done|]. split; [apply sublist_nil_l|]. split; [constructor|].
    split; [done|]. split; [by left | done]. }
  assert (exists whole cut,
            context_parts = context_parts ++ whole ++ cut
            /\ sublist whole (List.map (fun d => strip (get_text d))
                                       (doc :: rest))
            /\ Forall (fun t => t <> []) whole
            /\ (whole <> [] -> total_chars + sum_len whole <= max_chars)
            /\ (cut = []
                \/ exists d,
                     d ∈ doc :: rest
                     /\ 500 < max_chars - total_chars - sum_len whole
                     /\ max_chars - total_chars - sum_len whole
                        < len (strip (get_text d))
                     /\ cut = [take (Z.to_nat (max_chars - total_chars
                                               - sum_len whole))
                                    (strip (get_text d)) ++ ellipsis])
            /\ (whole ++ cut <> [] ->
                len (context_parts ++ whole ++ cut) <= max_docs)) as Hstop.
  { exists [], []. rewrite !app_nil_r.
    split; [done|]. split; [apply sublist_nil_l|]. split; [constructor|].
    split; [done|]. split; [by left | done]. }
  assert (exists whole cut,
            pack max_chars max_docs rest context_parts total_chars
            = context_parts ++ whole ++ cut
            /\ sublist whole (List.map (fun d => strip (get_text d))
                                       (doc :: rest))
            /\ Forall (fun t => t <> []) whole
            /\ (whole <> [] -> total_chars + sum_len whole <= max_chars)
            /\ (cut = []
                \/ exists d,
                     d ∈ doc :: rest
                     /\ 500 < max_chars - total_chars - sum_len whole
                     /\ max_chars - total_chars - sum_len whole
                        < len (strip (get_text d))
                     /\ cut = [take (Z.to_nat (max_chars - total_chars
                                               - sum_len whole))
                                    (strip (get_text d)) ++ ellipsis])
            /\ (whole ++ cut <> [] ->
                len (context_parts ++ whole ++ cut) <= max_docs)) as Hskip.
  { destruct (IH context_parts total_chars)
      as (whole & cut & Heq & Hsub & Hne & Hsum & Hcut & Hcount).
    exists whole, cut. split; [done|]. split; [by apply sublist_cons|].
    split; [done|]. split; [done|]. split; [|done].
    destruct Hcut as [Hc | (d & Hd & Hrest)]; [by left|]. right.
    exists d. split; [by right | done]. }
  simpl.
  destruct (truthy (strip (get_text doc))) eqn:Htext; simpl;
    [|exact Hskip].
  apply truthy_true in Htext.
  destruct (_ && _); [exact Hskip|].
  destruct (len context_parts >=? max_docs) eqn:Hdocs; [exact Hstop|].
  rewrite Z.geb_leb in Hdocs. apply Z.leb_gt in Hdocs.
  destruct (total_chars + len (strip (get_text doc)) >? max_chars) eqn:Hfit.
  - rewrite Z.gtb_ltb in Hfit. apply Z.ltb_lt in Hfit.
    destruct (max_chars - total_chars >? 500) eqn:Hrem; [|exact Hstop].
    rewrite Z.gtb_ltb in Hrem. apply Z.ltb_lt in Hrem.
    exists [], [take (Z.to_nat (max_chars - total_chars))
                     (strip (get_text doc)) ++ ellipsis].
    split; [by rewrite slice_to_nonneg by lia|].
    split; [apply sublist_nil_l|]. split; [constructor|].
    split; [done|]. split.
    + right. exists doc. simpl. rewrite Z.sub_0_r.
      split; [by left|]. split; [done|]. split; [lia | done].
    + intros _. rewrite app_nil_l, len_app.
      change (len [_]) with 1. lia.
  - rewrite Z.gtb_ltb in Hfit. apply Z.ltb_ge in Hfit.
    destruct (IH (context_parts ++ [strip (get_text doc)])
                 (total_chars + len (strip (get_text doc))))
      as (whole & cut & Heq & Hsub & Hne & Hsum & Hcut & Hcount).
    exists (strip (get_text doc) :: whole), cut.
    split; [by rewrite Heq, <- app_assoc|].
    split; [by apply sublist_skip|].
    split; [by constructor|].
    split.
    { intros _. simpl. destruct whole as [|w ws]; [simpl; lia|].
      specialize (Hsum ltac:(done)). lia. }
    split.
    { destruct Hcut as [Hc | (d & Hd & Hr1 & Hr2 & Hc)]; [by left|]. right.
      exists d. simpl.
      replace (max_chars - total_chars
               - (len (strip (get_text doc)) + sum_len whole))
        with (max_chars - (total_chars + len (strip (get_text doc)))
              - sum_len whole) by lia.
      split; [by right | done]. }
    intros _. rewrite <- app_assoc in Hcount.
    change (len (context_parts ++ strip (get_text doc) :: whole ++ cut)
            <= max_docs).
    change (whole ++ cut <> [] ->
            len (context_parts ++ strip (get_text doc) :: whole ++ cut)
            <= max_docs) in Hcount.
    destruct (whole ++ cut) as [|x xs] eqn:Hwc; [|by apply Hcount].
    rewrite len_app. change (len [_]) with 1. lia.
Qed.

Lemma dedup_text_loop_inv (docs : list Document) :
  forall deduped seen_texts,
    fold_left dedup_text_step docs ([], ∅) = (deduped, seen_texts) ->
    (forall k, k ∈ seen_texts
               <-> k ∈ List.map (fun d => strip (get_text d)) deduped)
    /\ NoDup (List.map (fun d => strip (get_text d)) deduped)
    /\ sublist deduped docs
    /\ (forall d, d ∈ docs ->
          strip (get_text d)
            ∈ List.map (fun d => strip (get_text d)) deduped).
Proof.
  induction docs as [|doc docs IH] using rev_ind; intros deduped seen Hfold.
  - simpl in Hfold. injection Hfold as <- <-.
    split; [|split; [constructor|split; [constructor|]]].
    + intros k. simpl. split; intros Hk.
      * by apply not_elem_of_empty in Hk.
      * by apply elem_of_nil in Hk.
    + intros d Hd. by apply elem_of_nil in Hd.
  - rewrite fold_left_app in Hfold. simpl in Hfold.
    destruct (fold_left dedup_text_step docs ([], ∅)) as [ded0 seen0].
    destruct (IH ded0 seen0 eq_refl) as (Hseen & Hnd & Hsub & Hcov).
    unfold dedup_text_step in Hfold.
    destruct (bool_decide (strip (get_text doc) ∈ seen0)) eqn:Hin.
    + injection Hfold as <- <-. apply bool_decide_eq_true in Hin.
      split; [done|]. split; [done|].
      split; [by apply sublist_inserts_r|].
      intros d [Hd | ->%list_elem_of_singleton]%elem_of_app; [auto|].
      by apply Hseen.
    + injection Hfold as <- <-. apply bool_decide_eq_false in Hin.
      rewrite List.map_app. simpl. split; [|split; [|split]].
      * intros k. rewrite elem_of_union, elem_of_app, elem_of_singleton,
          list_elem_of_singleton, Hseen. tauto.
      * apply NoDup_app. split; [done|]. split; [|apply NoDup_singleton].
        intros k Hk ->%list_elem_of_singleton. apply Hin. by apply Hseen.
      * by apply sublist_app.
      * intros d [Hd | ->%list_elem_of_singleton]%elem_of_app;
          apply elem_of_app; [left; auto | right; by constructor].
Qed.

(** X11. The removal of duplicate texts in [build_context] keeps the
    documents in their order, keeps no two documents whose stripped texts
    are equal, and loses no text: the stripped text of every document is
    the stripped text of a document that is kept. *)
Theorem dedup_texts_correct (filtered_docs : list Document) :
  sublist (dedup_texts filtered_docs) filtered_docs
  /\ NoDup (List.map (fun d => strip (get_text d))
                     (dedup_texts filtered_docs))
  /\ (forall d, d ∈ filtered_docs ->
        strip (get_text d)
          ∈ List.map (fun d => strip (get_text d))
                     (dedup_texts filtered_docs)).
Proof.
  unfold dedup_texts.
  destruct (fold_left dedup_text_step filtered_docs ([], ∅))
    as [deduped seen] eqn:E.
  destruct (dedup_text_loop_inv filtered_docs deduped seen E)
    as (_ & Hnd & Hsub & Hcov). done.
Qed.

Lemma dedup_texts_sublist (filtered_docs : list Document) :
  sublist (dedup_texts filtered_docs) filtered_docs.
Proof.
  unfold dedup_texts.
  destruct (fold_left dedup_text_step filtered_docs ([], ∅))
    as [deduped seen] eqn:E.
  by destruct (dedup_text_loop_inv filtered_docs deduped seen E)
    as (_ & _ & Hsub & _).
Qed.

Lemma dedup_texts_NoDup (filtered_docs : list Document) :
  NoDup (List.map (fun d => strip (get_text d)) (dedup_texts filtered_docs)).
Proof.
  unfold dedup_texts.
  destruct (fold_left dedup_text_step filtered_docs ([], ∅))
    as [deduped seen] eqn:E.
  by destruct (dedup_text_loop_inv filtered_docs deduped seen E)
    as (_ & Hnd & _).
Qed.

Lemma dedup_text_loop_extends (docs : list Document)
  (acc : list Document * gset str) :
  exists tl, (fold_left dedup_text_step docs acc).1 = acc.1 ++ tl.
Proof.
  revert acc. induction docs as [|doc docs IH]; intros acc; simpl.
  - exists []. by rewrite app_nil_r.
  - destruct (IH (dedup_text_step acc doc)) as (tl & ->).
    destruct acc as [deduped seen]. unfold dedup_text_step.
    destruct (bool_decide _); simpl; [by exists tl|].
    exists (doc :: tl). by rewrite <- app_assoc.
Qed.

Lemma dedup_texts_head (first : Document) (rest : list Document) :
  exists tl, dedup_texts (first :: rest) = first :: tl.
Proof.
  unfold dedup_texts. cbn [fold_left].
  destruct (dedup_text_loop_extends rest
              (dedup_text_step ([], ∅) first)) as (tl & Htl).
  rewrite Htl. unfold dedup_text_step.
  destruct (bool_decide _) eqn:E; [|by exists tl].
  apply bool_decide_eq_true in E. by apply not_elem_of_empty in E.
Qed.

Lemma filter_step_elem (query_keywords : list str) (main_header : option str)
  (max_rerank : float) (filtered_docs : list Document) (doc d : Document) :
  d ∈ filter_step query_keywords main_header max_rerank filtered_docs doc ->
  d ∈ filtered_docs \/ d = doc.
Proof.
  unfold filter_step.
  match goal with |- context [if ?b then filtered_docs ++ [doc] else _] =>
    destruct b end; [|by left].
  intros [Hd | ->%list_elem_of_singleton]%elem_of_app; auto.
Qed.

Lemma filter_loop_elem (query_keywords : list str) (main_header : option str)
  (max_rerank : float) (documents filtered_docs : list Document)
  (d : Document) :
  d ∈ fold_left (filter_step query_keywords main_header max_rerank)
                documents filtered_docs ->
  d ∈ filtered_docs \/ d ∈ documents.
Proof.
  revert filtered_docs.
  induction documents as [|doc rest IH]; intros filtered_docs; simpl;
    [by left|].
  intros [[Hd | ->]%filter_step_elem | Hd]%IH.
  - by left.
  - right. by left.
  - right. by right.
Qed.

Lemma recall_loop_elem (min_docs : Z) (documents filtered_docs : list Document)
  (d : Document) :
  d ∈ recall_loop min_docs documents filtered_docs ->
  d ∈ filtered_docs \/ d ∈ documents.
Proof.
  revert filtered_docs.
  induction documents as [|doc rest IH]; intros filtered_docs; simpl;
    [by left|].
  destruct (existsb (doc_eqb doc) filtered_docs).
  - intros [Hd | Hd]%IH; [by left | right; by right].
  - destruct (len (filtered_docs ++ [doc]) >=? min_docs).
    + intros [Hd | ->%list_elem_of_singleton]%elem_of_app;
        [by left | right; by left].
    + intros [[Hd | ->%list_elem_of_singleton]%elem_of_app | Hd]%IH.
      * by left.
      * right. by left.
      * right. by right.
Qed.

Lemma select_docs_elem (query : str) (documents : list Document)
  (min_docs : Z) (d : Document) :
  d ∈ select_docs query documents min_docs -> d ∈ documents.
Proof.
  unfold select_docs. intros Hd.
  eapply elem_of_sublist in Hd; [|apply dedup_texts_sublist].
  unfold total_fallback in Hd. destruct (truthy _) in Hd; simpl in Hd.
  - unfold recall_net in Hd.
    assert (d ∈ filter_pass query documents -> d ∈ documents) as Hf.
    { unfold filter_pass. intros [Hn | Hin]%filter_loop_elem; [|done].
      by apply elem_of_nil in Hn. }
    destruct (len _ <? min_docs); [|auto].
    apply recall_loop_elem in Hd as [Hd | Hd]; auto.
  - eapply elem_of_sublist; [exact Hd | apply slice_to_sublist].
Qed.

Lemma select_docs_head (query : str) (first : Document)
  (rest : list Document) (min_docs : Z) :
  exists tl, select_docs query (first :: rest) min_docs = first :: tl.
Proof.
  unfold select_docs.
  assert (exists tl, filter_pass query (first :: rest) = first :: tl)
    as (tl & ->).
  { unfold filter_pass. cbn [fold_left]. rewrite filter_step_first.
    apply (filter_loop_extends _ _ _ rest [first]). }
  destruct (recall_net_extends min_docs (first :: rest) (first :: tl))
    as (tl' & ->).
  unfold total_fallback. cbn [app truthy negb].
  apply dedup_texts_head.
Qed.

(** X12. The documents that [build_context] packs are documents of its
    input, and the first document of the input is the first of them,
    whatever the query, the scores and [min_docs]. *)
Theorem select_docs_keeps_first (query : str) (first : Document)
  (rest : list Document) (min_docs : Z) :
  (exists tl, select_docs query (first :: rest) min_docs = first :: tl)
  /\ (forall d, d ∈ select_docs query (first :: rest) min_docs ->
        d ∈ first :: rest).
Proof.
  split; [apply select_docs_head|]. intros d. apply select_docs_elem.
Qed.

(** What [build_context] joins: the parts that the packing loop makes of
    the selected documents. *)
Lemma packed_shape (query : str) (documents : list Document)
  (max_chars max_docs min_docs : Z) :
  exists whole cut,
    pack max_chars max_docs (select_docs query documents min_docs) [] 0
    = whole ++ cut
    /\ NoDup whole
    /\ (forall t, t ∈ whole ->
          t <> [] /\ exists d, d ∈ documents /\ t = strip (get_text d))
    /\ (whole <> [] -> sum_len whole <= max_chars)
    /\ (cut = []
        \/ exists d,
             d ∈ documents
             /\ 500 < max_chars - sum_len whole
             /\ max_chars - sum_len whole < len (strip (get_text d))
             /\ cut = [take (Z.to_nat (max_chars - sum_len whole))
                            (strip (get_text d)) ++ ellipsis])
    /\ (whole ++ cut <> [] -> len (whole ++ cut) <= max_docs).
Proof.
  destruct (pack_shape max_chars max_docs
              (select_docs query documents min_docs) [] 0)
    as (whole & cut & Heq & Hsub & Hne & Hsum & Hcut & Hcount).
  rewrite app_nil_l in Heq, Hcount. rewrite Z.sub_0_r in Hcut.
  exists whole, cut. split; [done|]. split; [|split; [|split; [|split]]].
  - eapply sublist_NoDup; [|exact Hsub]. unfold select_docs.
    apply dedup_texts_NoDup.
  - intros t Ht. split.
    + rewrite Forall_forall in Hne. auto.
    + eapply elem_of_sublist in Ht; [|exact Hsub].
      apply list_elem_of_In, in_map_iff in Ht as (d & <- & Hd).
      exists d. split; [|done].
      eapply select_docs_elem. by apply list_elem_of_In.
  - intros Hw. specialize (Hsum Hw). lia.
  - destruct Hcut as [Hc | (d & Hd & Hr1 & Hr2 & Hc)]; [by left|]. right.
    exists d. split; [by eapply select_docs_elem | done].
  - done.
Qed.

(** X13. A context is made of whole stripped texts of documents of the
    input, none empty and none twice, within [max_chars] together, and then
    at most one text that was cut: cut after more than 500 characters, at
    what was left of [max_chars], and closed by the marker.  There are at
    most [max_docs] parts. *)
Theorem build_context_parts (query : str) (documents : list Document)
  (max_chars max_docs min_docs : Z) :
  exists whole cut,
    build_context query documents max_chars max_docs min_docs
    = join [NL; NL] (whole ++ cut)
    /\ NoDup whole
    /\ (forall t, t ∈ whole ->
          t <> [] /\ exists d, d ∈ documents /\ t = strip (get_text d))
    /\ (whole <> [] -> sum_len whole <= max_chars)
    /\ (cut = []
        \/ exists d,
             d ∈ documents
             /\ 500 < max_chars - sum_len whole
             /\ max_chars - sum_len whole < len (strip (get_text d))
             /\ cut = [take (Z.to_nat (max_chars - sum_len whole))
                            (strip (get_text d)) ++ ellipsis])
    /\ (whole ++ cut <> [] -> len (whole ++ cut) <= max_docs).
Proof.
  unfold build_context. destruct (truthy documents); simpl.
  - destruct (packed_shape query documents max_chars max_docs min_docs)
      as (whole & cut & -> & Hrest).
    by exists whole, cut.
  - exists [], []. split; [done|]. split; [constructor|].
    split; [intros t Ht; by apply elem_of_nil in Ht|].
    split; [done|]. split; [by left | done].
Qed.

Lemma build_context_len_bound (query : str) (documents : list Document)
  (max_chars max_docs min_docs : Z) :
  0 <= max_chars -> 1 <= max_docs ->
  len (build_context query documents max_chars max_docs min_docs)
  <= max_chars + 3 + 2 * (max_docs - 1).
Proof.
  intros Hmc Hmd. unfold build_context.
  destruct (truthy documents); simpl; [|unfold len; simpl; lia].
  destruct (packed_shape query documents max_chars max_docs min_docs)
    as (whole & cut & -> & _ & _ & Hsum & Hcut & Hcount).
  destruct (whole ++ cut) as [|x xs] eqn:Hwc; [unfold len; simpl; lia|].
  rewrite len_join by done. specialize (Hcount ltac:(done)).
  change (len [NL; NL]) with 2.
  assert (sum_len (x :: xs) <= max_chars + 3) as Hs; [|lia].
  rewrite <- Hwc, sum_len_app.
  destruct Hcut as [-> | (d & _ & Hr1 & Hr2 & ->)].
  - simpl. destruct whole as [|w ws]; [simpl; lia|].
    specialize (Hsum ltac:(done)). lia.
  - simpl. rewrite len_app. change (len ellipsis) with 3.
    unfold len at 1. rewrite length_take. unfold len in Hr2. lia.
Qed.

(** X14. With [max_chars] not negative and [max_docs] at least one, a
    context has at most [max_chars] characters, and three for the marker,
    and two for each of the at most [max_docs - 1] separators. *)
Theorem build_context_budget (query : str) (documents : list Document)
  (max_chars max_docs min_docs : Z) :
  0 <= max_chars -> 1 <= max_docs ->
  len (build_context query documents max_chars max_docs min_docs)
  <= max_chars + 3 + 2 * (max_docs - 1).
Proof.
  apply build_context_len_bound.
Qed.

Lemma join_head (sep t : str) (l : list str) :
  exists r, join sep (t :: l) = t ++ r.
Proof.
  destruct l as [|y l]; simpl; [|by eexists].
  exists []. by rewrite app_nil_r.
Qed.

(** X15. When the stripped text of the first document is not empty and
    fits [max_chars], and [max_docs] is at least one, the context begins
    with that text. *)
Theorem build_context_leads_with_first (query : str) (first : Document)
  (rest : list Document) (max_chars max_docs min_docs : Z) :
  strip (get_text first) <> [] ->
  len (strip (get_text first)) <= max_chars ->
  1 <= max_docs ->
  exists tail,
    build_context query (first :: rest) max_chars max_docs min_docs
    = strip (get_text first) ++ tail.
Proof.
  intros Hne Hfit Hmd. unfold build_context. cbn [truthy negb].
  destruct (select_docs_head query first rest min_docs) as (tl & ->).
  cbn [pack]. apply truthy_true in Hne. rewrite Hne. cbn [negb].
  replace (len (@nil str) >? 0) with false by done.
  rewrite !andb_false_r.
  replace (len (@nil str) >=? max_docs) with false.
  2:{ symmetry. rewrite Z.geb_leb. apply Z.leb_gt.
      unfold len. simpl. lia. }
  replace (0 + len (strip (get_text first)) >? max_chars) with false.
  2:{ symmetry. rewrite Z.gtb_ltb. apply Z.ltb_ge. lia. }
  destruct (pack_shape max_chars max_docs tl
              ([] ++ [strip (get_text first)])
              (0 + len (strip (get_text first))))
    as (whole & cut & -> & _).
  apply join_head.
Qed.

Lemma existsb_app_l {A} (f : A -> bool) (l k : list A) :
  existsb f l = true -> existsb f (l ++ k) = true.
Proof. intros Hl. by rewrite existsb_app, Hl. Qed.

Lemma recall_loop_guarantee (min_docs : Z)
  (documents filtered_docs : list Document) :
  min_docs <= len (recall_loop min_docs documents filtered_docs)
  \/ forall d, d ∈ documents ->
       d ∈ recall_loop min_docs documents filtered_docs
       \/ existsb (doc_eqb d)
                  (recall_loop min_docs documents filtered_docs) = true.
Proof.
  revert filtered_docs.
  induction documents as [|doc rest IH]; intros filtered_docs.
  { right. intros d Hd. by apply elem_of_nil in Hd. }
  simpl. destruct (existsb (doc_eqb doc) filtered_docs) eqn:Hin.
  - destruct (IH filtered_docs) as [Hm | Hall]; [by left|]. right.
    intros d [-> | Hd]%elem_of_cons; [|auto]. right.
    destruct (recall_loop_extends min_docs rest filtered_docs) as (tl & ->).
    by apply existsb_app_l.
  - destruct (len (filtered_docs ++ [doc]) >=? min_docs) eqn:Hlen.
    + left. rewrite Z.geb_leb in Hlen. by apply Z.leb_le.
    + destruct (IH (filtered_docs ++ [doc])) as [Hm | Hall]; [by left|].
      right. intros d [-> | Hd]%elem_of_cons; [|auto]. left.
      destruct (recall_loop_extends min_docs rest (filtered_docs ++ [doc]))
        as (tl & ->).
      rewrite !elem_of_app. left. right. by constructor.
Qed.

(** X16. The recall step keeps what the filter kept, in front, and goes
    on until [min_docs] documents are kept or the input is used up: then
    every document of the input is kept, or is equal to one that is. *)
Theorem recall_net_guarantee (min_docs : Z)
  (documents filtered_docs : list Document) :
  (exists tl,
     recall_net min_docs documents filtered_docs = filtered_docs ++ tl)
  /\ (min_docs <= len (recall_net min_docs documents filtered_docs)
      \/ forall d, d ∈ documents ->
           d ∈ recall_net min_docs documents filtered_docs
           \/ existsb (doc_eqb d)
                      (recall_net min_docs documents filtered_docs) = true).
Proof.
  split; [apply recall_net_extends|]. unfold recall_net.
  destruct (len filtered_docs <? min_docs) eqn:Hlen.
  - apply recall_loop_guarantee.
  - left. by apply Z.ltb_ge in Hlen.
Qed.

Lemma findall_runs_spec (p : char -> bool) (s : str) :
  (forall r, r ∈ findall_runs p s ->
     r <> [] /\ Forall (fun c => p c = true) r /\ infix_of r s)
  /\ (forall c s', s = c :: s' -> p c = true ->
        exists r rs rest, findall_runs p s = r :: rs /\ s = r ++ rest).
Proof.
  induction s as [|c s [IHa IHb]].
  { split; [intros r Hr; by apply elem_of_nil in Hr | intros ? ? [=]]. }
  assert (forall r, r ∈ findall_runs p s ->
            r <> [] /\ Forall (fun c => p c = true) r
            /\ infix_of r (c :: s)) as IHa'.
  { intros r Hr. destruct (IHa r Hr) as (? & ? & Hi).
    repeat split; try done. by apply (infix_of_app_r _ _ [c]). }
  simpl. destruct (p c) eqn:Hc.
  2:{ split; [exact IHa'|]. intros ? ? [= <- <-] Hp. congruence. }
  destruct s as [|c' s'].
  { split.
    - intros r ->%list_elem_of_singleton.
      repeat split; [done | by repeat constructor | apply infix_of_refl].
    - intros ? ? _ _. by exists [c], [], []. }
  destruct (p c') eqn:Hc'.
  - destruct (IHb c' s' eq_refl Hc') as (r & rs & rest & Hruns & Hs).
    rewrite Hruns in IHa' |- *. split.
    + intros x [-> | Hx]%elem_of_cons.
      * destruct (IHa r) as (_ & Hall & _); [rewrite Hruns; by left|].
        repeat split; [done | by constructor |].
        exists [], rest. simpl. by rewrite Hs.
      * apply IHa'. by right.
    + intros ? ? _ _. exists (c :: r), rs, rest. split; [done|].
      simpl. by rewrite Hs.
  - split.
    + intros x [-> | Hx]%elem_of_cons; [|by apply IHa'].
      repeat split; [done | by repeat constructor |].
      by exists [], (c' :: s').
    + intros ? ? _ _. by exists [c], (findall_runs p (c' :: s')), (c' :: s').
Qed.

(** X17. Every keyword that [build_context] takes from the query is the
    lower-cased form of a run of at least four letters (Latin, Cyrillic
    or apostrophe) that stands in the query. *)
Theorem extract_keywords_from_text (text k : str) :
  k ∈ extract_keywords text ->
  exists w, k = uni_lower w /\ 4 <= len w /\ infix_of w text
            /\ Forall (fun c => is_keyword_char c = true) w.
Proof.
  unfold extract_keywords.
  intros (w & <- & Hw)%list_elem_of_In%in_map_iff.
  apply filter_In in Hw as [Hw Hlen]. apply list_elem_of_In in Hw.
  destruct (findall_runs_spec is_keyword_char text) as [Hruns _].
  destruct (Hruns w Hw) as (_ & Hall & Hinf).
  exists w. rewrite Z.geb_leb in Hlen. apply Z.leb_le in Hlen. done.
Qed.

End Context_more.

Lemma build_context_budget_witness :
  len (build_context (pystr "zzzz")
                     [sample_doc 1 "aaaa."; sample_doc 2 "bbbb."] 10 30 8)
  <= 10 + 3 + 2 * (30 - 1).
Proof.
  apply (build_context_budget (pystr "zzzz")
           [sample_doc 1 "aaaa."; sample_doc 2 "bbbb."] 10 30 8); lia.
Defined.

Lemma build_context_leads_with_first_witness :
  exists tail,
    build_context (pystr "zzzz")
                  [sample_doc 1 "aaaa."; sample_doc 2 "bbbb."] 10 30 8
    = strip (get_text (sample_doc 1 "aaaa.")) ++ tail.
Proof.
  apply (build_context_leads_with_first (pystr "zzzz") (sample_doc 1 "aaaa.")
           [sample_doc 2 "bbbb."] 10 30 8).
  - vm_compute. discriminate.
  - vm_compute. discriminate.
  - lia.
Defined.

Lemma extract_keywords_from_text_witness :
  exists w, pystr "reset" = uni_lower w /\ 4 <= len w
            /\ infix_of w (pystr "How to RESET my pin")
            /\ Forall (fun c => is_keyword_char c = true) w.
Proof.
  apply (extract_keywords_from_text (pystr "How to RESET my pin")
           (pystr "reset")).
  vm_compute. by left.
Defined.

(** ** The loaders *)

Section Embeddings_facts.
Context `{Unicode} `{Binary64}.

(** X18. The sentence transformer is loaded once: after a call of
    [load_embedding_model] that returns a model, every later call returns
    that model, whatever the settings and the constructor then are.  A
    call that fails leaves the service without a model; without a model
    and without a model name, or without a cache folder, the call fails
    with a [ValueError] and constructs nothing. *)
Theorem load_embedding_model_once
  (new_sentence_transformer : str -> str -> option Encoder)
  (settings : EmbeddingSettings) (embedding_model : option Encoder) :
  (forall model,
     (load_embedding_model new_sentence_transformer settings
                           embedding_model).1 = inr model ->
     forall new_sentence_transformer' settings',
       load_embedding_model new_sentence_transformer' settings'
         (load_embedding_model new_sentence_transformer settings
                               embedding_model).2
       = (inr model,
          (load_embedding_model new_sentence_transformer settings
                                embedding_model).2))
  /\ (forall e,
        (load_embedding_model new_sentence_transformer settings
                              embedding_model).1 = inl e ->
        embedding_model = None
        /\ (load_embedding_model new_sentence_transformer settings
                                 embedding_model).2 = None)
  /\ (embedding_model = None ->
      (opt_truthy (embedding_model_name settings) = false
       \/ opt_truthy (embedding_cache_folder settings) = false) ->
      exists msg,
        load_embedding_model new_sentence_transformer settings
                             embedding_model
        = (inl (ValueError msg), None)).
Proof.
  unfold load_embedding_model.
  destruct embedding_model as [m|]; simpl.
  { split; [by intros model [= ->] ? ?|]. split; [by intros e [=]|done]. }
  destruct (opt_truthy (embedding_model_name settings)); simpl.
  2:{ split; [by intros model [=]|]. split; [done|].
      intros _ _. by eexists. }
  destruct (opt_truthy (embedding_cache_folder settings)); simpl.
  2:{ split; [by intros model [=]|]. split; [done|].
      intros _ _. by eexists. }
  destruct (new_sentence_transformer _ _) as [m|]; simpl.
  - split; [by intros model [= ->] ? ?|]. split; [by intros e [=]|].
    by intros _ [[=] | [=]].
  - split; [by intros model [=]|]. split; [done|].
    by intros _ [[=] | [=]].
Qed.

End Embeddings_facts.

(** ** The generator service *)

Section Generator_facts.
Context `{Unicode}.

Lemma stream_tokens_started (outputs : list str) :
  stream_tokens true outputs = List.map strip_tags outputs.
Proof.
  induction outputs as [|text rest IH]; simpl; [done|]. by rewrite IH.
Qed.

(** X19. The stream of [generate_response_stream] withholds the tokens
    that are empty or all whitespace until a token with content has come,
    and nothing else: the tokens of the model, their tags deleted, are the
    withheld blank tokens and then the tokens of the stream, one for one;
    and the first token of the stream is not blank. *)
Theorem generate_response_stream_withholds_blanks (outputs : list str) :
  exists blanks,
    List.map strip_tags outputs = blanks ++ generate_response_stream outputs
    /\ Forall (fun token => blank_token token = true) blanks
    /\ (forall token rest,
          generate_response_stream outputs = token :: rest ->
          blank_token token = false).
Proof.
  unfold generate_response_stream.
  induction outputs as [|text rest (blanks & Heq & Hblank & Hfirst)].
  { exists []. split; [done|]. split; [constructor | by intros ? ? [=]]. }
  simpl. destruct (blank_token (strip_tags text)) eqn:E; simpl.
  - exists (strip_tags text :: blanks). split; [by rewrite Heq|].
    split; [by constructor | done].
  - exists []. rewrite stream_tokens_started. split; [done|].
    split; [constructor|]. by intros ? ? [= <- <-].
Qed.

Lemma delete_all_from_sublist (old : str) (skip : nat) (s : str) :
  sublist (delete_all_from old skip s) s.
Proof.
  revert skip. induction s as [|c s IH]; intros skip; simpl; [constructor|].
  destruct skip as [|k]; [|by constructor].
  destruct (startswith old (c :: s)); by constructor.
Qed.

Lemma delete_all_absent (old s : str) (c : char) :
  (exists old', old = c :: old') -> c ∉ s -> delete_all old s = s.
Proof.
  intros (old' & ->) Hc. unfold delete_all.
  induction s as [|d s IH]; [done|].
  apply not_elem_of_cons in Hc as [Hne Hc]. simpl.
  apply N.eqb_neq in Hne. rewrite Hne. simpl. by rewrite IH.
Qed.

(** X20. Deleting the tags only deletes: the token that is yielded is a
    subsequence of the text that the model put out; and a text without
    the character [<] is yielded as it is. *)
Theorem strip_tags_deletes_only (text : str) :
  sublist (strip_tags text) text
  /\ (60%N ∉ text -> strip_tags text = text).
Proof.
  unfold strip_tags. split.
  - unfold delete_all.
    etrans; [apply delete_all_from_sublist|].
    etrans; [apply delete_all_from_sublist|].
    etrans; apply delete_all_from_sublist.
  - intros Hc.
    rewrite (delete_all_absent (pystr "<think>") text 60%N);
      [|by eexists|done].
    rewrite (delete_all_absent (pystr "</think>") text 60%N);
      [|by eexists|done].
    rewrite (delete_all_absent (pystr "<thought>") text 60%N);
      [|by eexists|done].
    apply (delete_all_absent (pystr "</thought>") text 60%N);
      [by eexists|done].
Qed.

Variable settings : PromptSettings.

(** X21. The prompt of [_format_messages] for a conversation and one more
    message is the prompt for the conversation with the block of that
    message put in before the opening of the assistant's turn; and when a
    system prompt is given, the behaviour instruction is not in the prompt:
    the prompt is the same whatever the instruction. *)
Theorem format_messages_append (messages : list Message) (msg : Message)
  (behavior_instruction system_prompt : option str) :
  (exists head,
     _format_messages settings messages behavior_instruction system_prompt
     = head ++ (im_start ++ pystr "assistant" ++ [NL])
     /\ _format_messages settings (messages ++ [msg]) behavior_instruction
                         system_prompt
        = add_message head msg ++ (im_start ++ pystr "assistant" ++ [NL]))
  /\ (opt_truthy system_prompt = true ->
      forall behavior_instruction',
        _format_messages settings messages behavior_instruction' system_prompt
        = _format_messages settings messages behavior_instruction
                           system_prompt).
Proof.
  split.
  - unfold _format_messages. eexists. split; [done|].
    by rewrite fold_left_app.
  - intros Hsp bi'. unfold _format_messages, system_message.
    by rewrite Hsp.
Qed.

End Generator_facts.
